(** * Sentinel CCTV dashboard: fault / alert reconciliation engine

    A shallow embedding of the TypeScript sources

    - [types.ts]            (the record types),
    - [App.tsx]             (simulation tick, reconnect, NVR add / edit / delete,
                             analysis-result handler),
    - [services/geminiService.ts]   ([analyzeFrame]),
    - [services/databaseService.ts] ([db.getData], [db.createBackup],
                             [db.restoreBackup]),

    followed by the properties of the specification, each stated over these
    definitions.

    Conventions of the embedding.

    - React state ([useState]) is one record, [World]; a handler is a
      computation in the state monad [M] over it.  The functional updaters
      ([setX (prev => ...)]) queued by a handler are applied in the order in
      which they are queued, which is what React does with them.
    - [Math.random ()] reads the next element of a stream of rationals,
      [generateId ()] the next element of a stream of identifiers; both
      streams are parameters ([Oracle]) and the read positions are part of
      [World].  (In the source [generateId] is itself computed from
      [Math.random ()]; since the streams are arbitrary this loses no
      behaviour.)
    - [Date.now ()] is the argument [now] of a handler (one reading per
      handler run).
    - Timestamps are integers ([Z]); [undefined] / a missing optional field is
      [None].
    - The state that a handler reads from the dialogs ([deleteNvrId],
      [nvrForm], [isEditingNvr]) is an argument of the handler; users and the
      rest of the presentation state are left out.
    - Every update of a collection is also written to [db] by the wrappers
      [updateCameras] ... [updateFaults]; the storage is modelled on its own
      (last part of the embedding), in terms of JSON values, whose numbers
      are the doubles of the runtime ([JsNumber]). *)

From stdpp Require Import base list strings gmap pretty.
From Stdlib Require Import Ascii ZArith QArith Qround DecimalString DecimalZ
  Sorted.

Open Scope Z_scope.
Open Scope string_scope.
Open Scope list_scope.

(** ** types.ts *)

Inductive CameraType := SIMULATED | WEBCAM | STATIC.
Inductive NvrStatus := ONLINE | OFFLINE | AUTH_FAILURE.
Inductive ThreatLevel := LOW | MEDIUM | HIGH | CRITICAL.
Inductive Severity := SevINFO | SevWARNING | SevCRITICAL.
Inductive ToastType :=
  ToastSuccess | ToastError | ToastWarning | ToastInfo | ToastCritical.

#[export] Instance CameraType_eq_dec : EqDecision CameraType.
Proof. solve_decision. Defined.
#[export] Instance NvrStatus_eq_dec : EqDecision NvrStatus.
Proof. solve_decision. Defined.
#[export] Instance ThreatLevel_eq_dec : EqDecision ThreatLevel.
Proof. solve_decision. Defined.
#[export] Instance Severity_eq_dec : EqDecision Severity.
Proof. solve_decision. Defined.

Record NvrDevice := mkNvr {
  nvr_id : string;
  nvr_name : string;
  nvr_ip : string;
  nvr_port : string;
  nvr_username : string;
  nvr_password : option string;
  nvr_protocol : string;
  nvr_status : NvrStatus;
  nvr_addedAt : Z
}.

Record AnalysisResult := mkAnalysis {
  ar_timestamp : string;
  ar_summary : string;
  ar_personCount : Z;
  ar_threatLevel : ThreatLevel;
  ar_detectedObjects : list string;
  ar_anomalies : list string
}.

Record Camera := mkCamera {
  cam_id : string;
  cam_name : string;
  cam_location : string;
  cam_nvrId : string;
  cam_type : CameraType;
  cam_sourceUrl : option string;
  isOnline : bool;
  isRecording : bool;
  statusChangedAt : Z;
  lastAnalysis : option AnalysisResult;
  lastUpdate : Z
}.

Record FaultRecord := mkFault {
  f_id : string;
  f_cameraId : string;
  f_cameraName : string;
  f_location : string;
  f_nvrId : string;
  timeOff : Z;
  timeOn : option Z;
  acknowledged : bool
}.

Record Alert := mkAlert {
  a_id : string;
  a_cameraId : string;
  a_cameraName : string;
  a_timestamp : Z;
  a_message : string;
  a_severity : Severity;
  a_thumbnail : option string
}.

Record Toast := mkToast {
  t_id : string;
  t_type : ToastType;
  t_title : string;
  t_message : string;
  t_duration : Z
}.

(** Object spreads [{ ...c, field: v }] used by the handlers. *)

Definition withStatus (c : Camera) (online recording : bool) (at_ : Z) : Camera :=
  {| cam_id := cam_id c; cam_name := cam_name c; cam_location := cam_location c;
     cam_nvrId := cam_nvrId c; cam_type := cam_type c;
     cam_sourceUrl := cam_sourceUrl c;
     isOnline := online; isRecording := recording; statusChangedAt := at_;
     lastAnalysis := lastAnalysis c; lastUpdate := lastUpdate c |}.

Definition withOnline (c : Camera) (online : bool) : Camera :=
  {| cam_id := cam_id c; cam_name := cam_name c; cam_location := cam_location c;
     cam_nvrId := cam_nvrId c; cam_type := cam_type c;
     cam_sourceUrl := cam_sourceUrl c;
     isOnline := online; isRecording := isRecording c;
     statusChangedAt := statusChangedAt c;
     lastAnalysis := lastAnalysis c; lastUpdate := lastUpdate c |}.

Definition withAnalysis (c : Camera) (r : AnalysisResult) (at_ : Z) : Camera :=
  {| cam_id := cam_id c; cam_name := cam_name c; cam_location := cam_location c;
     cam_nvrId := cam_nvrId c; cam_type := cam_type c;
     cam_sourceUrl := cam_sourceUrl c;
     isOnline := isOnline c; isRecording := isRecording c;
     statusChangedAt := statusChangedAt c;
     lastAnalysis := Some r; lastUpdate := at_ |}.

Definition withNvrStatus (n : NvrDevice) (s : NvrStatus) : NvrDevice :=
  {| nvr_id := nvr_id n; nvr_name := nvr_name n; nvr_ip := nvr_ip n;
     nvr_port := nvr_port n; nvr_username := nvr_username n;
     nvr_password := nvr_password n; nvr_protocol := nvr_protocol n;
     nvr_status := s; nvr_addedAt := nvr_addedAt n |}.

Definition withTimeOn (f : FaultRecord) (t : Z) : FaultRecord :=
  {| f_id := f_id f; f_cameraId := f_cameraId f; f_cameraName := f_cameraName f;
     f_location := f_location f; f_nvrId := f_nvrId f; timeOff := timeOff f;
     timeOn := Some t; acknowledged := acknowledged f |}.

(** ** The state of [App] and the monad of its handlers *)

Record Oracle := mkOracle {
  random : nat → Q;        (* successive results of Math.random () *)
  freshId : nat → string   (* successive results of generateId () *)
}.

Record World := mkWorld {
  cameras : list Camera;
  nvrs : list NvrDevice;
  faults : list FaultRecord;
  alerts : list Alert;
  toasts : list Toast;
  liveCameraIds : list string;
  rpos : nat;              (* number of Math.random () calls so far *)
  ipos : nat               (* number of generateId () calls so far *)
}.

Definition M (A : Type) : Type := World → A * World.

#[export] Instance M_ret : MRet M := λ A a w, (a, w).
#[export] Instance M_bind : MBind M :=
  λ A B k m w, let '(a, w') := m w in k a w'.

Definition exec {A} (m : M A) (w : World) : World := snd (m w).
Definition eval {A} (m : M A) (w : World) : A := fst (m w).

(** Reading and writing the pieces of state.  [updateCameras],
    [updateNvrs], [updateFaults] and [updateAlerts] are the persistence
    wrappers of [App]: each applies its updater to the React state (and
    mirrors the result to [db], which is modelled separately below). *)

Definition get : M World := λ w, (w, w).

Definition updateCameras (f : list Camera → list Camera) : M unit := λ w,
  (tt, mkWorld (f (cameras w)) (nvrs w) (faults w) (alerts w) (toasts w)
         (liveCameraIds w) (rpos w) (ipos w)).
Definition updateNvrs (f : list NvrDevice → list NvrDevice) : M unit := λ w,
  (tt, mkWorld (cameras w) (f (nvrs w)) (faults w) (alerts w) (toasts w)
         (liveCameraIds w) (rpos w) (ipos w)).
Definition updateFaults (f : list FaultRecord → list FaultRecord) : M unit := λ w,
  (tt, mkWorld (cameras w) (nvrs w) (f (faults w)) (alerts w) (toasts w)
         (liveCameraIds w) (rpos w) (ipos w)).
Definition updateAlerts (f : list Alert → list Alert) : M unit := λ w,
  (tt, mkWorld (cameras w) (nvrs w) (faults w) (f (alerts w)) (toasts w)
         (liveCameraIds w) (rpos w) (ipos w)).
Definition setToasts (f : list Toast → list Toast) : M unit := λ w,
  (tt, mkWorld (cameras w) (nvrs w) (faults w) (alerts w) (f (toasts w))
         (liveCameraIds w) (rpos w) (ipos w)).
Definition setLiveCameraIds (f : list string → list string) : M unit := λ w,
  (tt, mkWorld (cameras w) (nvrs w) (faults w) (alerts w) (toasts w)
         (f (liveCameraIds w)) (rpos w) (ipos w)).

(** ** Small pieces of the JavaScript library *)

(** [a < b] on the results of [Math.random ()]. *)
Definition lt (a b : Q) : bool := negb (Qle_bool b a).

(** [arr[i]] for an integer [i]: [undefined] out of range. *)
Definition at_index {A} (arr : list A) (i : Z) : option A :=
  if (i <? 0)%Z then None else arr !! Z.to_nat i.

(** [Array.from (new Set (xs))]: the distinct elements, in order of first
    occurrence. *)
Fixpoint distinct (seen xs : list string) : list string :=
  match xs with
  | [] => []
  | x :: xs' =>
      if bool_decide (x ∈ seen) then distinct seen xs'
      else x :: distinct (x :: seen) xs'
  end.

(** [x || d] on an optional string: [undefined] and the empty string are
    falsy. *)
Definition or_else (x : option string) (d : string) : string :=
  match x with
  | Some s => if bool_decide (s = "") then d else s
  | None => d
  end.

(** A template literal prints [undefined] for a missing value. *)
Definition show_opt (x : option string) : string := default "undefined" x.

(** [s.split (sep).pop ()]: what follows the last separator. *)
Fixpoint last_segment (sep : ascii) (acc s : string) : string :=
  match s with
  | EmptyString => acc
  | String c s' =>
      if bool_decide (c = sep) then last_segment sep "" s'
      else last_segment sep (acc +:+ String c "") s'
  end.

Fixpoint replicate_char (n : nat) (c : ascii) : string :=
  match n with O => "" | S n' => String c (replicate_char n' c) end.

(** [s.padStart (n, c)] for a one-character pad. *)
Definition padStart (n : nat) (c : ascii) (s : string) : string :=
  replicate_char (n - String.length s) c +:+ s.

(** [xs.join (sep)]. *)
Fixpoint join (sep : string) (xs : list string) : string :=
  match xs with
  | [] => ""
  | [x] => x
  | x :: xs' => x +:+ sep +:+ join sep xs'
  end.

Definition show_threat (t : ThreatLevel) : string :=
  match t with
  | LOW => "LOW" | MEDIUM => "MEDIUM" | HIGH => "HIGH" | CRITICAL => "CRITICAL"
  end.

Definition show_status (s : NvrStatus) : string :=
  match s with
  | ONLINE => "ONLINE" | OFFLINE => "OFFLINE" | AUTH_FAILURE => "AUTH_FAILURE"
  end.

(** ** App.tsx: the simulation tick *)

Inductive ChangeType := REPAIR | FAILURE | NVR_FAILURE.

#[export] Instance ChangeType_eq_dec : EqDecision ChangeType.
Proof. solve_decision. Defined.

(** The entries of the local array [changes]:
    [{ type, camera?, nvrId?, message? }]. *)
Record Change := mkChange {
  ch_type : ChangeType;
  ch_camera : option Camera;
  ch_nvrId : option string;
  ch_message : option string
}.

(** The two locals that the per-camera callback of the tick assigns. *)
Record Locals := mkLocals {
  updatesOccurred : bool;
  changes : list Change
}.

(** The predicate of [nextFaults.some (...)] and of the two
    [f.cameraId === id && f.timeOn === undefined] tests. *)
Definition isOpenFor (cameraId : string) (f : FaultRecord) : bool :=
  bool_decide (f_cameraId f = cameraId) && bool_decide (timeOn f = None).

(** [f => (f.cameraId === id && f.timeOn === undefined)
           ? { ...f, timeOn: now } : f] *)
Definition closeFault (cameraId : string) (now : Z) (f : FaultRecord) : FaultRecord :=
  if isOpenFor cameraId f then withTimeOn f now else f.

Section Handlers.

Variable o : Oracle.

Definition mathRandom : M Q := λ w,
  (random o (rpos w),
   mkWorld (cameras w) (nvrs w) (faults w) (alerts w) (toasts w)
     (liveCameraIds w) (S (rpos w)) (ipos w)).

Definition generateId : M string := λ w,
  (freshId o (ipos w),
   mkWorld (cameras w) (nvrs w) (faults w) (alerts w) (toasts w)
     (liveCameraIds w) (rpos w) (S (ipos w))).

Definition addToast (type : ToastType) (title message : string) (duration : Z)
  : M unit :=
  id ← generateId;
  setToasts (λ prev, prev ++ [mkToast id type title message duration]).

(** The record pushed by the three [nextFaults.push ({...})]. *)
Definition openFault (cam : Camera) (now : Z) : M FaultRecord :=
  id ← generateId;
  mret (mkFault id (cam_id cam) (cam_name cam) (cam_location cam)
          (cam_nvrId cam) now None false).

(** *** NVR failure simulation (the first [if] of the updater)

    The result is [Some] of what the updater returns from inside the branch
    (together with the array [changes] at that point), and [None] when
    control falls through to the per-camera roll. *)
Definition nvrFailure (now : Z) (prevCameras : list Camera)
  : M (option (list Camera * list Change)) :=
  let nvrIds := distinct [] (cam_nvrId <$> prevCameras) in
  r ← mathRandom;
  if lt r (2 # 1000) then
    r' ← mathRandom;
    let targetNvr :=
      at_index nvrIds (Qfloor (r' * inject_Z (Z.of_nat (length nvrIds)))) in
    let nvrCameras :=
      filter (λ c, Some (cam_nvrId c) = targetNvr) prevCameras in
    let isAlreadyDown := forallb (λ c, negb (isOnline c)) nvrCameras in
    if negb isAlreadyDown then
      let changes :=
        [mkChange NVR_FAILURE None targetNvr
           (Some ("NVR Network Unreachable: " +:+ show_opt targetNvr))] in
      updateNvrs (fmap (λ n, if bool_decide (Some (nvr_id n) = targetNvr)
                             then withNvrStatus n OFFLINE else n));;
      addToast ToastCritical "Infrastructure Failure"
        ("Critical connection loss to " +:+ show_opt targetNvr
           +:+ ". Technician dispatch recommended.") 8000;;
      mret (Some
        ((λ c, if bool_decide (Some (cam_nvrId c) = targetNvr)
               then withStatus c false false now else c) <$> prevCameras,
         changes))
    else mret None
  else mret None.

(** *** Per-camera roll (the callback of [prevCameras.map]) *)
Definition rollCamera (now : Z) (nvrs0 : list NvrDevice) (cam : Camera)
    (loc : Locals) : M (Camera * Locals) :=
  roll ← mathRandom;
  if negb (isOnline cam) && lt roll (20 # 100) then
    let parentNvr :=
      find (λ n, bool_decide (nvr_id n = cam_nvrId cam)) nvrs0 in
    let repair : M (Camera * Locals) :=
      let updatedCam := withStatus cam true true now in
      mret (updatedCam,
            mkLocals true
              (changes loc ++ [mkChange REPAIR (Some updatedCam) None None])) in
    if bool_decide (nvr_status <$> parentNvr = Some OFFLINE) then
      r ← mathRandom;
      if lt (1 # 2) r then mret (cam, loc)
      else
        updateNvrs (fmap (λ n, if bool_decide (nvr_id n = cam_nvrId cam)
                               then withNvrStatus n ONLINE else n));;
        repair
    else repair
  else if isOnline cam && lt roll (5 # 1000) then
    let updatedCam := withStatus cam false false now in
    mret (updatedCam,
          mkLocals true
            (changes loc ++ [mkChange FAILURE (Some updatedCam) None None]))
  else mret (cam, loc).

Fixpoint rollCameras (now : Z) (nvrs0 : list NvrDevice) (cams : list Camera)
    (loc : Locals) : M (list Camera * Locals) :=
  match cams with
  | [] => mret ([], loc)
  | cam :: rest =>
      '(cam', loc') ← rollCamera now nvrs0 cam loc;
      '(rest', loc'') ← rollCameras now nvrs0 rest loc';
      mret (cam' :: rest', loc'')
  end.

(** *** Sync faults (the updater passed to [updateFaults]) *)

(** [relevantCams.forEach (cam => { if (!hasOpenFault) nextFaults.push (...) })] *)
Fixpoint openMissing (now : Z) (relevantCams : list Camera)
    (nextFaults : list FaultRecord) : M (list FaultRecord) :=
  match relevantCams with
  | [] => mret nextFaults
  | cam :: rest =>
      let hasOpenFault := existsb (isOpenFor (cam_id cam)) nextFaults in
      if negb hasOpenFault then
        f ← openFault cam now;
        openMissing now rest (nextFaults ++ [f])
      else openMissing now rest nextFaults
  end.

(** [changes.filter (c => c.type === 'NVR_FAILURE').forEach (...)] *)
Fixpoint nvrFailureFaults (now : Z) (prevCameras : list Camera)
    (nvrChanges : list Change) (nextFaults : list FaultRecord)
  : M (list FaultRecord) :=
  match nvrChanges with
  | [] => mret nextFaults
  | change :: rest =>
      let relevantCams :=
        filter (λ c, Some (cam_nvrId c) = ch_nvrId change) prevCameras in
      nextFaults' ← openMissing now relevantCams nextFaults;
      nvrFailureFaults now prevCameras rest nextFaults'
  end.

(** The body of [changes.forEach (change => ...)]. *)
Definition faultStep (now : Z) (change : Change) (nextFaults : list FaultRecord)
  : M (list FaultRecord) :=
  match ch_type change, ch_camera change with
  | REPAIR, Some camera =>
      mret (closeFault (cam_id camera) now <$> nextFaults)
  | FAILURE, Some camera =>
      f ← openFault camera now;
      mret (nextFaults ++ [f])
  | _, _ => mret nextFaults
  end.

Fixpoint faultSteps (now : Z) (chs : list Change) (nextFaults : list FaultRecord)
  : M (list FaultRecord) :=
  match chs with
  | [] => mret nextFaults
  | change :: rest =>
      nextFaults' ← faultStep now change nextFaults;
      faultSteps now rest nextFaults'
  end.

Definition syncFaults (now : Z) (prevCameras : list Camera) (chs : list Change)
  : M unit :=
  w ← get;
  let prevFaults := faults w in
  nextFaults ← nvrFailureFaults now prevCameras
                  (filter (λ c, ch_type c = NVR_FAILURE) chs) prevFaults;
  nextFaults' ← faultSteps now chs nextFaults;
  updateFaults (λ _, nextFaults').

(** *** Sync alerts (the updater passed to [updateAlerts]) *)

Fixpoint nvrFailureAlerts (now : Z) (nvrChanges : list Change)
  : M (list Alert) :=
  match nvrChanges with
  | [] => mret []
  | c :: rest =>
      id ← generateId;
      more ← nvrFailureAlerts now rest;
      mret (mkAlert id "SYSTEM" (or_else (ch_nvrId c) "System") now
              (or_else (ch_message c) "Network Failure") SevCRITICAL None
            :: more)
  end.

Fixpoint failureAlerts (now : Z) (failureChanges : list Change)
  : M (list Alert) :=
  match failureChanges with
  | [] => mret []
  | c :: rest =>
      match ch_camera c with
      | Some camera =>
          id ← generateId;
          more ← failureAlerts now rest;
          mret (mkAlert id (cam_id camera) (cam_name camera) now
                  ("Connection lost with " +:+ cam_nvrId camera
                     +:+ ". Signal unavailable.") SevWARNING None
                :: more)
      | None => failureAlerts now rest
      end
  end.

Definition syncAlerts (now : Z) (chs : list Change) : M unit :=
  a1 ← nvrFailureAlerts now (filter (λ c, ch_type c = NVR_FAILURE) chs);
  a2 ← failureAlerts now
         (filter (λ c, ch_type c = FAILURE ∧ is_Some (ch_camera c)) chs);
  let newAlerts := a1 ++ a2 in
  updateAlerts (λ prevAlerts, newAlerts ++ prevAlerts).

(** *** The updater passed to [updateCameras] by the interval callback

    [nvrs0] is the array [nvrs] captured by the effect (its dependency list
    contains [nvrs], so this is the value of the state when the tick starts).
    The second component of the result is the local array [changes] when the
    updater returns. *)
Definition tickUpdater (now : Z) (nvrs0 : list NvrDevice)
    (prevCameras : list Camera) : M (list Camera * list Change) :=
  early ← nvrFailure now prevCameras;
  match early with
  | Some result => mret result
  | None =>
      '(nextCameras, loc) ← rollCameras now nvrs0 prevCameras (mkLocals false []);
      if updatesOccurred loc then
        let failures := filter (λ c, ch_type c = FAILURE) (changes loc) in
        match failures with
        | [] => mret tt
        | [f] =>
            match ch_camera f with
            | Some camera =>
                addToast ToastWarning "Signal Lost"
                  ("Video feed interrupted: " +:+ cam_name camera) 5000
            | None =>
                addToast ToastWarning "Multiple Signals Lost"
                  (pretty (length failures) +:+ " cameras have gone offline.")
                  5000
            end
        | _ =>
            addToast ToastWarning "Multiple Signals Lost"
              (pretty (length failures) +:+ " cameras have gone offline.") 5000
        end;;
        syncFaults now prevCameras (changes loc);;
        syncAlerts now (changes loc);;
        mret (nextCameras, changes loc)
      else mret (prevCameras, changes loc)
  end.

(** One run of the interval callback; the result is the array [changes]
    of that run (the transition events of the tick). *)
Definition tick (now : Z) : M (list Change) :=
  w ← get;
  '(updated, chs) ← tickUpdater now (nvrs w) (cameras w);
  updateCameras (λ _, updated);;
  mret chs.

(** *** The user-triggered handlers *)

Definition findCamera (cameraId : string) (cams : list Camera) : option Camera :=
  find (λ c, bool_decide (cam_id c = cameraId)) cams.

Definition handleAnalysisResult (now : Z) (cameraId : string)
    (result : AnalysisResult) (frame : string) : M unit :=
  w ← get;
  let cameras := cameras w in            (* the array of the current render *)
  updateCameras (fmap (λ cam, if bool_decide (cam_id cam = cameraId)
                              then withAnalysis cam result now else cam));;
  match ar_threatLevel result with
  | CRITICAL =>
      addToast ToastCritical "CRITICAL THREAT DETECTED"
        (ar_summary result +:+ ". Location: "
           +:+ show_opt (cam_location <$> findCamera cameraId cameras)) 10000
  | HIGH =>
      addToast ToastWarning "High Threat Detected"
        ("Suspicious activity on "
           +:+ show_opt (cam_name <$> findCamera cameraId cameras) +:+ ".") 5000
  | _ => mret tt
  end;;
  if bool_decide (ar_threatLevel result ∈ [HIGH; CRITICAL])
     || bool_decide (0 < length (ar_anomalies result))%nat
  then
    id ← generateId;
    updateAlerts (λ prev,
      mkAlert id cameraId
        (or_else (cam_name <$> findCamera cameraId cameras) "Unknown")
        now
        (show_threat (ar_threatLevel result) +:+ ": "
           +:+ or_else (Some (join ", " (ar_anomalies result)))
                 "Suspicious activity")
        (if bool_decide (ar_threatLevel result = CRITICAL)
         then SevCRITICAL else SevWARNING)
        (Some frame)
      :: prev)
  else mret tt.

Definition handleReconnect (now : Z) (cameraId : string) : M unit :=
  w ← get;
  let cam := findCamera cameraId (cameras w) in
  updateCameras (fmap (λ c, if bool_decide (cam_id c = cameraId)
                            then withStatus c true true now else c));;
  updateFaults (fmap (closeFault cameraId now));;
  updateAlerts (filter (λ a, a_cameraId a ≠ cameraId));;
  addToast ToastSuccess "Connection Restored"
    ("Signal recovered for " +:+ or_else (cam_name <$> cam) cameraId) 5000.

(** [deleteNvrId] is the state variable of the confirmation dialog
    ([string | null]); [null] and the empty string are falsy. *)
Definition executeDeleteNvr (now : Z) (deleteNvrId : option string) : M unit :=
  match deleteNvrId with
  | None => mret tt
  | Some id =>
      if bool_decide (id = "") then mret tt
      else
        w ← get;
        (* 1. Remove NVR *)
        updateNvrs (filter (λ n, nvr_id n ≠ id));;
        (* 2. Remove Cameras *)
        updateCameras (filter (λ c, cam_nvrId c ≠ id));;
        (* 3. Remove from Live View *)
        let camerasToRemove :=
          cam_id <$> filter (λ c, cam_nvrId c = id) (cameras w) in
        setLiveCameraIds (filter (λ i, i ∉ camerasToRemove));;
        aid ← generateId;
        updateAlerts (λ prev,
          mkAlert aid "SYSTEM" "System" now
            ("NVR Deleted: " +:+ id +:+ ". All associated devices removed.")
            SevINFO None
          :: prev);;
        addToast ToastInfo "Device Removed"
          ("NVR " +:+ id +:+ " and associated cameras deleted.") 5000
  end.

Record NvrForm := mkNvrForm {
  form_name : string;
  form_ip : string;
  form_port : string;
  form_username : string;
  form_password : string;
  form_protocol : string
}.

(** The eight cameras generated for a new NVR, [i = k .. 8]. *)
Fixpoint generateCameras (now : Z) (form : NvrForm) (newNvrId : string)
    (isSuccess : bool) (count : nat) (i : Z) : M (list Camera) :=
  match count with
  | O => mret []
  | S count' =>
      id ← generateId;
      rest ← generateCameras now form newNvrId isSuccess count' (i + 1);
      mret (mkCamera ("cam-" +:+ id)
              ("CAM-" +:+ padStart 2 "0" (pretty i))
              (if bool_decide (form_name form = "")
               then "External IP " +:+ form_ip form else form_name form)
              newNvrId SIMULATED
              (Some ("https://picsum.photos/800/600?random=" +:+ pretty (now + i)))
              isSuccess isSuccess now None now
            :: rest)
  end.

Fixpoint openFaults (now : Z) (cams : list Camera) : M (list FaultRecord) :=
  match cams with
  | [] => mret []
  | cam :: rest =>
      f ← openFault cam now;
      more ← openFaults now rest;
      mret (f :: more)
  end.

(** The branch [--- UPDATE EXISTING NVR ---] of [handleSaveNvr]. *)
Definition updateExistingNvr (now : Z) (nvrForm : NvrForm) (editing : string)
    (isSuccess : bool) (initialStatus : NvrStatus) : M unit :=
  updateNvrs (fmap (λ n,
    if bool_decide (nvr_id n = editing) then
      mkNvr (nvr_id n)
        (if bool_decide (form_name nvrForm = "") then nvr_name n
         else form_name nvrForm)
        (form_ip nvrForm) (form_port nvrForm) (form_username nvrForm)
        (Some (form_password nvrForm)) (form_protocol nvrForm)
        initialStatus (nvr_addedAt n)
    else n));;
  (* If credentials/ip changed and failed, offline the cameras *)
  (if negb isSuccess then
     updateCameras (fmap (λ c, if bool_decide (cam_nvrId c = editing)
                               then withOnline c false else c))
   else
     (* Re-online cameras if successful *)
     updateCameras (fmap (λ c, if bool_decide (cam_nvrId c = editing)
                               then withOnline c true else c)));;
  aid ← generateId;
  updateAlerts (λ prev,
    mkAlert aid "SYSTEM" "System" now
      ("NVR Configuration Updated: " +:+ editing +:+ ". Status: "
         +:+ show_status initialStatus)
      (if isSuccess then SevINFO else SevWARNING) None
    :: prev);;
  addToast (if isSuccess then ToastSuccess else ToastWarning)
    "Configuration Saved"
    ("NVR " +:+ editing +:+ " updated. Status: " +:+ show_status initialStatus)
    5000.

(** The branch [--- ADD NEW NVR ---] of [handleSaveNvr]. *)
Definition addNewNvr (now : Z) (nvrForm : NvrForm)
    (isSuccess : bool) (initialStatus : NvrStatus) : M unit :=
  let seg := last_segment "." "" (form_ip nvrForm) in
  ipSegment ← (if bool_decide (seg = "")
               then r ← mathRandom; mret (pretty (Qfloor (r * 100)))
               else mret seg);
  let newNvrId := "NVR-" +:+ padStart 3 "0" ipSegment in
  let newNvr :=
    mkNvr newNvrId
      (if bool_decide (form_name nvrForm = "") then "New NVR " +:+ newNvrId
       else form_name nvrForm)
      (form_ip nvrForm) (form_port nvrForm) (form_username nvrForm)
      (Some (form_password nvrForm)) (form_protocol nvrForm)
      initialStatus now in
  updateNvrs (λ prev, prev ++ [newNvr]);;
  (* Generate Cameras *)
  newCameras ← generateCameras now nvrForm newNvrId isSuccess 8 1;
  updateCameras (λ prev, prev ++ newCameras);;
  (if negb isSuccess then
     newFaults ← openFaults now newCameras;
     updateFaults (λ prev, prev ++ newFaults)
   else mret tt);;
  aid ← generateId;
  updateAlerts (λ prev,
    mkAlert aid "SYSTEM" "System" now
      (if isSuccess then "NVR Added: " +:+ newNvrId
       else "NVR Added with Error: " +:+ newNvrId)
      (if isSuccess then SevINFO else SevCRITICAL) None
    :: prev);;
  addToast (if isSuccess then ToastSuccess else ToastError)
    (if isSuccess then "NVR Added" else "Connection Failed")
    (if isSuccess then "Device " +:+ newNvrId +:+ " connected with 8 channels."
     else "Device added but unreachable. Check network.")
    5000.

(** [isEditingNvr] is the state variable of the form ([string | null]; [null]
    and the empty string are falsy).  The body of the [setTimeout] callback is
    run at once: [now] is the time at which the timer fires. *)
Definition handleSaveNvr (now : Z) (nvrForm : NvrForm)
    (isEditingNvr : option string) : M unit :=
  if bool_decide (form_ip nvrForm = "")
     || bool_decide (form_username nvrForm = "")
     || bool_decide (form_password nvrForm = "")
  then addToast ToastError "Form Error"
         "Please fill in IP, Username, and Password." 5000
  else
    (* Credentials Check *)
    let isValidAuth :=
      bool_decide (form_username nvrForm = "admin")
      && bool_decide (form_password nvrForm = "12345") in
    r ← mathRandom;
    let isNetworkReachable := lt (1 # 10) r in
    let isSuccess := isValidAuth && isNetworkReachable in
    let initialStatus :=
      if isSuccess then ONLINE
      else if negb isNetworkReachable then OFFLINE else AUTH_FAILURE in
    match isEditingNvr with
    | Some editing =>
        if bool_decide (editing = "")
        then addNewNvr now nvrForm isSuccess initialStatus
        else updateExistingNvr now nvrForm editing isSuccess initialStatus
    | None => addNewNvr now nvrForm isSuccess initialStatus
    end.

(** *** Sequences of operations *)

Inductive Action :=
  | Tick (now : Z)
  | Reconnect (now : Z) (cameraId : string)
  | DeleteNvr (now : Z) (deleteNvrId : option string)
  | SaveNvr (now : Z) (nvrForm : NvrForm) (isEditingNvr : option string)
  | Analysis (now : Z) (cameraId : string) (result : AnalysisResult)
      (frame : string).

Definition perform (a : Action) : M unit :=
  match a with
  | Tick now => tick now;; mret tt
  | Reconnect now cameraId => handleReconnect now cameraId
  | DeleteNvr now deleteNvrId => executeDeleteNvr now deleteNvrId
  | SaveNvr now nvrForm isEditingNvr => handleSaveNvr now nvrForm isEditingNvr
  | Analysis now cameraId result frame =>
      handleAnalysisResult now cameraId result frame
  end.

Fixpoint run (actions : list Action) (w : World) : World :=
  match actions with
  | [] => w
  | a :: rest => run rest (exec (perform a) w)
  end.

End Handlers.

(** ** services/geminiService.ts *)

(** What awaiting [ai.models.generateContent (...)] gives: a response with
    its [text] (possibly missing), or a thrown error with its message. *)
Inductive RemoteOutcome :=
  | Responded (text : option string)
  | Threw (errorMessage : string).

(** The object [data] that [JSON.parse (text)] gives for a response that
    follows [ANALYSIS_SCHEMA]; a response may carry a [timestamp] of its own,
    which the spread [{ timestamp, ...data }] then keeps. *)
Record AnalysisData := mkAnalysisData {
  d_timestamp : option string;
  d_summary : string;
  d_personCount : Z;
  d_threatLevel : ThreatLevel;
  d_detectedObjects : list string;
  d_anomalies : list string
}.

(** [hay.includes (needle)] for a non-empty [needle]. *)
Definition includes (needle hay : string) : bool :=
  bool_decide (is_Some (String.index 0 needle hay)).

Definition strip_prefix (pre s : string) : option string :=
  if String.prefix pre s
  then Some (String.substring (String.length pre)
               (String.length s - String.length pre) s)
  else None.

(** [base64Image.replace (/^data:image\/(png|jpeg|webp);base64,/, "")] *)
Definition cleanBase64 (base64Image : string) : string :=
  match strip_prefix "data:image/png;base64," base64Image with
  | Some s => s
  | None =>
      match strip_prefix "data:image/jpeg;base64," base64Image with
      | Some s => s
      | None =>
          match strip_prefix "data:image/webp;base64," base64Image with
          | Some s => s
          | None => base64Image
          end
      end
  end.

Section Gemini.

(** [apiKey]: the result of [getApiKey ()], [undefined] when no key is
    configured. *)
Variable apiKey : option string.
(** The remote call on the cleaned frame, and [JSON.parse] of its text (the
    message of the [SyntaxError] when the text is not JSON). *)
Variable generateContent : string → RemoteOutcome.
Variable parseResponse : string → AnalysisData + string.

Definition fallback (nowIso summary anomaly : string) : AnalysisResult :=
  mkAnalysis nowIso summary 0 LOW [] [anomaly].

(** The [catch (error)] block. *)
Definition onError (nowIso errorMessage : string) : AnalysisResult :=
  if includes "429" errorMessage || includes "RESOURCE_EXHAUSTED" errorMessage
     || includes "quota" errorMessage
  then fallback nowIso "Service busy (Quota). Retrying..." "Rate Limit Reached"
  else fallback nowIso "Analysis failed due to API error." "System Error".

(** [nowIso] is [new Date ().toISOString ()]. *)
Definition analyzeFrame (nowIso : string) (base64Image : string) : AnalysisResult :=
  if bool_decide (or_else apiKey "" = "") then
    fallback nowIso "API Key Missing. Please check your .env file."
      "Configuration Error"
  else
    match generateContent (cleanBase64 base64Image) with
    | Threw errorMessage => onError nowIso errorMessage
    | Responded text =>
        if bool_decide (or_else text "" = "")
        then onError nowIso "No response from Gemini"
        else
          match parseResponse (or_else text "") with
          | inr errorMessage => onError nowIso errorMessage
          | inl data =>
              mkAnalysis (default nowIso (d_timestamp data)) (d_summary data)
                (d_personCount data) (d_threatLevel data)
                (d_detectedObjects data) (d_anomalies data)
          end
    end.

End Gemini.

(** ** services/databaseService.ts *)

(** A JavaScript number is a double.  The store does no arithmetic on the
    values it keeps.  What it observes of a number is whether it is finite
    ([Infinity], [-Infinity] and [NaN] are not, and [JSON.stringify] prints
    them as [null]), whether it counts as true ([0], [-0] and [NaN] do not),
    and the number that its text denotes: the number itself, except that
    [-0] is printed as [0].  These observations are the interface through
    which the numbers of the runtime enter the model. *)
Class JsNumber := {
  number : Type;
  isFinite : number → bool;
  toBoolean : number → bool;
  printed : number → number;
  isFinite_printed : ∀ n, isFinite (printed n) = isFinite n;
  toBoolean_printed : ∀ n, toBoolean (printed n) = toBoolean n;
  printed_printed : ∀ n, printed (printed n) = printed n
}.

(** JSON values. *)
#[warnings="-register-all"]
Inductive json `{JsNumber} :=
  | JNull
  | JBool (b : bool)
  | JNum (n : number)
  | JStr (s : string)
  | JArr (items : list json)
  | JObj (fields : list (string * json)).

(** The value that the text of [v] denotes, that is, what [JSON.parse] reads
    from what [JSON.stringify] prints for [v]: the value itself, with [null]
    in the place of every number that is not finite (and [0] in the place
    of [-0]). *)
Fixpoint written `{JsNumber} (v : json) : json :=
  match v with
  | JNum n => if isFinite n then JNum (printed n) else JNull
  | JArr items => JArr (map written items)
  | JObj fields => JObj (map (λ kv, (fst kv, written (snd kv))) fields)
  | _ => v
  end.

(** [JSON.stringify (v)], [JSON.stringify (v, null, indent)] and [JSON.parse]
    belong to the JavaScript runtime.  They enter the model through their
    contract: parsing what was printed for [v] gives [written v], the empty
    string is not JSON, and ["[]"] is the empty array.  [parse] gives [None]
    where [JSON.parse] throws.  Nothing is assumed of the value that [parse]
    gives for a text that was not printed: the text [1e999] is read as
    [Infinity]. *)
Class JsonCodec `{JsNumber} := {
  stringify : json → string;
  stringify_indent : nat → json → string;
  parse : string → option json;
  parse_stringify : ∀ v, parse (stringify v) = Some (written v);
  parse_stringify_indent : ∀ n v, parse (stringify_indent n v) = Some (written v);
  parse_empty : parse "" = None;
  parse_empty_array : parse "[]" = Some (JArr [])
}.

(** [v.k] on a parsed value: [None] is [undefined].  (On [null] the access
    throws; see [restoreBackup].)  When a key is repeated the last binding is
    the one an object keeps. *)
Fixpoint lookup_field `{JsNumber} (k : string) (fields : list (string * json))
  : option json :=
  match fields with
  | [] => None
  | (k', v) :: rest =>
      match lookup_field k rest with
      | Some v' => Some v'
      | None => if bool_decide (k' = k) then Some v else None
      end
  end.

Definition prop `{JsNumber} (k : string) (v : json) : option json :=
  match v with
  | JObj fields => lookup_field k fields
  | _ => None
  end.

Definition truthy `{JsNumber} (v : option json) : bool :=
  match v with
  | None | Some JNull => false
  | Some (JBool b) => b
  | Some (JNum n) => toBoolean n
  | Some (JStr s) => negb (bool_decide (s = ""))
  | Some (JArr _) | Some (JObj _) => true
  end.

Definition isArray `{JsNumber} (v : option json) : bool :=
  match v with Some (JArr _) => true | _ => false end.

(** Storage keys *)
Module KEYS.
Definition CAMERAS := "sentinel_cameras".
Definition NVRS := "sentinel_nvrs".
Definition USERS := "sentinel_users".
Definition ALERTS := "sentinel_alerts".
Definition FAULTS := "sentinel_faults".
Definition INIT := "sentinel_initialized".
End KEYS.

(** What [db.getData ()] returns (the casts [as Camera[]] check nothing). *)
Record Data `{JsNumber} := mkData {
  data_cameras : json;
  data_nvrs : json;
  data_users : json;
  data_alerts : json;
  data_faults : json
}.

Arguments mkData {_} _ _ _ _ _.

Section Db.

Context `{JsNumber} `{!JsonCodec}.

(** [localStorage]: strings under string keys. *)
Implicit Type ls : gmap string string.

(** [JSON.parse (localStorage.getItem (key) || '[]')] *)
Definition readCollection (key : string) ls : option json :=
  parse (or_else (ls !! key) "[]").

Definition getData ls : option Data :=
  cameras ← readCollection KEYS.CAMERAS ls;
  nvrs ← readCollection KEYS.NVRS ls;
  users ← readCollection KEYS.USERS ls;
  alerts ← readCollection KEYS.ALERTS ls;
  faults ← readCollection KEYS.FAULTS ls;
  Some (mkData cameras nvrs users alerts faults).

(** The save operations are given arrays ([Camera[]], ...): the argument is
    the list of the items. *)
Definition saveCameras (cameras : list json) ls : gmap string string :=
  <[KEYS.CAMERAS := stringify (JArr cameras)]> ls.
Definition saveNvrs (nvrs : list json) ls : gmap string string :=
  <[KEYS.NVRS := stringify (JArr nvrs)]> ls.
Definition saveUsers (users : list json) ls : gmap string string :=
  <[KEYS.USERS := stringify (JArr users)]> ls.
Definition saveAlerts (alerts : list json) ls : gmap string string :=
  <[KEYS.ALERTS := stringify (JArr alerts)]> ls.
Definition saveFaults (faults : list json) ls : gmap string string :=
  <[KEYS.FAULTS := stringify (JArr faults)]> ls.

(** [db.initialize]: seeds the store unless it is marked initialised.  The
    seed (the random system of [generateInitialSystem], [INITIAL_USERS], and
    the faults and alerts derived from the seeded offline cameras) is a
    parameter: five arrays. *)
Definition initialize (seed : list json * list json * list json
                              * list json * list json) ls
  : gmap string string :=
  let '(cameras, nvrs, users, faults, alerts) := seed in
  if bool_decide (or_else (ls !! KEYS.INIT) "" = "") then
    <[KEYS.INIT := "true"]>
      (<[KEYS.ALERTS := stringify (JArr alerts)]>
      (<[KEYS.FAULTS := stringify (JArr faults)]>
      (<[KEYS.USERS := stringify (JArr users)]>
      (<[KEYS.NVRS := stringify (JArr nvrs)]>
      (<[KEYS.CAMERAS := stringify (JArr cameras)]> ls)))))
  else ls.

(** [localStorage.clear ()] of [db.reset]. *)
Definition reset : gmap string string := ∅.


(** [data.k || []] *)
Definition or_empty (v : option json) : json :=
  if truthy v then default (JArr []) v else JArr [].

(** The result is what [restoreBackup] returns, with the storage it leaves.
    Everything that throws inside the [try] (a syntax error, the property
    access on [null], the two validation errors) ends in [return false]
    before the first [setItem]. *)
Definition restoreBackup (jsonString : string) ls : bool * gmap string string :=
  match parse jsonString with
  | None => (false, ls)
  | Some JNull => (false, ls)
  | Some data =>
      let cameras := prop "cameras" data in
      let nvrs := prop "nvrs" data in
      if negb (truthy cameras) || negb (isArray cameras) then (false, ls)
      else if negb (truthy nvrs) || negb (isArray nvrs) then (false, ls)
      else
        (true,
         <[KEYS.INIT := "true"]>
           (<[KEYS.FAULTS := stringify (or_empty (prop "faults" data))]>
           (<[KEYS.ALERTS := stringify (or_empty (prop "alerts" data))]>
           (<[KEYS.USERS := stringify (or_empty (prop "users" data))]>
           (<[KEYS.NVRS := stringify (default JNull nvrs)]>
           (<[KEYS.CAMERAS := stringify (default JNull cameras)]> ls))))))
  end.

End Db.

(** ** App.tsx: the live view, discovery and the users *)

Definition MAX_LIVE_CAMERAS : nat := 32.
Definition CAMERAS_PER_PAGE : Z := 32.

(** *** The initial live view (step 3 of the initialisation effect)

    [nvrCounts] is a plain object used as a map from NVR ids to counts.  It
    starts as [{}], which has no property of its own but inherits those of
    [Object.prototype]: under each of the names below, [nvrCounts[k]] reads
    a function (under [__proto__], the prototype object) as long as the loop
    has not written a count there. *)
Definition Object_prototype : list string :=
  ["constructor"; "__defineGetter__"; "__defineSetter__"; "hasOwnProperty";
   "__lookupGetter__"; "__lookupSetter__"; "isPrototypeOf";
   "propertyIsEnumerable"; "toString"; "valueOf"; "__proto__";
   "toLocaleString"].

(** [nvrCounts[k] || 0]: the count written under [k]; without one, [None]
    for an inherited function or object (which is truthy, so [|| 0] leaves
    it) and 0 for a key that is missing altogether. *)
Definition currentCount (nvrCounts : gmap string nat) (k : string)
  : option nat :=
  match nvrCounts !! k with
  | Some n => Some n
  | None => if bool_decide (k ∈ Object_prototype) then None else Some 0%nat
  end.

(** The loop over [data.cameras].  [currentCount < 3] is false when
    [currentCount] is a function or an object (it is compared as [NaN]). *)
Fixpoint selectInitialLive (cams : list Camera) (initialLiveIds : list string)
    (nvrCounts : gmap string nat) : list string :=
  match cams with
  | [] => initialLiveIds
  | cam :: rest =>
      if bool_decide (MAX_LIVE_CAMERAS ≤ length initialLiveIds)%nat
      then initialLiveIds                                   (* break *)
      else
        match currentCount nvrCounts (cam_nvrId cam) with
        | Some count =>
            if bool_decide (count < 3)%nat then
              selectInitialLive rest (initialLiveIds ++ [cam_id cam])
                (<[cam_nvrId cam := (count + 1)%nat]> nvrCounts)
            else selectInitialLive rest initialLiveIds nvrCounts
        | None => selectInitialLive rest initialLiveIds nvrCounts
        end
  end.

Definition initialLiveIds (cams : list Camera) : list string :=
  selectInitialLive cams [] ∅.

(** *** Derived state *)

(** [cameras.filter (c => liveCameraIds.includes (c.id))] *)
Definition liveCameras (w : World) : list Camera :=
  filter (λ c, cam_id c ∈ liveCameraIds w) (cameras w).

(** [availableCameras] for an empty search box:
    [cameras.filter (c => !liveCameraIds.includes (c.id))] (the second filter
    keeps every camera when [addModalSearch === '']). *)
Definition availableCameras (w : World) : list Camera :=
  filter (λ c, cam_id c ∉ liveCameraIds w) (cameras w).

(** [arr.slice (start, end)] for integer arguments: a negative index counts
    from the end, and indices are clamped to the array. *)
Definition slice {A} (arr : list A) (start stop : Z) : list A :=
  let len := Z.of_nat (length arr) in
  let clamp (i : Z) : Z :=
    if (i <? 0)%Z then Z.max (len + i) 0 else Z.min i len in
  let from := clamp start in
  let upto := clamp stop in
  take (Z.to_nat (upto - from)) (drop (Z.to_nat from) arr).

Definition paginatedCameras (currentPage : Z) (w : World) : list Camera :=
  let startIndex := ((currentPage - 1) * CAMERAS_PER_PAGE)%Z in
  slice (liveCameras w) startIndex (startIndex + CAMERAS_PER_PAGE).

(** [Math.ceil (liveCameras.length / CAMERAS_PER_PAGE) || 1] *)
Definition totalPages (w : World) : Z :=
  let pages :=
    Qceiling (inject_Z (Z.of_nat (length (liveCameras w)))
              / inject_Z CAMERAS_PER_PAGE) in
  if (pages =? 0)%Z then 1 else pages.

Section LiveView.

Variable o : Oracle.

(** [alert ("Maximum feeds reached.")] shows a dialog and changes nothing. *)
Definition addWebcam (now : Z) : M unit :=
  w ← get;
  if bool_decide (MAX_LIVE_CAMERAS ≤ length (liveCameraIds w))%nat
  then mret tt
  else
    id ← generateId o;
    let newCam :=
      mkCamera ("cam-" +:+ id)
        ("Local Feed " +:+ pretty (length (cameras w) + 1)%nat)
        "Local Device" "LOCAL" WEBCAM None true true now None now in
    updateCameras (λ prev, newCam :: prev);;
    setLiveCameraIds (λ prev, cam_id newCam :: prev);;
    addToast o ToastSuccess "Webcam Added" "Local video feed is now active."
      5000.

Definition handlePinCamera (cameraId : string) : M unit :=
  w ← get;
  if bool_decide (MAX_LIVE_CAMERAS ≤ length (liveCameraIds w))%nat
  then mret tt
  else
    setLiveCameraIds (λ prev, cameraId :: prev);;
    addToast o ToastInfo "Feed Monitored" "Camera added to live view grid."
      5000.

Definition handleUnpinCamera (cameraId : string) : M unit :=
  setLiveCameraIds (filter (λ id, id ≠ cameraId)).

(** The sixteen cameras of a discovered NVR, [i = k .. 16]. *)
Fixpoint discoverCameras (now : Z) (newNvrId : string) (count : nat) (i : Z)
  : M (list Camera) :=
  match count with
  | O => mret []
  | S count' =>
      id ← generateId o;
      rest ← discoverCameras now newNvrId count' (i + 1);
      mret (mkCamera ("cam-" +:+ id)
              ("AUTO-CAM-" +:+ padStart 2 "0" (pretty i))
              "New Extension" newNvrId SIMULATED
              (Some ("https://picsum.photos/800/600?random=" +:+ pretty (now + i)))
              true true now None now
            :: rest)
  end.

(** The body of the [setTimeout] callback of [simulateNetworkDiscovery], run
    at once; [nvrs] is the array of the render in which the scan started. *)
Definition simulateNetworkDiscovery (now : Z) : M unit :=
  w ← get;
  let nvrs := nvrs w in
  let newIdNum := padStart 2 "0" (pretty (length nvrs + 1)%nat) in
  let newNvrId := "NVR-" +:+ newIdNum in
  let newNvr :=
    mkNvr newNvrId ("Auto-Discovered NVR " +:+ newIdNum)
      ("192.168.1." +:+ pretty (100 + length nvrs)%nat) "8000" "admin"
      (Some "password123") "ONVIF" ONLINE now in
  updateNvrs (λ prev, prev ++ [newNvr]);;
  newCameras ← discoverCameras now newNvrId 16 1;
  updateCameras (λ prev, prev ++ newCameras);;
  setLiveCameraIds (λ prev,
    let availableSlots := (Z.of_nat MAX_LIVE_CAMERAS - Z.of_nat (length prev))%Z in
    if (0 <? availableSlots)%Z
    then prev ++ (cam_id <$> slice newCameras 0 availableSlots)
    else prev);;
  aid ← generateId o;
  updateAlerts (λ prev,
    mkAlert aid "SYSTEM" "System" now
      ("Network Discovery: Found NVR (" +:+ newNvrId +:+ ") + 16 Cams.")
      SevINFO None
    :: prev);;
  addToast o ToastSuccess "Discovery Complete" "Found 1 NVR and 16 Cameras."
    5000.

End LiveView.

(** *** The NVR dialog: the form and the value of [isEditingNvr] with which
    [openAddNvrModal] and [openEditNvrModal (nvr)] open it. *)

Definition openAddNvrModal : NvrForm * option string :=
  (mkNvrForm "" "" "8000" "admin" "" "ONVIF", None).

Definition openEditNvrModal (nvr : NvrDevice) : NvrForm * option string :=
  (mkNvrForm (nvr_name nvr) (nvr_ip nvr) (nvr_port nvr) (nvr_username nvr)
     (or_else (nvr_password nvr) "") (nvr_protocol nvr),
   Some (nvr_id nvr)).

(** *** User management.  The collection [users] is passed to the handler
    and the updated collection is its result. *)

Inductive Role := ADMIN | OPERATOR | VIEWER.
Inductive UserStatus := ACTIVE | SUSPENDED.

Record User := mkUser {
  u_id : string;
  u_name : string;
  u_email : string;
  u_role : Role;
  u_lastActive : Z;
  u_status : UserStatus
}.

Record UserForm := mkUserForm {
  uf_name : string;
  uf_email : string;
  uf_role : Role
}.

(** [{ ...u, status: u.status === 'ACTIVE' ? 'SUSPENDED' : 'ACTIVE' }] *)
Definition toggleStatus (u : User) : User :=
  mkUser (u_id u) (u_name u) (u_email u) (u_role u) (u_lastActive u)
    (match u_status u with ACTIVE => SUSPENDED | SUSPENDED => ACTIVE end).

(** [{ ...u, ...userForm }] *)
Definition withForm (u : User) (userForm : UserForm) : User :=
  mkUser (u_id u) (uf_name userForm) (uf_email userForm) (uf_role userForm)
    (u_lastActive u) (u_status u).

Section Users.

Variable o : Oracle.

(** [confirmed] is the answer to [confirm ("Are you sure ...")]. *)
Definition handleDeleteUser (confirmed : bool) (userId : string)
    (users : list User) : M (list User) :=
  if confirmed then
    addToast o ToastInfo "User Deleted" "Account removed from system." 5000;;
    mret (filter (λ u, u_id u ≠ userId) users)
  else mret users.

Definition toggleUserStatus (userId : string) (users : list User)
  : M (list User) :=
  addToast o ToastInfo "Status Updated" "User access status changed." 5000;;
  mret ((λ u, if bool_decide (u_id u = userId) then toggleStatus u else u)
          <$> users).

(** [editingUserId] is the state variable of the form ([string | null]; [null]
    and the empty string are falsy). *)
Definition handleSaveUser (userForm : UserForm) (editingUserId : option string)
    (users : list User) : M (list User) :=
  if bool_decide (uf_name userForm = "") || bool_decide (uf_email userForm = "")
  then
    addToast o ToastError "Validation Error" "Name and Email are required."
      5000;;
    mret users
  else if bool_decide (or_else editingUserId "" = "") then
    id ← generateId o;
    let newUser :=
      mkUser id (uf_name userForm) (uf_email userForm) (uf_role userForm)
        0 ACTIVE in
    addToast o ToastSuccess "User Created" "New user added to the system."
      5000;;
    mret (users ++ [newUser])
  else
    addToast o ToastSuccess "User Updated"
      "Account details saved successfully." 5000;;
    mret ((λ u, if bool_decide (Some (u_id u) = editingUserId)
               then withForm u userForm else u) <$> users).

End Users.

(** ** components/CameraUnit.tsx *)

(** The duration since the last status change, as the camera tile shows it;
    [diff] is [Date.now () - camera.statusChangedAt].  The divisions are
    [Math.floor] of a quotient and [%] is the remainder of JavaScript (sign
    of the dividend). *)
Definition durationString (diff : Z) : string :=
  let days := (diff / (1000 * 60 * 60 * 24))%Z in
  let hours := (Z.rem diff (1000 * 60 * 60 * 24) / (1000 * 60 * 60))%Z in
  let minutes := (Z.rem diff (1000 * 60 * 60) / (1000 * 60))%Z in
  let str := "" in
  let str := if (0 <? days)%Z then str +:+ pretty days +:+ "d " else str in
  let str := if (0 <? hours)%Z then str +:+ pretty hours +:+ "h " else str in
  let str := str +:+ pretty minutes +:+ "m" in
  if bool_decide (str = "") then "< 1m" else str.

Section CameraUnit.

Variable o : Oracle.
Variable apiKey : option string.
Variable generateContent : string → RemoteOutcome.
Variable parseResponse : string → AnalysisData + string.

(** [handleManualAnalyze]: [frame] is the result of [captureFrame ()]
    ([null] when no frame could be captured); the awaited call and the
    callback [onAnalyze] (= [handleAnalysisResult]) are run at once. *)
Definition handleManualAnalyze (now : Z) (nowIso : string)
    (isAnalyzing hasError : bool) (camera : Camera) (frame : option string)
  : M unit :=
  if isAnalyzing || negb (isOnline camera) || hasError then mret tt
  else
    match frame with
    | Some f =>
        if bool_decide (f = "") then mret tt
        else
          handleAnalysisResult o now (cam_id camera)
            (analyzeFrame apiKey generateContent parseResponse nowIso f) f
    | None => mret tt
    end.

End CameraUnit.

(** ** components/AnalyticsDashboard.tsx *)

Definition totalCameras (cams : list Camera) : nat := length cams.
Definition onlineCameras (cams : list Camera) : nat :=
  length (filter (λ c, isOnline c = true) cams).
Definition offlineCameras (cams : list Camera) : nat :=
  length (filter (λ c, isOnline c = false) cams).

(** [new Set (cameras.map (c => c.nvrId)).size] *)
Definition uniqueNVRs (cams : list Camera) : nat :=
  length (distinct [] (cam_nvrId <$> cams)).

(** [arr.sort (cmp)] is a stable sort; this is the stable insertion sort,
    which gives the same array.  [cmp a b > 0] puts [b] first. *)
Fixpoint insertBy {A} (cmp : A → A → Z) (x : A) (sorted : list A) : list A :=
  match sorted with
  | [] => [x]
  | y :: rest =>
      if (0 <? cmp x y)%Z then y :: insertBy cmp x rest else x :: y :: rest
  end.

Fixpoint sortBy {A} (cmp : A → A → Z) (arr : list A) : list A :=
  match arr with
  | [] => []
  | x :: rest => insertBy cmp x (sortBy cmp rest)
  end.

(** [[...faults].sort ((a, b) => b.timeOff - a.timeOff)] *)
Definition faultList (faults : list FaultRecord) : list FaultRecord :=
  sortBy (λ a b, timeOff b - timeOff a)%Z faults.

(** [[...alerts].sort ((a, b) => b.timestamp - a.timestamp)] *)
Definition activeAlerts (alerts : list Alert) : list Alert :=
  sortBy (λ a b, a_timestamp b - a_timestamp a)%Z alerts.

(** [getExactDurationStr (start, end)]; [now] is [Date.now ()], used when
    [end] is [undefined] (or 0). *)
Definition getExactDurationStr (now : Z) (start : Z) (end_ : option Z) : string :=
  let durationMs :=
    ((match end_ with
      | Some e => if (e =? 0)%Z then now else e
      | None => now
      end) - start)%Z in
  let totalSeconds := (durationMs / 1000)%Z in
  let hours := (totalSeconds / 3600)%Z in
  let minutes := (Z.rem totalSeconds 3600 / 60)%Z in
  let seconds := Z.rem totalSeconds 60 in
  padStart 2 "0" (pretty hours) +:+ ":" +:+ padStart 2 "0" (pretty minutes)
    +:+ ":" +:+ padStart 2 "0" (pretty seconds).

(** ** Concrete data for the examples *)

(** An oracle whose first draws are [rs]; later draws are [0.999], under
    which nothing happens.  Identifiers are [id0], [id1], ... *)
Definition oracle_of (rs : list Q) : Oracle :=
  mkOracle (λ n, nth n rs (999 # 1000)) (λ n, "id" +:+ pretty n).

Definition quiet : Oracle := oracle_of [].

Definition camera_of (id nvrId : string) (online : bool) : Camera :=
  mkCamera id ("CAM-" +:+ id) "Warehouse" nvrId SIMULATED None
    online online 0 None 0.

Definition nvr_of (id : string) (s : NvrStatus) : NvrDevice :=
  mkNvr id id "192.168.1.50" "8000" "admin" (Some "password123") "ONVIF" s 0.

Definition fault_of (id cameraId nvrId : string) (off : Z) (on : option Z)
  : FaultRecord :=
  mkFault id cameraId ("CAM-" +:+ cameraId) "Warehouse" nvrId off on false.

Definition alert_of (id cameraId : string) (s : Severity) : Alert :=
  mkAlert id cameraId cameraId 0 "Connection lost" s None.

(** Two NVRs: three online cameras under [NVR-01], one offline camera (with
    its open fault and two alerts) under [NVR-02]. *)
Definition site : World :=
  mkWorld
    [camera_of "c1" "NVR-01" true; camera_of "c2" "NVR-01" true;
     camera_of "c3" "NVR-01" true; camera_of "c4" "NVR-02" false]
    [nvr_of "NVR-01" ONLINE; nvr_of "NVR-02" ONLINE]
    [fault_of "f4" "c4" "NVR-02" 10 None]
    [alert_of "a1" "c4" SevWARNING; alert_of "a2" "SYSTEM" SevINFO;
     alert_of "a3" "c4" SevWARNING; alert_of "a4" "c1" SevWARNING]
    [] ["c1"; "c4"] 0 0.

(** * Vocabulary of the properties *)

(** ** The tick *)

(** The collections that the camera roll cannot touch. *)
Definition roll_frame (w w' : World) : Prop :=
  cameras w' = cameras w ∧ faults w' = faults w ∧ alerts w' = alerts w
  ∧ toasts w' = toasts w ∧ liveCameraIds w' = liveCameraIds w
  ∧ ipos w' = ipos w.

(** What a roll does to the locals: nothing, or it records a transition. *)
Definition roll_step {A} (x x' : A) (loc loc' : Locals) (w w' : World) : Prop :=
  (x' = x ∧ loc' = loc ∧ nvrs w' = nvrs w)
  ∨ (updatesOccurred loc' = true
     ∧ ∃ ch rest, changes loc' = changes loc ++ ch :: rest).

(** The transition event recorded for a repair of camera [c]. *)
Definition repairEvent (c : Camera) : Change :=
  mkChange REPAIR (Some c) None None.

(** ** Deletion, degraded analysis *)

(** The ids of the cameras under NVR [N]. *)
Definition camerasUnder (N : string) (w : World) : list string :=
  cam_id <$> filter (λ c, cam_nvrId c = N) (cameras w).

(** The cascading delete as the specification words it. *)
Definition cascading_delete (o : Oracle) (now : Z) (N : string) (w : World)
  : Prop :=
  let w' := exec (executeDeleteNvr o now (Some N)) w in
  (∀ c, c ∈ cameras w' → cam_nvrId c ≠ N)
  ∧ (∀ f, f ∈ faults w' → f_cameraId f ∉ camerasUnder N w)
  ∧ (∀ i, i ∈ liveCameraIds w' → i ∉ camerasUnder N w).

(** The result of [analyzeFrame] when no API key is configured
    ([apiKey] is [undefined]). *)
Definition degraded (generateContent : string → RemoteOutcome)
    (parseResponse : string → AnalysisData + string)
    (nowIso frame : string) : AnalysisResult :=
  analyzeFrame None generateContent parseResponse nowIso frame.

(** The degraded path as the specification words it: a LOW result with no
    detected objects and a summary, whose application adds no alert. *)
Definition degraded_analysis_is_silent (o : Oracle) (now : Z)
    (nowIso cameraId frame : string) (w : World) : Prop :=
  let r := degraded (λ _, Responded None) (λ _, inr "") nowIso frame in
  ar_threatLevel r = LOW ∧ ar_detectedObjects r = [] ∧ ar_summary r ≠ ""
  ∧ alerts (exec (handleAnalysisResult o now cameraId r frame) w) = alerts w.

(** The transition event recorded for a failure of NVR [N]. *)
Definition nvrFailureEvent (N : string) : Change :=
  mkChange NVR_FAILURE None (Some N)
    (Some ("NVR Network Unreachable: " +:+ N)).

(** The first two draws of a tick select NVR [N] for failure. *)
Definition selectsNvr (o : Oracle) (N : string) (w : World) : Prop :=
  lt (random o (rpos w)) (2 # 1000) = true
  ∧ let nvrIds := distinct [] (cam_nvrId <$> cameras w) in
    at_index nvrIds
      (Qfloor (random o (S (rpos w)) * inject_Z (Z.of_nat (length nvrIds))))
    = Some N.

(** On [site], the draws [0.001; 0] select [NVR-01], whose three cameras are
    online. *)
Definition nvr01_fails : Oracle := oracle_of [1 # 1000; 0 # 1; 1 # 10].

(** ** The two invariants *)

(** The open faults of camera [C]. *)
Definition openFaultsOf (C : string) (w : World) : list FaultRecord :=
  filter (λ f, isOpenFor C f = true) (faults w).

(** At most one open fault per camera. *)
Definition single_open_fault (w : World) : Prop :=
  ∀ C, (length (openFaultsOf C w) ≤ 1)%nat.

(** Every recording camera is online. *)
Definition recordingOnline (cams : list Camera) : Prop :=
  Forall (λ c, isRecording c = true → isOnline c = true) cams.

Definition recording_implies_online (w : World) : Prop :=
  recordingOnline (cameras w).

(** The two flags of a camera agree (as they do on a generated camera). *)
Definition flagsAgree (c : Camera) : Prop := isRecording c = isOnline c.

(** A computation keeps [P] when [P] of the cameras before gives [P] of the
    cameras after. *)
Definition Keeps {A} (P : list Camera → Prop) (m : M A) : Prop :=
  ∀ w, P (cameras w) → P (cameras (snd (m w))).

(** The form of the NVR dialog filled with the credentials that the
    simulation accepts, and with a wrong password. *)
Definition good_form : NvrForm :=
  mkNvrForm "" "192.168.1.50" "8000" "admin" "12345" "ONVIF".
Definition bad_form : NvrForm :=
  mkNvrForm "" "192.168.1.50" "8000" "admin" "letmein" "ONVIF".

(** Camera [c1] fails in a tick; the NVR is then edited with valid
    credentials; [c1] fails again in a later tick. *)
Definition fails_twice : Oracle :=
  oracle_of [999 # 1000; 1 # 1000; 999 # 1000; 999 # 1000; 999 # 1000;
             999 # 1000;
             999 # 1000; 1 # 1000].
Definition fail_edit_fail : list Action :=
  [Tick 100; SaveNvr 200 good_form (Some "NVR-01"); Tick 300].

(** What a tick may do to a camera: leave it, repair it, or fail it. *)
Definition tickStep (now : Z) (c c' : Camera) : Prop :=
  c' = c ∨ c' = withStatus c true true now ∨ c' = withStatus c false false now.

(** The outcome of the connection test of [handleSaveNvr]. *)
Definition isSuccessOf (o : Oracle) (nvrForm : NvrForm) (w : World) : bool :=
  (bool_decide (form_username nvrForm = "admin")
   && bool_decide (form_password nvrForm = "12345"))
  && lt (1 # 10) (random o (rpos w)).

(** [a] is an edit of an existing NVR whose connection test fails. *)
Definition isFailedEdit (o : Oracle) (a : Action) (w : World) : Prop :=
  match a with
  | SaveNvr _ nvrForm (Some editing) =>
      editing ≠ "" ∧ form_ip nvrForm ≠ "" ∧ form_username nvrForm ≠ ""
      ∧ form_password nvrForm ≠ "" ∧ isSuccessOf o nvrForm w = false
  | _ => False
  end.

(** ** The storage *)

Section StoreShape.

Context `{JsNumber} `{!JsonCodec}.







End StoreShape.

(** ** A reference runtime

    Numbers, a printer and a parser for JSON texts, written out to show that
    the contracts [JsNumber] and [JsonCodec] can be met, and to run the
    storage on examples.  [emit] prints a value compactly ([indent = 0]) or
    with line breaks and [indent] spaces per level, the way [JSON.stringify]
    lays a value out; the parser skips white space.  In a string only the
    quote and the backslash are escaped.

    The numbers of the reference runtime are the integers, the two
    infinities and [NaN]; fractions are left out (the parser rejects them).
    A double overflows to an infinity from [2^1024 - 2^970] on: an integer
    of that magnitude stands for the infinity, and a numeral that denotes
    one, such as [1e999], is read as the infinity. *)

Inductive refnum :=
  | Int (n : Z)
  | Infinity (negative : bool)
  | NaN.

Definition overflow : Z := 2 ^ 1024 - 2 ^ 970.

Definition ref_isFinite (x : refnum) : bool :=
  match x with
  | Int n => negb (overflow <=? Z.abs n)%Z
  | _ => false
  end.

Definition ref_toBoolean (x : refnum) : bool :=
  match x with
  | Int n => negb (n =? 0)%Z
  | Infinity _ => true
  | NaN => false
  end.

#[global] Instance reference_number : JsNumber :=
  {| number := refnum;
     isFinite := ref_isFinite;
     toBoolean := ref_toBoolean;
     printed := λ x, x;
     isFinite_printed := λ _, eq_refl;
     toBoolean_printed := λ _, eq_refl;
     printed_printed := λ _, eq_refl |}.

(** The number that a numeral of integer value [n] denotes. *)
Definition of_value (n : Z) : refnum :=
  if (overflow <=? Z.abs n)%Z then Infinity (n <? 0)%Z else Int n.

Definition quote : ascii := "034"%char.
Definition backslash : ascii := "092"%char.
Definition newline : ascii := "010"%char.

(** White space: the space and the line feed. *)
Definition is_ws (c : ascii) : bool :=
  Ascii.eqb c " " || Ascii.eqb c newline.

(** The characters of a number: the sign and the digits. *)
Definition is_num (c : ascii) : bool :=
  Ascii.eqb c "-" || Ascii.eqb c "0" || Ascii.eqb c "1" || Ascii.eqb c "2"
  || Ascii.eqb c "3" || Ascii.eqb c "4" || Ascii.eqb c "5" || Ascii.eqb c "6"
  || Ascii.eqb c "7" || Ascii.eqb c "8" || Ascii.eqb c "9".

(** [s] without its leading white space. *)
Fixpoint skip_ws (s : string) : string :=
  match s with
  | String c s' => if is_ws c then skip_ws s' else s
  | EmptyString => EmptyString
  end.

(** The longest prefix of [s] made of number characters, and the rest. *)
Fixpoint span_num (s : string) : string * string :=
  match s with
  | String c s' =>
      if is_num c then let '(t, r) := span_num s' in (String c t, r)
      else (EmptyString, s)
  | EmptyString => (EmptyString, EmptyString)
  end.

(** [s] without its prefix [lit], when it starts with [lit]. *)
Fixpoint expect (lit s : string) : option string :=
  match lit with
  | EmptyString => Some s
  | String a lit' =>
      match s with
      | String b s' => if Ascii.eqb a b then expect lit' s' else None
      | EmptyString => None
      end
  end.

(** The characters of [s], escaped, then the closing quote, then [k]. *)
Fixpoint escape (s k : string) : string :=
  match s with
  | EmptyString => String quote k
  | String c s' =>
      if Ascii.eqb c quote || Ascii.eqb c backslash
      then String backslash (String c (escape s' k))
      else String c (escape s' k)
  end.

(** The characters up to the closing quote, and what follows it. *)
Fixpoint unescape (s : string) : option (string * string) :=
  match s with
  | EmptyString => None
  | String c s' =>
      if Ascii.eqb c quote then Some (EmptyString, s')
      else if Ascii.eqb c backslash then
        match s' with
        | String c' s'' =>
            match unescape s'' with
            | Some (t, r) => Some (String c' t, r)
            | None => None
            end
        | EmptyString => None
        end
      else
        match unescape s' with
        | Some (t, r) => Some (String c t, r)
        | None => None
        end
  end.

(** The white space before an item at depth [d]. *)
Definition gap (indent d : nat) : string :=
  match indent with
  | O => EmptyString
  | S _ => String newline (replicate_char (indent * d) " ")
  end.

(** The separator between a key and its value. *)
Definition colon (indent : nat) : string :=
  match indent with O => ":" | S _ => ": " end.

(** The text of [v] at depth [d], followed by [k]. *)
Fixpoint emit (indent d : nat) (v : json) (k : string) {struct v} : string :=
  match v with
  | JNull => "null" +:+ k
  | JBool true => "true" +:+ k
  | JBool false => "false" +:+ k
  | JNum (Int n) =>
      if (overflow <=? Z.abs n)%Z
      then "null" +:+ k
      else NilZero.string_of_int (Z.to_int n) +:+ k
  | JNum _ => "null" +:+ k
  | JStr s => String quote (escape s k)
  | JArr [] => "[]" +:+ k
  | JArr (x :: xs) =>
      String "[" (gap indent (S d) +:+ emit indent (S d) x
        ((fix items (xs : list json) : string :=
            match xs with
            | [] => gap indent d +:+ String "]" k
            | y :: ys =>
                String "," (gap indent (S d) +:+ emit indent (S d) y (items ys))
            end) xs))
  | JObj [] => "{}" +:+ k
  | JObj ((key, x) :: fs) =>
      String "{" (gap indent (S d) +:+ String quote (escape key
        (colon indent +:+ emit indent (S d) x
          ((fix fields (fs : list (string * json)) : string :=
              match fs with
              | [] => gap indent d +:+ String "}" k
              | (key', y) :: fs' =>
                  String "," (gap indent (S d) +:+ String quote (escape key'
                    (colon indent +:+ emit indent (S d) y (fields fs'))))
              end) fs))))
  end.

(** What [emit] prints after the first item of an array: the other items
    and the closing bracket; and the same for the fields of an object. *)
Fixpoint emit_items (indent d : nat) (xs : list json) (k : string) : string :=
  match xs with
  | [] => gap indent d +:+ String "]" k
  | y :: ys =>
      String "," (gap indent (S d) +:+ emit indent (S d) y (emit_items indent d ys k))
  end.

Fixpoint emit_fields (indent d : nat) (fs : list (string * json)) (k : string)
  : string :=
  match fs with
  | [] => gap indent d +:+ String "}" k
  | (key', y) :: fs' =>
      String "," (gap indent (S d) +:+ String quote (escape key'
        (colon indent +:+ emit indent (S d) y (emit_fields indent d fs' k))))
  end.

(** The exponent part that may follow the digits of a numeral, [e] or [E]
    with an unsigned or positive exponent, and the text after it; without an
    exponent part the exponent is 0.  (A negative exponent makes a fraction,
    which the reference runtime does not read.) *)
Definition is_exp (c : ascii) : bool := Ascii.eqb c "e" || Ascii.eqb c "E".

Definition exponent (r : string) : option (Z * string) :=
  match r with
  | String c r1 =>
      if is_exp c then
        let r2 := match r1 with
                  | String c' r' => if Ascii.eqb c' "+" then r' else r1
                  | EmptyString => r1
                  end in
        let '(tok, r3) := span_num r2 in
        e ← NilZero.int_of_string tok;
        if (0 <=? Z.of_int e)%Z then Some (Z.of_int e, r3) else None
      else Some (0%Z, r)
  | EmptyString => Some (0%Z, r)
  end.

(** The value at the start of [s] and the text after it; [parse_items] and
    [parse_fields] parse what follows an opening bracket or brace, up to the
    closing one.  [fuel] bounds the depth of the recursion. *)
Fixpoint parse_value (fuel : nat) (s : string) : option (json * string) :=
  match fuel with
  | O => None
  | S fuel =>
      match skip_ws s with
      | EmptyString => None
      | String c s1 =>
          if is_num c then
            let '(tok, r) := span_num (String c s1) in
            d ← NilZero.int_of_string tok;
            '(e, r') ← exponent r;
            Some (JNum (of_value (Z.of_int d * 10 ^ e)), r')
          else if Ascii.eqb c "n" then r ← expect "ull" s1; Some (JNull, r)
          else if Ascii.eqb c "t" then r ← expect "rue" s1; Some (JBool true, r)
          else if Ascii.eqb c "f" then r ← expect "alse" s1; Some (JBool false, r)
          else if Ascii.eqb c quote then
            '(t, r) ← unescape s1; Some (JStr t, r)
          else if Ascii.eqb c "[" then
            match expect "]" (skip_ws s1) with
            | Some r => Some (JArr [], r)
            | None => '(xs, r) ← parse_items fuel s1; Some (JArr xs, r)
            end
          else if Ascii.eqb c "{" then
            match expect "}" (skip_ws s1) with
            | Some r => Some (JObj [], r)
            | None => '(fs, r) ← parse_fields fuel s1; Some (JObj fs, r)
            end
          else None
      end
  end
with parse_items (fuel : nat) (s : string) : option (list json * string) :=
  match fuel with
  | O => None
  | S fuel =>
      '(x, r) ← parse_value fuel s;
      match skip_ws r with
      | String c r' =>
          if Ascii.eqb c "," then
            '(xs, r'') ← parse_items fuel r'; Some (x :: xs, r'')
          else if Ascii.eqb c "]" then Some ([x], r')
          else None
      | EmptyString => None
      end
  end
with parse_fields (fuel : nat) (s : string)
  : option (list (string * json) * string) :=
  match fuel with
  | O => None
  | S fuel =>
      r0 ← expect (String quote EmptyString) (skip_ws s);
      '(key, r1) ← unescape r0;
      r2 ← expect ":" (skip_ws r1);
      '(x, r3) ← parse_value fuel r2;
      match skip_ws r3 with
      | String c r4 =>
          if Ascii.eqb c "," then
            '(fs, r5) ← parse_fields fuel r4; Some ((key, x) :: fs, r5)
          else if Ascii.eqb c "}" then Some ([(key, x)], r4)
          else None
      | EmptyString => None
      end
  end.

(** The three operations of the codec.  A text is JSON when it is one value
    between white space. *)
Definition ref_stringify_indent (indent : nat) (v : json) : string :=
  emit indent 0 v EmptyString.
Definition ref_stringify (v : json) : string := ref_stringify_indent 0 v.
Definition ref_parse (s : string) : option json :=
  '(v, r) ← parse_value (String.length s) s;
  if bool_decide (skip_ws r = EmptyString) then Some v else None.

(** A text is delimited when it does not continue a number. *)
Definition delimited (k : string) : Prop :=
  match k with
  | String c _ => is_num c = false ∧ is_exp c = false
  | EmptyString => True
  end.

(** A member name between quotes. *)
Definition quoted (s : string) : string :=
  String quote (s +:+ String quote EmptyString).


Definition overflow_camera_file : string :=
  "{" +:+ quoted "cameras" +:+ ":[1e999]," +:+ quoted "nvrs" +:+ ":[]}".

(** A text is solid when it starts with a character that is neither white
    space nor a closing bracket. *)
Definition solid (s : string) : Prop :=
  match s with
  | String c _ =>
      is_ws c = false ∧ Ascii.eqb "]" c = false ∧ Ascii.eqb "}" c = false
  | EmptyString => False
  end.

Fixpoint all_num (s : string) : Prop :=
  match s with
  | String c s' => is_num c = true ∧ all_num s'
  | EmptyString => True
  end.

(** The fuel that parsing a value needs. *)
Fixpoint size (v : json) : nat :=
  match v with
  | JArr xs =>
      S ((fix sizes (xs : list json) : nat :=
            match xs with
            | [] => O
            | x :: xs' => S (size x + sizes xs')
            end) xs)
  | JObj fs =>
      S ((fix sizes (fs : list (string * json)) : nat :=
            match fs with
            | [] => O
            | (_, x) :: fs' => S (size x + sizes fs')
            end) fs)
  | _ => 1
  end.

Fixpoint sizes (xs : list json) : nat :=
  match xs with
  | [] => O
  | x :: xs' => S (size x + sizes xs')
  end.

Fixpoint fsizes (fs : list (string * json)) : nat :=
  match fs with
  | [] => O
  | (_, x) :: fs' => S (size x + fsizes fs')
  end.

(** * Vocabulary of the further properties *)

(** ** What a handler may change *)

(** The fields of the state that a computation is allowed to change. *)
Record Footprint := mkFootprint {
  fp_cameras : bool;
  fp_nvrs : bool;
  fp_faults : bool;
  fp_alerts : bool;
  fp_toasts : bool;
  fp_live : bool
}.

(** [w'] differs from [w] at most in the fields of the footprint (and in the
    read positions of the two streams). *)
Definition within (fp : Footprint) (w w' : World) : Prop :=
  (fp_cameras fp = false → cameras w' = cameras w)
  ∧ (fp_nvrs fp = false → nvrs w' = nvrs w)
  ∧ (fp_faults fp = false → faults w' = faults w)
  ∧ (fp_alerts fp = false → alerts w' = alerts w)
  ∧ (fp_toasts fp = false → toasts w' = toasts w)
  ∧ (fp_live fp = false → liveCameraIds w' = liveCameraIds w).

Definition Touches {A} (fp : Footprint) (m : M A) : Prop :=
  ∀ w, within fp w (snd (m w)).


(** The footprints of the handlers. *)
Definition fp_tick : Footprint := mkFootprint true true true true true false.
Definition fp_analysis : Footprint := mkFootprint true false false true true false.
Definition fp_reconnect : Footprint := mkFootprint true false true true true false.
Definition fp_delete : Footprint := mkFootprint true true false true true true.
Definition fp_edit : Footprint := mkFootprint true true false true true false.
Definition fp_save : Footprint := mkFootprint true true true true true false.
Definition fp_webcam : Footprint := mkFootprint true false false false true true.
Definition fp_pin : Footprint := mkFootprint false false false false true true.
Definition fp_unpin : Footprint := mkFootprint false false false false false true.
Definition fp_discovery : Footprint := mkFootprint true true false true true true.
Definition fp_none : Footprint := mkFootprint false false false false false false.
Definition fp_users : Footprint := mkFootprint false false false false true false.


(** ** The live view *)

(** The live view holds at most [MAX_LIVE_CAMERAS] ids. *)
Definition liveWithinCap (w : World) : Prop :=
  (length (liveCameraIds w) ≤ MAX_LIVE_CAMERAS)%nat.

(** The operations on the live view that are not in [Action]. *)
Inductive LiveAction :=
  | AddWebcam (now : Z)
  | PinCamera (cameraId : string)
  | UnpinCamera (cameraId : string)
  | Discover (now : Z).

Definition performLive (o : Oracle) (a : LiveAction) : M unit :=
  match a with
  | AddWebcam now => addWebcam o now
  | PinCamera cameraId => handlePinCamera o cameraId
  | UnpinCamera cameraId => handleUnpinCamera cameraId
  | Discover now => simulateNetworkDiscovery o now
  end.


(** ** The fault log and the devices *)

(** The fault record [f'] continues [f]: it is [f] itself, or [f] was open
    and [f'] is [f] closed at some time. *)
Definition continues (f f' : FaultRecord) : Prop :=
  f' = f ∨ (timeOn f = None ∧ ∃ t, f' = withTimeOn f t).

(** The fault log [fs'] extends the log [fs]: the records of [fs] are
    continued, in their places, and records may follow them. *)
Definition extendsLog (fs fs' : list FaultRecord) : Prop :=
  ∃ kept new, fs' = kept ++ new ∧ Forall2 continues fs kept.

(** The transition events of the per-camera roll: repairs and failures,
    each with its camera. *)
Definition rollChange (ch : Change) : Prop :=
  ch_type ch ≠ NVR_FAILURE ∧ is_Some (ch_camera ch).

(** The fault [f] was opened at [now] for the camera of the event [ch]. *)
Definition opensFault (now : Z) (ch : Change) (f : FaultRecord) : Prop :=
  ∃ cam, ch_camera ch = Some cam
    ∧ f_cameraId f = cam_id cam ∧ f_cameraName f = cam_name cam
    ∧ f_location f = cam_location cam ∧ f_nvrId f = cam_nvrId cam
    ∧ timeOff f = now.

(** The alert [a] was raised at [now] for the camera of the event [ch]. *)
Definition raisesAlert (now : Z) (ch : Change) (a : Alert) : Prop :=
  ∃ cam, ch_camera ch = Some cam
    ∧ a_cameraId a = cam_id cam ∧ a_cameraName a = cam_name cam
    ∧ a_timestamp a = now ∧ a_severity a = SevWARNING.

(** What a tick may do to an NVR: leave it, or set its status to ONLINE or
    to OFFLINE. *)
Definition nvrStep (n n' : NvrDevice) : Prop :=
  n' = n ∨ n' = withNvrStatus n ONLINE ∨ n' = withNvrStatus n OFFLINE.

(** The computation [m] changes the NVRs by [nvrStep] only. *)
Definition NvrSteps {A} (m : M A) : Prop :=
  ∀ w, Forall2 nvrStep (nvrs w) (nvrs (snd (m w))).

Definition fp_no_nvrs : Footprint := mkFootprint true false true true true true.
Definition fp_no_log : Footprint := mkFootprint true true false false true true.
Definition fp_nvrs_toasts : Footprint :=
  mkFootprint false true false false true false.

(** Two of the initial users. *)
Definition staff : list User :=
  [mkUser "u1" "System Admin" "admin@sentinel.ai" ADMIN 0 ACTIVE;
   mkUser "u4" "Temp Auditor" "audit.ext@agency.gov" VIEWER 0 SUSPENDED].

(** ** Faults in step with the cameras *)

(** The faults are in step with the cameras: the cameras have different
    ids, no camera (and no id at all) has more than one open fault, and an
    online camera has none. *)
Definition faultsInStep (w : World) : Prop :=
  NoDup (cam_id <$> cameras w)
  ∧ single_open_fault w
  ∧ Forall (λ c, isOnline c = true → openFaultsOf (cam_id c) w = [])
      (cameras w).

(** What the roll of one camera gives: the camera after it, and the events
    that it adds to [changes]. *)
Inductive rolled (now : Z) : Camera → Camera → list Change → Prop :=
  | rolled_same c : rolled now c c []
  | rolled_repair c :
      isOnline c = false →
      rolled now c (withStatus c true true now)
        [mkChange REPAIR (Some (withStatus c true true now)) None None]
  | rolled_failure c :
      isOnline c = true →
      rolled now c (withStatus c false false now)
        [mkChange FAILURE (Some (withStatus c false false now)) None None].

(** The number of open faults of camera [C] in a fault list. *)
Definition openCount (C : string) (fs : list FaultRecord) : nat :=
  length (filter (λ f, isOpenFor C f = true) fs).

(** What a tick does to a camera and to the number of its open faults
    ([before] gives the numbers before the tick, [fs'] is the fault list
    after it). *)
Definition inStep (before : string → nat) (fs' : list FaultRecord)
    (c c' : Camera) : Prop :=
  cam_id c' = cam_id c
  ∧ ((c' = c ∧ openCount (cam_id c) fs' = before (cam_id c))
     ∨ (isOnline c' = true ∧ openCount (cam_id c) fs' = 0%nat)
     ∨ (isOnline c = true ∧ isOnline c' = false
        ∧ openCount (cam_id c) fs' = S (before (cam_id c)))
     ∨ (isOnline c' = false
        ∧ openCount (cam_id c) fs' = before (cam_id c))).

(** [a] is a save of the NVR form. *)
Definition isSaveNvr (a : Action) : Prop :=
  match a with SaveNvr _ _ _ => True | _ => False end.

(** ** The first three cameras of every NVR *)

(** The camera [c] at position [i] of [cams] is among the first three of its
    NVR: fewer than three cameras before it have its NVR id.  No camera of an
    NVR whose id names a property of [Object.prototype] counts as such. *)
Definition amongFirstThree (cams : list Camera) (i : nat) (c : Camera) : bool :=
  bool_decide (cam_nvrId c ∉ Object_prototype)
  && bool_decide (length (filter (λ c', cam_nvrId c' = cam_nvrId c)
                            (take i cams)) < 3)%nat.

Definition firstThreePerNvr (cams : list Camera) : list Camera :=
  snd <$> filter (λ ic, amongFirstThree cams (fst ic) (snd ic))
            (imap pair cams).

(** The same for the cameras [rest] that follow the cameras [pre]. *)
Definition firstThreeFrom (pre rest : list Camera) : list Camera :=
  snd <$> filter (λ ic, amongFirstThree (pre ++ rest) (fst ic) (snd ic))
            (imap (λ i, pair (length pre + i)%nat) rest).

(** * Properties *)

(** ** Reasoning about handlers *)

Ltac msimpl :=
  repeat (progress (unfold exec, eval, mbind, M_bind, mret, M_ret, get,
                      updateCameras, updateNvrs, updateFaults, updateAlerts,
                      setToasts, setLiveCameraIds, mathRandom, generateId,
                      addToast, openFault in *; cbn [fst snd] in *)).

Lemma rollCamera_spec o now nvrs0 cam loc w :
  let '((cam', loc'), w') := rollCamera o now nvrs0 cam loc w in
  roll_frame w w' ∧ roll_step cam cam' loc loc' w w'.
Proof.
  unfold rollCamera, roll_frame, roll_step. msimpl.
  repeat (case_match; msimpl; simplify_eq/=); naive_solver.
Qed.

Lemma rollCameras_spec o now nvrs0 cams : ∀ loc w,
  let '((cams', loc'), w') := rollCameras o now nvrs0 cams loc w in
  roll_frame w w' ∧ roll_step cams cams' loc loc' w w'.
Proof.
  induction cams as [|cam rest IH]; intros loc w; cbn [rollCameras].
  - msimpl. unfold roll_frame, roll_step. naive_solver.
  - msimpl.
    pose proof (rollCamera_spec o now nvrs0 cam loc w) as H1.
    destruct (rollCamera o now nvrs0 cam loc w) as [[cam' loc1] w1].
    specialize (IH loc1 w1).
    destruct (rollCameras o now nvrs0 rest loc1 w1) as [[rest' loc2] w2].
    destruct H1 as [F1 S1], IH as [F2 S2].
    split.
    + unfold roll_frame in *. intuition congruence.
    + unfold roll_step in *.
      destruct S1 as [(-> & -> & N1)|(U1 & ch1 & r1 & C1)];
        destruct S2 as [(-> & -> & N2)|(U2 & ch2 & r2 & C2)].
      * left. intuition congruence.
      * right. eauto.
      * right. eauto.
      * right. split; [done|]. exists ch1, (r1 ++ ch2 :: r2).
        rewrite C2, C1, <- app_assoc. done.
Qed.

(** The NVR failure branch either returns with one [NVR_FAILURE] transition
    or falls through having only drawn random numbers. *)
Lemma nvrFailure_spec o now prevCameras w :
  let '(early, w') := nvrFailure o now prevCameras w in
  match early with
  | Some (_, chs) => ∃ ch, chs = [ch] ∧ ch_type ch = NVR_FAILURE
  | None =>
      roll_frame w w' ∧ nvrs w' = nvrs w
  end.
Proof.
  unfold nvrFailure, roll_frame. msimpl.
  repeat (case_match; msimpl; simplify_eq/=); naive_solver.
Qed.

(** ** No-op ticks *)

(** C7.  If the draws of a tick produce no transition (the array [changes]
    of the run is empty), the camera, NVR, fault and alert collections after
    the tick are those before it; the updater returns [prevCameras] itself.
    The toasts and the live view are untouched as well. *)
Theorem tick_without_transitions_is_noop (o : Oracle) (now : Z) (w : World) :
  eval (tick o now) w = [] →
  cameras (exec (tick o now) w) = cameras w
  ∧ nvrs (exec (tick o now) w) = nvrs w
  ∧ faults (exec (tick o now) w) = faults w
  ∧ alerts (exec (tick o now) w) = alerts w
  ∧ toasts (exec (tick o now) w) = toasts w
  ∧ liveCameraIds (exec (tick o now) w) = liveCameraIds w.
Proof.
  unfold tick, tickUpdater. msimpl.
  pose proof (nvrFailure_spec o now (cameras w) w) as HN.
  destruct (nvrFailure o now (cameras w) w) as [[[cs chs]|] w1]; msimpl.
  - destruct HN as (ch & -> & _). cbn. discriminate.
  - destruct HN as [F1 N1].
    pose proof (rollCameras_spec o now (nvrs w) (cameras w)
                  (mkLocals false []) w1) as HR.
    destruct (rollCameras o now (nvrs w) (cameras w) (mkLocals false []) w1)
      as [[cams' loc'] w2].
    destruct HR as [F2 S2]. unfold roll_frame in *.
    destruct S2 as [(-> & -> & N2)|(U & ch & rest & C)].
    + cbn. intros _. intuition congruence.
    + rewrite U. cbn in C.
      repeat (case_match; msimpl; simplify_eq/=);
        intros E; rewrite C in *; discriminate.
Qed.

(** A quiet tick on [site]: every draw is [0.999]. *)
Lemma tick_without_transitions_is_noop_witness :
  eval (tick quiet 100) site = []
  ∧ cameras (exec (tick quiet 100) site) = cameras site
  ∧ nvrs (exec (tick quiet 100) site) = nvrs site
  ∧ faults (exec (tick quiet 100) site) = faults site
  ∧ alerts (exec (tick quiet 100) site) = alerts site
  ∧ toasts (exec (tick quiet 100) site) = toasts site
  ∧ liveCameraIds (exec (tick quiet 100) site) = liveCameraIds site.
Proof.
  split; [vm_compute; reflexivity|].
  apply (tick_without_transitions_is_noop quiet 100 site).
  vm_compute; reflexivity.
Defined.

(** ** Closing faults *)

Lemma closeFault_length cameraId now (fs : list FaultRecord) :
  length (closeFault cameraId now <$> fs) = length fs.
Proof. apply length_fmap. Qed.

Lemma closeFault_open cameraId now f :
  isOpenFor cameraId f = true → closeFault cameraId now f = withTimeOn f now.
Proof. unfold closeFault. by intros ->. Qed.

Lemma closeFault_other cameraId now f :
  isOpenFor cameraId f = false → closeFault cameraId now f = f.
Proof. unfold closeFault. by intros ->. Qed.

Lemma closeFault_none_open cameraId now (fs : list FaultRecord) :
  existsb (isOpenFor cameraId) fs = false →
  closeFault cameraId now <$> fs = fs.
Proof.
  induction fs as [|f fs IH]; cbn; [done|].
  intros [Hf Hfs]%orb_false_iff.
  by rewrite closeFault_other, IH.
Qed.

Lemma syncFaults_repair o now prevCameras c w :
  faults (exec (syncFaults o now prevCameras [repairEvent c]) w)
  = closeFault (cam_id c) now <$> faults w.
Proof. reflexivity. Qed.

Lemma handleReconnect_faults o now cameraId w :
  faults (exec (handleReconnect o now cameraId) w)
  = closeFault cameraId now <$> faults w.
Proof. reflexivity. Qed.

(** C8.  A repair of camera [c] at time [T1], by the tick (its fault sync
    run on the event [REPAIR c]) or by a manual reconnect, maps the fault
    collection through [closeFault]: the collection keeps its length (no
    record is appended); a fault of [c] that is open, opened at [T0], is
    replaced in place by the same record with [timeOn = T1]; every record
    that is not an open fault of [c] is kept as it is; and when [c] has no
    open fault the collection is unchanged. *)
Theorem repair_closes_the_open_fault (o : Oracle) (T1 : Z) (c : Camera)
    (prevCameras : list Camera) (w : World) :
  let after_tick :=
    faults (exec (syncFaults o T1 prevCameras [repairEvent c]) w) in
  let after_reconnect := faults (exec (handleReconnect o T1 (cam_id c)) w) in
  after_tick = after_reconnect
  ∧ length after_tick = length (faults w)
  ∧ (∀ i f T0, faults w !! i = Some f → f_cameraId f = cam_id c →
       timeOn f = None → timeOff f = T0 → T0 < T1 →
       after_tick !! i = Some (withTimeOn f T1)
       ∧ timeOn (withTimeOn f T1) = Some T1
       ∧ timeOff (withTimeOn f T1) = T0)
  ∧ (∀ i f, faults w !! i = Some f → isOpenFor (cam_id c) f = false →
       after_tick !! i = Some f)
  ∧ (existsb (isOpenFor (cam_id c)) (faults w) = false →
       after_tick = faults w).
Proof.
  cbn zeta. rewrite syncFaults_repair, handleReconnect_faults.
  split; [done|]. split; [apply closeFault_length|].
  split; [|split].
  - intros i f T0 Hi Hc Hopen HT0 _.
    rewrite list_lookup_fmap, Hi. cbn.
    rewrite closeFault_open; [done|].
    unfold isOpenFor. rewrite !bool_decide_eq_true_2; done.
  - intros i f Hi Hf. rewrite list_lookup_fmap, Hi. cbn.
    by rewrite closeFault_other.
  - apply closeFault_none_open.
Qed.

(** Camera [c4] of [site] has the open fault [f4], opened at 10; it is
    repaired at 50. *)
Lemma repair_closes_the_open_fault_witness :
  faults (exec (handleReconnect quiet 50 "c4") site)
  = [fault_of "f4" "c4" "NVR-02" 10 (Some 50)]
  ∧ faults (exec (handleReconnect quiet 50 "c1") site) = faults site.
Proof.
  pose proof (repair_closes_the_open_fault quiet 50
                (camera_of "c4" "NVR-02" false) (cameras site) site) as H4.
  pose proof (repair_closes_the_open_fault quiet 50
                (camera_of "c1" "NVR-01" true) (cameras site) site) as H1.
  cbn zeta in H4, H1.
  destruct H4 as (E4 & L4 & C4 & _), H1 as (E1 & _ & _ & _ & N1).
  split.
  - specialize (C4 0%nat (fault_of "f4" "c4" "NVR-02" 10 None) 10
                  eq_refl eq_refl eq_refl eq_refl ltac:(lia)) as (C4 & _).
    change (cam_id (camera_of "c4" "NVR-02" false)) with "c4" in *.
    rewrite <- E4.
    destruct (faults (exec (syncFaults quiet 50 (cameras site)
                [repairEvent (camera_of "c4" "NVR-02" false)]) site))
      as [|f [|g rest]]; cbn in L4, C4; try discriminate.
    by injection C4 as ->.
  - change (cam_id (camera_of "c1" "NVR-01" true)) with "c1" in *.
    rewrite <- E1. apply N1. vm_compute; reflexivity.
Defined.

(** ** Alert purge on reconnect *)

Lemma handleReconnect_alerts o now cameraId w :
  alerts (exec (handleReconnect o now cameraId) w)
  = filter (λ a, a_cameraId a ≠ cameraId) (alerts w).
Proof. reflexivity. Qed.

(** C9.  A manual reconnect of camera [C] (whose id is not the sentinel
    [SYSTEM]) removes every alert whose source is [C]; an alert is present
    afterwards exactly when it was present before and its source is not [C],
    so the alerts of any other source [D], and those of [SYSTEM], are the
    same sequence before and after; and the alerts afterwards are a
    subsequence of those before: nothing is appended. *)
Theorem reconnect_purges_alerts_of_camera (o : Oracle) (now : Z) (C : string)
    (w : World) :
  C ≠ "SYSTEM" →
  let after := alerts (exec (handleReconnect o now C) w) in
  (∀ a, a ∈ after → a_cameraId a ≠ C)
  ∧ (∀ a, a ∈ after ↔ a ∈ alerts w ∧ a_cameraId a ≠ C)
  ∧ (∀ D, D ≠ C →
       filter (λ a, a_cameraId a = D) after
       = filter (λ a, a_cameraId a = D) (alerts w))
  ∧ filter (λ a, a_cameraId a = "SYSTEM") after
    = filter (λ a, a_cameraId a = "SYSTEM") (alerts w)
  ∧ sublist after (alerts w)
  ∧ (length after ≤ length (alerts w))%nat.
Proof.
  intros HC after. subst after. rewrite handleReconnect_alerts.
  assert (HD : ∀ D, D ≠ C →
            filter (λ a, a_cameraId a = D)
              (filter (λ a, a_cameraId a ≠ C) (alerts w))
            = filter (λ a, a_cameraId a = D) (alerts w)).
  { intros D HDC. rewrite list_filter_filter.
    apply list_filter_iff. intros a. split; [tauto|]. intros ->. done. }
  split; [|split; [|split; [|split; [|split]]]].
  - intros a [Ha _]%list_elem_of_filter. done.
  - intros a. rewrite list_elem_of_filter. tauto.
  - exact HD.
  - apply HD. done.
  - apply sublist_filter.
  - apply length_filter.
Qed.

(** On [site], camera [c4] has the two alerts [a1] and [a3]. *)
Lemma reconnect_purges_alerts_of_camera_witness :
  alerts (exec (handleReconnect quiet 50 "c4") site)
  = [alert_of "a2" "SYSTEM" SevINFO; alert_of "a4" "c1" SevWARNING]
  ∧ ∀ a, a ∈ alerts (exec (handleReconnect quiet 50 "c4") site) →
         a_cameraId a ≠ "c4".
Proof.
  split; [vm_compute; reflexivity|].
  apply (reconnect_purges_alerts_of_camera quiet 50 "c4" site).
  discriminate.
Defined.

(** ** Deleting an NVR *)

(** Deleting [NVR-02] from [site] leaves the fault [f4] of its camera [c4]
    in the fault collection. *)
Lemma cascading_delete_keeps_faults :
  nvr_of "NVR-02" ONLINE ∈ nvrs site
  ∧ ¬ cascading_delete quiet 100 "NVR-02" site.
Proof.
  split; [set_solver|].
  intros (_ & Hf & _).
  apply (Hf (fault_of "f4" "c4" "NVR-02" 10 None)); vm_compute; set_solver.
Qed.

Lemma executeDeleteNvr_unfold o now N w :
  N ≠ "" →
  exec (executeDeleteNvr o now (Some N)) w
  = mkWorld
      (filter (λ c, cam_nvrId c ≠ N) (cameras w))
      (filter (λ n, nvr_id n ≠ N) (nvrs w))
      (faults w)
      (mkAlert (freshId o (ipos w)) "SYSTEM" "System" now
         ("NVR Deleted: " +:+ N +:+ ". All associated devices removed.")
         SevINFO None :: alerts w)
      (toasts w ++ [mkToast (freshId o (S (ipos w))) ToastInfo "Device Removed"
                      ("NVR " +:+ N +:+ " and associated cameras deleted.") 5000])
      (filter (λ i, i ∉ camerasUnder N w) (liveCameraIds w))
      (rpos w) (S (S (ipos w))).
Proof.
  intros HN. unfold executeDeleteNvr.
  rewrite bool_decide_eq_false_2 by done. reflexivity.
Qed.

(** C1 (amended).  Deleting the NVR [N] (a non-empty id) removes the NVR
    records with id [N], every camera whose [nvrId] is [N], and the ids of
    those cameras from the live view; the fault collection is left as it is
    (the faults of the removed cameras stay), and one INFO alert of source
    [SYSTEM] is prepended to the alerts. *)
Theorem delete_nvr_removes_cameras_and_live_ids (o : Oracle) (now : Z)
    (N : string) (w : World) :
  N ≠ "" →
  let w' := exec (executeDeleteNvr o now (Some N)) w in
  nvrs w' = filter (λ n, nvr_id n ≠ N) (nvrs w)
  ∧ cameras w' = filter (λ c, cam_nvrId c ≠ N) (cameras w)
  ∧ (∀ c, c ∈ cameras w' → cam_nvrId c ≠ N)
  ∧ liveCameraIds w' = filter (λ i, i ∉ camerasUnder N w) (liveCameraIds w)
  ∧ (∀ i, i ∈ liveCameraIds w' → i ∉ camerasUnder N w)
  ∧ faults w' = faults w
  ∧ ∃ a, alerts w' = a :: alerts w
         ∧ a_cameraId a = "SYSTEM" ∧ a_severity a = SevINFO.
Proof.
  intros HN w'. subst w'. rewrite executeDeleteNvr_unfold by done. cbn.
  repeat split; try done.
  - by intros c [Hc _]%list_elem_of_filter.
  - by intros i [Hi _]%list_elem_of_filter.
  - eexists. repeat split.
Qed.

Lemma delete_nvr_removes_cameras_and_live_ids_witness :
  cameras (exec (executeDeleteNvr quiet 100 (Some "NVR-02")) site)
  = [camera_of "c1" "NVR-01" true; camera_of "c2" "NVR-01" true;
     camera_of "c3" "NVR-01" true]
  ∧ liveCameraIds (exec (executeDeleteNvr quiet 100 (Some "NVR-02")) site)
    = ["c1"]
  ∧ faults (exec (executeDeleteNvr quiet 100 (Some "NVR-02")) site)
    = faults site.
Proof.
  destruct (delete_nvr_removes_cameras_and_live_ids quiet 100 "NVR-02" site)
    as (_ & Hc & _ & Hl & _ & Hf & _); [discriminate|].
  rewrite Hc, Hl, Hf. vm_compute. repeat split.
Defined.

(** ** Degraded analysis *)

(** On [site], the degraded result for camera [c1] adds an alert. *)
Lemma degraded_analysis_raises_an_alert :
  ¬ degraded_analysis_is_silent quiet 100 "2026-01-01T00:00:00.000Z" "c1"
      "frame" site.
Proof. intros (_ & _ & _ & H). vm_compute in H. discriminate. Qed.

(** C4 (amended).  With no API key configured, [analyzeFrame] returns a
    result with [threatLevel = LOW], no detected objects, a non-empty summary
    and the one anomaly [Configuration Error]; being an anomaly, it makes the
    analysis-result handler prepend exactly one alert: severity WARNING,
    source the analysed camera, message [LOW: Configuration Error], thumbnail
    the analysed frame.  An empty key behaves like a missing one. *)
Theorem degraded_analysis_raises_one_warning (o : Oracle) (now : Z)
    (generateContent : string → RemoteOutcome)
    (parseResponse : string → AnalysisData + string)
    (apiKey : option string) (nowIso cameraId frame : string) (w : World) :
  apiKey = None ∨ apiKey = Some "" →
  let r := analyzeFrame apiKey generateContent parseResponse nowIso frame in
  ar_threatLevel r = LOW
  ∧ ar_detectedObjects r = []
  ∧ ar_summary r = "API Key Missing. Please check your .env file."
  ∧ ar_summary r ≠ ""
  ∧ ar_anomalies r = ["Configuration Error"]
  ∧ ∃ a, alerts (exec (handleAnalysisResult o now cameraId r frame) w)
         = a :: alerts w
         ∧ a_severity a = SevWARNING
         ∧ a_cameraId a = cameraId
         ∧ a_message a = "LOW: Configuration Error"
         ∧ a_thumbnail a = Some frame.
Proof.
  intros Hkey r.
  assert (Hr : r = fallback nowIso
                 "API Key Missing. Please check your .env file."
                 "Configuration Error").
  { subst r. unfold analyzeFrame. destruct Hkey as [-> | ->]; reflexivity. }
  rewrite Hr. cbn.
  repeat split; try done.
  eexists. repeat split.
Qed.

Lemma degraded_analysis_raises_one_warning_witness :
  ∃ a, alerts (exec (handleAnalysisResult quiet 100 "c1"
                       (degraded (λ _, Responded None) (λ _, inr "")
                          "2026-01-01T00:00:00.000Z" "frame") "frame") site)
       = a :: alerts site
       ∧ a_severity a = SevWARNING.
Proof.
  destruct (degraded_analysis_raises_one_warning quiet 100
              (λ _, Responded None) (λ _, inr "") None
              "2026-01-01T00:00:00.000Z" "c1" "frame" site (or_introl eq_refl))
    as (_ & _ & _ & _ & _ & a & Ha & Hs & _).
  exists a. split; [exact Ha | exact Hs].
Defined.

(** ** The tick in which an NVR fails *)

(** When the draws select NVR [N] and one of its cameras is online, the
    updater returns from inside the failure branch: the cameras of [N] are
    put offline, the NVR is marked OFFLINE and a toast is shown, two random
    numbers have been drawn, and the fault and alert collections have not
    been touched. *)
Lemma tick_nvr_failure (o : Oracle) (now : Z) (N : string) (w : World) :
  selectsNvr o N w →
  forallb (λ c, negb (isOnline c))
    (filter (λ c, Some (cam_nvrId c) = Some N) (cameras w)) = false →
  tick o now w
  = ([nvrFailureEvent N],
     mkWorld
       ((λ c, if bool_decide (Some (cam_nvrId c) = Some N)
              then withStatus c false false now else c) <$> cameras w)
       ((λ n, if bool_decide (Some (nvr_id n) = Some N)
              then withNvrStatus n OFFLINE else n) <$> nvrs w)
       (faults w) (alerts w)
       (toasts w ++ [mkToast (freshId o (ipos w)) ToastCritical
                       "Infrastructure Failure"
                       ("Critical connection loss to " +:+ N
                          +:+ ". Technician dispatch recommended.") 8000])
       (liveCameraIds w) (S (S (rpos w))) (S (ipos w))).
Proof.
  intros [Hr Ht] Hdown. cbn zeta in Ht.
  unfold tick, tickUpdater, nvrFailure. msimpl.
  rewrite Hr. msimpl. cbn [rpos cameras]. rewrite Ht, Hdown. reflexivity.
Qed.

(** C6 (the code at the failing input).  The tick in which [NVR-01] fails
    records the one [NVR_FAILURE] event, puts the three cameras of [NVR-01]
    offline with recording off and [statusChangedAt] the tick time, and marks
    the NVR OFFLINE; but the fault collection and the alert collection after
    the tick are those before it: no fault is opened for the three cameras
    and no CRITICAL alert is emitted. *)
Theorem nvr_failure_tick_opens_no_fault_and_emits_no_alert :
  let w' := exec (tick nvr01_fails 100) site in
  eval (tick nvr01_fails 100) site = [nvrFailureEvent "NVR-01"]
  ∧ Forall (λ c, cam_nvrId c = "NVR-01" →
                 isOnline c = false ∧ isRecording c = false
                 ∧ statusChangedAt c = 100) (cameras w')
  ∧ nvr_status <$> nvrs w' = [OFFLINE; ONLINE]
  ∧ faults w' = faults site
  ∧ alerts w' = alerts site
  ∧ filter (λ f, f_nvrId f = "NVR-01") (faults w') = []
  ∧ filter (λ a, a_severity a = SevCRITICAL) (alerts w') = [].
Proof.
  cbn zeta. unfold exec, eval.
  rewrite (tick_nvr_failure nvr01_fails 100 "NVR-01" site);
    [|split; vm_compute; reflexivity|vm_compute; reflexivity].
  cbn [fst snd cameras nvrs faults alerts].
  split; [done|]. split; [|vm_compute; repeat split].
  vm_compute. repeat constructor; intros; discriminate.
Qed.

(** The two syncs that the early return skips: run on the event of that
    tick they open one fault for each of the three cameras and prepend one
    CRITICAL alert of source [SYSTEM] naming the NVR. *)
Lemma skipped_sync_of_nvr_failure :
  let w' :=
    exec (syncFaults nvr01_fails 100 (cameras site) [nvrFailureEvent "NVR-01"];;
          syncAlerts nvr01_fails 100 [nvrFailureEvent "NVR-01"]) site in
  (f_cameraId <$> filter (λ f, timeOn f = None ∧ timeOff f = 100) (faults w'))
  = ["c1"; "c2"; "c3"]
  ∧ ∃ a, alerts w' = a :: alerts site
         ∧ a_severity a = SevCRITICAL ∧ a_cameraId a = "SYSTEM"
         ∧ a_cameraName a = "NVR-01"
         ∧ a_message a = "NVR Network Unreachable: NVR-01".
Proof.
  cbn zeta. split; [vm_compute; reflexivity|].
  eexists. vm_compute. repeat split.
Qed.

(** C5 (the code at the failing input).  In the tick in which [NVR-01]
    fails, camera [c4] of [NVR-02] is offline and the next draw of the stream
    is [0.1], below the repair probability: its roll, made on that draw,
    repairs it.  The tick makes no such roll: it draws two random numbers
    (the failure roll and the choice of the NVR) and leaves [c4] as it was. *)
Theorem nvr_failure_tick_skips_the_camera_rolls :
  let c4 := camera_of "c4" "NVR-02" false in
  let w' := exec (tick nvr01_fails 100) site in
  eval (tick nvr01_fails 100) site = [nvrFailureEvent "NVR-01"]
  ∧ c4 ∈ cameras site ∧ cam_nvrId c4 ≠ "NVR-01"
  ∧ rpos w' = (rpos site + 2)%nat
  ∧ c4 ∈ cameras w'
  ∧ fst (eval (rollCamera nvr01_fails 100 (nvrs site) c4 (mkLocals false [])) w')
    = withStatus c4 true true 100.
Proof.
  cbn zeta. unfold exec, eval.
  rewrite (tick_nvr_failure nvr01_fails 100 "NVR-01" site);
    [|split; vm_compute; reflexivity|vm_compute; reflexivity].
  cbn [fst snd].
  split; [done|]. split; [vm_compute; set_solver|].
  split; [discriminate|]. split; [reflexivity|].
  split; [vm_compute; set_solver|vm_compute; reflexivity].
Qed.

(** ** The two invariants *)

Lemma site_single_open_fault : single_open_fault site.
Proof.
  intros C. unfold openFaultsOf, isOpenFor. cbn.
  case_decide; cbn; lia.
Qed.

Lemma site_recording_implies_online : recording_implies_online site.
Proof. repeat constructor; cbn; congruence. Qed.

(** C2 (the code at the failing input).  [site] has at most one open fault
    per camera.  After the tick in which [c1] fails, a successful edit of its
    NVR (which puts [c1] online again and leaves its fault open) and a second
    tick in which [c1] fails, the fault collection holds two open faults of
    [c1], opened at 100 and at 300. *)
Theorem two_open_faults_after_edit :
  single_open_fault site
  ∧ (timeOff <$> openFaultsOf "c1" (run fails_twice fail_edit_fail site))
    = [100; 300]
  ∧ ¬ single_open_fault (run fails_twice fail_edit_fail site).
Proof.
  split; [exact site_single_open_fault|].
  assert (E : (timeOff <$> openFaultsOf "c1" (run fails_twice fail_edit_fail site))
              = [100; 300]) by (vm_compute; reflexivity).
  split; [exact E|].
  intros H. specialize (H "c1").
  rewrite <- (length_fmap timeOff), E in H. cbn in H. lia.
Qed.

(** C3 (the code at the failing input).  On [site] every recording camera
    is online.  Editing [NVR-01] with a wrong password puts its cameras
    offline and leaves their recording flag set. *)
Theorem failed_edit_leaves_recording_on :
  let w' := run quiet [SaveNvr 200 bad_form (Some "NVR-01")] site in
  recording_implies_online site
  ∧ ((λ c, (cam_id c, isOnline c, isRecording c)) <$> cameras w')
    = [("c1", false, true); ("c2", false, true); ("c3", false, true);
       ("c4", false, false)]
  ∧ ¬ recording_implies_online w'.
Proof.
  cbn zeta. split; [exact site_recording_implies_online|].
  split; [vm_compute; reflexivity|].
  intros H. apply Forall_cons_1 in H as [H _].
  vm_compute in H. specialize (H eq_refl). discriminate.
Qed.

(** ** Backup round trip *)

Section BackupRoundTrip.

Context `{JsNumber} `{!JsonCodec}.




Lemma stringify_not_empty v : stringify v ≠ "".
Proof.
  intros E. pose proof (parse_stringify v) as P.
  rewrite E, parse_empty in P. discriminate.
Qed.

Lemma readCollection_stored k v (ls : gmap string string) :
  ls !! k = Some (stringify v) → readCollection k ls = Some (written v).
Proof.
  intros E. unfold readCollection. rewrite E. cbn.
  rewrite bool_decide_eq_false_2 by apply stringify_not_empty.
  apply parse_stringify.
Qed.

Lemma readCollection_missing k (ls : gmap string string) :
  ls !! k = None → readCollection k ls = Some (JArr []).
Proof.
  intros E. unfold readCollection. rewrite E. apply parse_empty_array.
Qed.
















End BackupRoundTrip.

(** ** Where recording-implies-online is kept *)

Lemma rollCamera_tickStep o now nvrs0 cam loc w :
  tickStep now cam (fst (fst (rollCamera o now nvrs0 cam loc w))).
Proof.
  unfold rollCamera, tickStep. msimpl.
  repeat (case_match; msimpl; simplify_eq/=); naive_solver.
Qed.

Lemma rollCameras_tickStep o now nvrs0 cams : ∀ loc w,
  Forall2 (tickStep now) cams (fst (fst (rollCameras o now nvrs0 cams loc w))).
Proof.
  induction cams as [|cam rest IH]; intros loc w; cbn [rollCameras].
  - constructor.
  - msimpl.
    pose proof (rollCamera_tickStep o now nvrs0 cam loc w) as H1.
    destruct (rollCamera o now nvrs0 cam loc w) as [[cam' loc1] w1].
    specialize (IH loc1 w1).
    destruct (rollCameras o now nvrs0 rest loc1 w1) as [[rest' loc2] w2].
    by constructor.
Qed.

Lemma Forall2_tickStep_refl now cams : Forall2 (tickStep now) cams cams.
Proof. induction cams; constructor; [by left|done]. Qed.

Lemma Forall2_tickStep_fail now (hit : Camera → bool) cams :
  Forall2 (tickStep now) cams
    ((λ c, if hit c then withStatus c false false now else c) <$> cams).
Proof.
  induction cams as [|c cams IH]; constructor; [|exact IH].
  unfold tickStep. destruct (hit c); auto.
Qed.

(** Every camera after a tick is the camera before it, left alone, repaired
    or failed. *)
Lemma tick_cameras o now w :
  Forall2 (tickStep now) (cameras w) (cameras (exec (tick o now) w)).
Proof.
  unfold tick, tickUpdater. msimpl.
  destruct (nvrFailure o now (cameras w) w) as [[[cs chs]|] w1] eqn:EN; msimpl.
  - unfold nvrFailure in EN. msimpl.
    repeat (case_match; msimpl; simplify_eq/=).
    exact (Forall2_tickStep_fail now _ _).
  - pose proof (rollCameras_tickStep o now (nvrs w) (cameras w)
                  (mkLocals false []) w1) as HR.
    destruct (rollCameras o now (nvrs w) (cameras w) (mkLocals false []) w1)
      as [[cams' loc'] w2].
    cbn [fst] in HR.
    repeat (case_match; msimpl; simplify_eq/=);
      first [exact HR | apply Forall2_tickStep_refl].
Qed.

Lemma Forall_tickStep now (cams cams' : list Camera) :
  Forall2 (tickStep now) cams cams' →
  Forall (λ c, isRecording c = true → isOnline c = true) cams →
  Forall (λ c, isRecording c = true → isOnline c = true) cams'.
Proof.
  induction 1 as [|c c' cams cams' Hc _ IH]; [done|].
  intros [Hc0 Hrest]%Forall_cons_1. constructor; [|by apply IH].
  destruct Hc as [->|[->| ->]]; cbn; done.
Qed.

Lemma Keeps_bind {A B} P (m : M A) (k : A → M B) :
  Keeps P m → (∀ a, Keeps P (k a)) → Keeps P (m ≫= k).
Proof.
  intros Hm Hk w Hw. unfold mbind, M_bind.
  specialize (Hm w Hw). destruct (m w) as [a w1]. by apply Hk.
Qed.

Lemma Keeps_bind_val {A B} P (Q : A → Prop) (m : M A) (k : A → M B) :
  Keeps P m → (∀ w, Q (fst (m w))) → (∀ a, Q a → Keeps P (k a)) →
  Keeps P (m ≫= k).
Proof.
  intros Hm HQ Hk w Hw. unfold mbind, M_bind.
  specialize (Hm w Hw). specialize (HQ w).
  destruct (m w) as [a w1]. by apply Hk.
Qed.

Lemma Keeps_frame {A} P (m : M A) :
  (∀ w, cameras (snd (m w)) = cameras w) → Keeps P m.
Proof. intros Hm w Hw. by rewrite Hm. Qed.

Lemma Keeps_updateCameras P f :
  (∀ cams, P cams → P (f cams)) → Keeps P (updateCameras f).
Proof. intros Hf w Hw. by apply Hf. Qed.

Ltac keeps_frame := apply Keeps_frame; intros ?; reflexivity.

Ltac keeps :=
  repeat first
    [ apply Keeps_bind; [|intros ?]
    | keeps_frame ].

Lemma Keeps_generateCameras P o now nvrForm newNvrId isSuccess count : ∀ i,
  Keeps P (generateCameras o now nvrForm newNvrId isSuccess count i).
Proof.
  induction count as [|count IH]; intros i; cbn [generateCameras].
  - keeps_frame.
  - apply Keeps_bind; [keeps_frame|intros id].
    apply Keeps_bind; [apply IH|intros rest]. keeps_frame.
Qed.

Lemma Keeps_openFaults P o now cams : Keeps P (openFaults o now cams).
Proof.
  induction cams as [|cam rest IH]; cbn [openFaults].
  - keeps_frame.
  - apply Keeps_bind; [keeps_frame|intros f].
    apply Keeps_bind; [apply IH|intros more]. keeps_frame.
Qed.

Lemma generateCameras_flags o now nvrForm newNvrId isSuccess count : ∀ i w,
  Forall flagsAgree
    (fst (generateCameras o now nvrForm newNvrId isSuccess count i w)).
Proof.
  induction count as [|count IH]; intros i w; [constructor|].
  cbn [generateCameras]. unfold mbind, M_bind, mret, M_ret.
  destruct (generateId o w) as [id w1].
  specialize (IH (i + 1) w1).
  destruct (generateCameras o now nvrForm newNvrId isSuccess count (i + 1) w1)
    as [rest w2].
  cbn [fst] in *. constructor; [done|exact IH].
Qed.

Lemma Keeps_addNewNvr o now nvrForm isSuccess initialStatus :
  Keeps recordingOnline (addNewNvr o now nvrForm isSuccess initialStatus).
Proof.
  unfold addNewNvr.
  apply Keeps_bind; [case_bool_decide; keeps|intros ipSegment].
  apply Keeps_bind; [keeps_frame|intros _].
  eapply (Keeps_bind_val _ (Forall flagsAgree));
    [apply Keeps_generateCameras|apply generateCameras_flags|].
  intros newCameras Hnew.
  apply Keeps_bind; [|intros _].
  { apply Keeps_updateCameras. intros cams Hc. apply Forall_app. split; [done|].
    eapply Forall_impl; [exact Hnew|]. unfold flagsAgree. intros c ->. done. }
  apply Keeps_bind; [|intros _].
  { destruct isSuccess; cbn [negb]; [keeps_frame|].
    apply Keeps_bind; [apply Keeps_openFaults|intros ?]. keeps_frame. }
  keeps.
Qed.

Lemma Keeps_updateExistingNvr o now nvrForm editing initialStatus :
  Keeps recordingOnline
    (updateExistingNvr o now nvrForm editing true initialStatus).
Proof.
  unfold updateExistingNvr. cbn [negb].
  apply Keeps_bind; [keeps_frame|intros _].
  apply Keeps_bind; [|intros _; keeps].
  apply Keeps_updateCameras. intros cams Hc.
  apply Forall_fmap. eapply Forall_impl; [exact Hc|].
  intros c Hrec. cbn. by case_bool_decide.
Qed.

Lemma Keeps_handleReconnect o now cameraId :
  Keeps recordingOnline (handleReconnect o now cameraId).
Proof.
  unfold handleReconnect.
  apply Keeps_bind; [keeps_frame|intros w0].
  apply Keeps_bind; [|intros _; keeps].
  apply Keeps_updateCameras. intros cams Hc.
  apply Forall_fmap. eapply Forall_impl; [exact Hc|].
  intros c Hrec. cbn. by case_bool_decide.
Qed.

Lemma Keeps_executeDeleteNvr o now deleteNvrId :
  Keeps recordingOnline (executeDeleteNvr o now deleteNvrId).
Proof.
  unfold executeDeleteNvr.
  destruct deleteNvrId as [id|]; [|keeps_frame].
  case_bool_decide; [keeps_frame|].
  apply Keeps_bind; [keeps_frame|intros w0].
  apply Keeps_bind; [keeps_frame|intros _].
  apply Keeps_bind; [|intros _; keeps].
  apply Keeps_updateCameras. intros cams Hc.
  unfold recordingOnline in *. rewrite Forall_forall in Hc |- *.
  intros c [_ Hin]%list_elem_of_filter. by apply Hc.
Qed.

Lemma Keeps_handleAnalysisResult o now cameraId result frame :
  Keeps recordingOnline (handleAnalysisResult o now cameraId result frame).
Proof.
  unfold handleAnalysisResult.
  apply Keeps_bind; [keeps_frame|intros w0].
  apply Keeps_bind; [|intros _].
  { apply Keeps_updateCameras. intros cams Hc.
    apply Forall_fmap. eapply Forall_impl; [exact Hc|].
    intros c Hrec. cbn. by case_bool_decide. }
  apply Keeps_bind; [destruct (ar_threatLevel result); keeps|intros _].
  destruct (_ || _); keeps.
Qed.

Lemma Keeps_tick o now : Keeps recordingOnline (tick o now).
Proof.
  intros w Hw. eapply Forall_tickStep; [apply tick_cameras|exact Hw].
Qed.

(** Recording-implies-online is kept by every operation but one: the edit of
    an NVR whose connection test fails.  (The tick, which switches recording
    off with online; the reconnect; the deletion; the addition of an NVR; the
    analysis result; the edit that succeeds.) *)
Lemma recording_implies_online_kept (o : Oracle) (a : Action) (w : World) :
  recording_implies_online w →
  ¬ isFailedEdit o a w →
  recording_implies_online (exec (perform o a) w).
Proof.
  intros Hw Hedit.
  destruct a as [now|now cameraId|now deleteNvrId|now nvrForm isEditingNvr
                |now cameraId result frame]; cbn [perform].
  - refine (Keeps_bind _ _ _ (Keeps_tick o now) _ w Hw).
    intros chs. keeps_frame.
  - exact (Keeps_handleReconnect o now cameraId w Hw).
  - exact (Keeps_executeDeleteNvr o now deleteNvrId w Hw).
  - unfold exec, handleSaveNvr.
    destruct (_ || _) eqn:Evalid.
    { clear Hedit. revert w Hw. change (Keeps recordingOnline
        (addToast o ToastError "Form Error"
           "Please fill in IP, Username, and Password." 5000)).
      keeps_frame. }
    apply orb_false_iff in Evalid as [[Hip Hus]%orb_false_iff Hpw].
    apply bool_decide_eq_false in Hip, Hus, Hpw.
    unfold mbind at 1, M_bind at 1, mathRandom at 1. cbv beta iota zeta.
    set (w1 := mkWorld _ _ _ _ _ _ _ _).
    assert (Hw1 : recordingOnline (cameras w1)) by exact Hw.
    destruct isEditingNvr as [editing|]; [|by apply Keeps_addNewNvr].
    case_bool_decide as Hed; [by apply Keeps_addNewNvr|].
    destruct (isSuccessOf o nvrForm w) eqn:Es.
    + unfold isSuccessOf in Es. rewrite Es.
      by apply Keeps_updateExistingNvr.
    + exfalso. apply Hedit. cbn. done.
  - exact (Keeps_handleAnalysisResult o now cameraId result frame w Hw).
Qed.


(** ** The reference codec meets the contract *)

(** *** Round trip of the reference codec *)

#[local] Arguments is_num : simpl never.
#[local] Arguments is_ws : simpl never.

Lemma expect_app lit k : expect lit (lit +:+ k) = Some k.
Proof.
  induction lit as [|a lit IH]; simpl; [done|].
  by rewrite Ascii.eqb_refl.
Qed.

Lemma unescape_escape s k : unescape (escape s k) = Some (s, k).
Proof.
  induction s as [|c s IH]; cbn; [done|].
  destruct (Ascii.eqb c quote) eqn:Eq; cbn.
  - apply Ascii.eqb_eq in Eq as ->. cbn. by rewrite IH.
  - destruct (Ascii.eqb c backslash) eqn:Eb; cbn.
    + apply Ascii.eqb_eq in Eb as ->. cbn. by rewrite IH.
    + by rewrite Eq, Eb, IH.
Qed.

Lemma is_num_solid c s : is_num c = true → solid (String c s).
Proof.
  destruct c as [[] [] [] [] [] [] [] []]; cbn; intros; try discriminate; done.
Qed.

Lemma skip_ws_solid s : solid s → skip_ws s = s.
Proof. destruct s as [|c s]; simpl; [done|]. by intros [-> _]. Qed.

Lemma span_num_app t k :
  all_num t → delimited k → span_num (t +:+ k) = (t, k).
Proof.
  intros Ht Hk. induction t as [|c t IH]; simpl in *.
  - destruct k as [|c k]; simpl in *; [done|]. by destruct Hk as [-> _].
  - destruct Ht as [-> Ht]. by rewrite IH.
Qed.

Lemma all_num_uint u : all_num (NilEmpty.string_of_uint u).
Proof. induction u; cbn; done. Qed.

Lemma all_num_int d : all_num (NilZero.string_of_int d).
Proof.
  destruct d as [u|u]; cbn; [|split; [done|]];
    destruct u; cbn; try done; try (split; [done|apply all_num_uint]).
Qed.

Lemma int_of_string_to_int n :
  NilZero.int_of_string (NilZero.string_of_int (Z.to_int n)) = Some (Z.to_int n).
Proof.
  apply NilZero.isi; destruct n as [|p|p]; cbn; try discriminate;
    intros E; injection E as E; by apply DecimalPos.Unsigned.to_uint_nonnil in E.
Qed.

Lemma string_of_int_head d :
  ∃ c s, NilZero.string_of_int d = String c s ∧ is_num c = true.
Proof.
  pose proof (all_num_int d) as H.
  destruct (NilZero.string_of_int d) as [|c s] eqn:E.
  - destruct d as [u|u]; cbn in E; [|discriminate].
    destruct u; discriminate.
  - exists c, s. split; [done|]. apply H.
Qed.

Lemma size_arr xs : size (JArr xs) = S (sizes xs).
Proof. reflexivity. Qed.

Lemma size_obj fs : size (JObj fs) = S (fsizes fs).
Proof. reflexivity. Qed.

Lemma emit_arr i d x xs k :
  emit i d (JArr (x :: xs)) k
  = String "[" (gap i (S d) +:+ emit i (S d) x (emit_items i d xs k)).
Proof.
  cbn [emit]. do 3 f_equal.
  induction xs as [|y ys IH]; [done|]. cbn [emit_items]. by rewrite IH.
Qed.

Lemma emit_obj i d key x fs k :
  emit i d (JObj ((key, x) :: fs)) k
  = String "{" (gap i (S d) +:+ String quote (escape key
      (colon i +:+ emit i (S d) x (emit_fields i d fs k)))).
Proof.
  cbn [emit]. do 6 f_equal.
  induction fs as [|[key' y] fs IH]; [done|]. cbn [emit_fields]. by rewrite IH.
Qed.

Lemma solid_emit i d v k : solid (emit i d v k).
Proof.
  destruct v as [|[]|[n| |]|s|[|x xs]|[|[key x] fs]]; try done.
  cbn [emit]. destruct (overflow <=? Z.abs n)%Z; [done|].
  destruct (string_of_int_head (Z.to_int n)) as (c & s & -> & Hc).
  by apply is_num_solid.
Qed.

Lemma skip_ws_spaces n s : skip_ws (replicate_char n " " +:+ s) = skip_ws s.
Proof. induction n as [|n IH]; simpl; done. Qed.

Lemma skip_ws_gap i d s : skip_ws (gap i d +:+ s) = skip_ws s.
Proof. destruct i; simpl; [done|]. apply skip_ws_spaces. Qed.

Lemma skip_ws_gap_solid i d s : solid s → skip_ws (gap i d +:+ s) = s.
Proof. intros Hs. by rewrite skip_ws_gap, skip_ws_solid. Qed.

Lemma expect_solid_bracket s : solid s → expect "]" s = None.
Proof. destruct s as [|c s]; simpl; [done|]. by intros (_ & -> & _). Qed.

Lemma expect_solid_brace s : solid s → expect "}" s = None.
Proof. destruct s as [|c s]; simpl; [done|]. by intros (_ & _ & ->). Qed.

Lemma delimited_items i d xs k : delimited (emit_items i d xs k).
Proof. destruct xs, i; by split. Qed.

Lemma delimited_fields i d fs k : delimited (emit_fields i d fs k).
Proof. destruct fs as [|[key x] fs], i; by split. Qed.

Lemma exponent_delimited k : delimited k → exponent k = Some (0%Z, k).
Proof. destruct k as [|c k]; [done|]. simpl. by intros [_ ->]. Qed.

(** Unfolding the parser on the first character. *)

Lemma parse_value_skip fuel s : parse_value fuel s = parse_value fuel (skip_ws s).
Proof.
  assert (Hidem : skip_ws (skip_ws s) = skip_ws s).
  { induction s as [|c s IH]; simpl; [done|].
    destruct (is_ws c) eqn:E; [done|]. simpl. by rewrite E. }
  destruct fuel; [done|]. simpl. by rewrite Hidem.
Qed.

Lemma parse_value_gap fuel i d s :
  parse_value fuel (gap i d +:+ s) = parse_value fuel s.
Proof.
  rewrite parse_value_skip, skip_ws_gap, <- parse_value_skip. done.
Qed.

Lemma parse_items_gap fuel i d s :
  parse_items fuel (gap i d +:+ s) = parse_items fuel s.
Proof. destruct fuel; [done|]. simpl. by rewrite parse_value_gap. Qed.

Lemma parse_fields_gap fuel i d s :
  parse_fields fuel (gap i d +:+ s) = parse_fields fuel s.
Proof. destruct fuel; [done|]. simpl. by rewrite skip_ws_gap. Qed.

Lemma parse_value_num fuel n k :
  delimited k →
  parse_value (S fuel) (NilZero.string_of_int (Z.to_int n) +:+ k)
  = Some (JNum (of_value n), k).
Proof.
  intros Hk.
  pose proof (span_num_app _ k (all_num_int (Z.to_int n)) Hk) as Hspan.
  destruct (string_of_int_head (Z.to_int n)) as (c & s & E & Hc).
  rewrite E in *. simpl.
  pose proof (is_num_solid c (s +:+ k) Hc) as (-> & _).
  rewrite Hc. simpl in Hspan. rewrite Hc in Hspan.
  destruct (span_num (s +:+ k)) as [t r]. simplify_eq.
  rewrite <- E, int_of_string_to_int. cbn [mbind option_bind].
  rewrite (exponent_delimited _ Hk). cbn [mbind option_bind].
  by rewrite DecimalZ.of_to, Z.mul_1_r.
Qed.

Lemma parse_value_arr fuel s1 :
  parse_value (S fuel) (String "[" s1)
  = match expect "]" (skip_ws s1) with
    | Some r => Some (JArr [], r)
    | None => '(xs, r) ← parse_items fuel s1; Some (JArr xs, r)
    end.
Proof. reflexivity. Qed.

Lemma parse_value_obj fuel s1 :
  parse_value (S fuel) (String "{" s1)
  = match expect "}" (skip_ws s1) with
    | Some r => Some (JObj [], r)
    | None => '(fs, r) ← parse_fields fuel s1; Some (JObj fs, r)
    end.
Proof. reflexivity. Qed.

Lemma parse_value_str fuel s1 :
  parse_value (S fuel) (String quote s1)
  = '(t, r) ← unescape s1; Some (JStr t, r).
Proof. reflexivity. Qed.

Lemma parse_items_S fuel s :
  parse_items (S fuel) s
  = '(x, r) ← parse_value fuel s;
    match skip_ws r with
    | String c r' =>
        if Ascii.eqb c "," then
          '(xs, r'') ← parse_items fuel r'; Some (x :: xs, r'')
        else if Ascii.eqb c "]" then Some ([x], r')
        else None
    | EmptyString => None
    end.
Proof. reflexivity. Qed.

Lemma parse_fields_S fuel s1 :
  parse_fields (S fuel) (String quote s1)
  = '(key, r1) ← unescape s1;
    r2 ← expect ":" (skip_ws r1);
    '(x, r3) ← parse_value fuel r2;
    match skip_ws r3 with
    | String c r4 =>
        if Ascii.eqb c "," then
          '(fs, r5) ← parse_fields fuel r4; Some ((key, x) :: fs, r5)
        else if Ascii.eqb c "}" then Some ([(key, x)], r4)
        else None
    | EmptyString => None
    end.
Proof. reflexivity. Qed.

Lemma after_colon fuel i s :
  solid s →
  (r2 ← expect ":" (skip_ws (colon i +:+ s)); parse_value fuel r2)
  = parse_value fuel s.
Proof.
  intros Hs. destruct i; [reflexivity|].
  transitivity (parse_value fuel (String " " s)); [reflexivity|].
  rewrite parse_value_skip.
  change (skip_ws (String " " s)) with (skip_ws s).
  by rewrite <- parse_value_skip.
Qed.

Lemma skip_ws_items i d xs k :
  skip_ws (emit_items i d xs k)
  = match xs with
    | [] => String "]" k
    | y :: ys =>
        String "," (gap i (S d) +:+ emit i (S d) y (emit_items i d ys k))
    end.
Proof. destruct xs; cbn [emit_items]; [|done]. by rewrite skip_ws_gap. Qed.

Lemma skip_ws_fields i d fs k :
  skip_ws (emit_fields i d fs k)
  = match fs with
    | [] => String "}" k
    | (key, y) :: fs' =>
        String "," (gap i (S d) +:+ String quote (escape key
          (colon i +:+ emit i (S d) y (emit_fields i d fs' k))))
    end.
Proof.
  destruct fs as [|[key y] fs]; cbn [emit_fields]; [|done].
  by rewrite skip_ws_gap.
Qed.

Lemma parse_emit fuel :
  (∀ v i d k, (size v ≤ fuel)%nat → delimited k →
     parse_value fuel (emit i d v k) = Some (written v, k))
  ∧ (∀ x xs i d k, (sizes (x :: xs) ≤ fuel)%nat →
       parse_items fuel (emit i (S d) x (emit_items i d xs k))
       = Some (map written (x :: xs), k))
  ∧ (∀ key x fs i d k, (fsizes ((key, x) :: fs) ≤ fuel)%nat →
       parse_fields fuel
         (String quote (escape key
            (colon i +:+ emit i (S d) x (emit_fields i d fs k))))
       = Some (map (λ kv, (fst kv, written (snd kv))) ((key, x) :: fs), k)).
Proof.
  induction fuel as [|fuel (IHv & IHi & IHf)].
  { split; [|split].
    - intros v i d k Hs _. destruct v; simpl in Hs; lia.
    - intros x xs i d k Hs. simpl in Hs. lia.
    - intros key x fs i d k Hs. simpl in Hs. lia. }
  split; [|split].
  - intros v i d k Hsize Hk.
    destruct v as [|[]|[n| |]|s|[|x xs]|[|[key x] fs]]; try reflexivity.
    + cbn [emit written isFinite reference_number ref_isFinite printed].
      destruct (overflow <=? Z.abs n)%Z eqn:En; [reflexivity|].
      rewrite parse_value_num by done. unfold of_value. by rewrite En.
    + cbn [emit]. rewrite parse_value_str, unescape_escape. done.
    + rewrite emit_arr, parse_value_arr.
      rewrite skip_ws_gap_solid, expect_solid_bracket by apply solid_emit.
      rewrite parse_items_gap, IHi; [done|].
      rewrite size_arr in Hsize. lia.
    + rewrite emit_obj, parse_value_obj.
      rewrite skip_ws_gap_solid, expect_solid_brace by done.
      rewrite parse_fields_gap, IHf; [done|].
      rewrite size_obj in Hsize. lia.
  - intros x xs i d k Hsize. cbn [sizes] in Hsize.
    rewrite parse_items_S, IHv; [|lia|apply delimited_items].
    cbn [mbind option_bind]. rewrite skip_ws_items.
    destruct xs as [|y ys]; [done|].
    cbn [Ascii.eqb]. simpl. rewrite parse_items_gap, IHi; [done|].
    cbn [sizes] in *. lia.
  - intros key x fs i d k Hsize. cbn [fsizes] in Hsize.
    rewrite parse_fields_S, unescape_escape. cbn [mbind option_bind].
    pose proof (after_colon fuel i (emit i (S d) x (emit_fields i d fs k))
                  (solid_emit _ _ _ _)) as Hc.
    destruct (expect ":" (skip_ws (colon i +:+ emit i (S d) x
                (emit_fields i d fs k)))) as [r2|] eqn:E.
    + cbn [mbind option_bind] in *. rewrite Hc, IHv;
        [|lia|apply delimited_fields].
      cbn [mbind option_bind]. rewrite skip_ws_fields.
      destruct fs as [|[key' y] fs]; [done|].
      simpl. rewrite parse_fields_gap, IHf; [done|].
      cbn [fsizes] in *. lia.
    + cbn [mbind option_bind] in Hc.
      rewrite IHv in Hc; [discriminate|lia|apply delimited_fields].
Qed.

(** The text of a value is at least as long as the fuel it needs. *)

Lemma length_escape s k : (String.length k < String.length (escape s k))%nat.
Proof.
  induction s as [|c s IH]; simpl; [lia|].
  destruct (_ || _); simpl; lia.
Qed.

Lemma length_append (s1 s2 : string) :
  String.length (s1 +:+ s2) = (String.length s1 + String.length s2)%nat.
Proof. induction s1 as [|c s1 IH]; simpl; [done|]. by rewrite IH. Qed.

Lemma length_gap i d s :
  (String.length s ≤ String.length (gap i d +:+ s))%nat.
Proof. rewrite length_append. lia. Qed.

Lemma length_emit n :
  (∀ v i d k, (size v ≤ n)%nat →
     (size v + String.length k ≤ String.length (emit i d v k))%nat)
  ∧ (∀ xs i d k, (sizes xs ≤ n)%nat →
       (sizes xs + String.length k < String.length (emit_items i d xs k))%nat)
  ∧ (∀ fs i d k, (fsizes fs ≤ n)%nat →
       (fsizes fs + String.length k < String.length (emit_fields i d fs k))%nat).
Proof.
  induction n as [|n (IHv & IHi & IHf)].
  { split; [|split].
    - intros v i d k Hs. destruct v; simpl in Hs; lia.
    - intros [|x xs] i d k Hs; simpl in Hs; [|lia].
      cbn [emit_items sizes]. pose proof (length_gap i d (String "]" k)).
      simpl in *. lia.
    - intros [|[key x] fs] i d k Hs; simpl in Hs; [|lia].
      cbn [emit_fields fsizes]. pose proof (length_gap i d (String "}" k)).
      simpl in *. lia. }
  split; [|split].
  - intros v i d k Hs.
    destruct v as [|[]|[z| |]|s|[|x xs]|[|[key x] fs]];
      try (cbn [emit size]; rewrite length_append; simpl; lia).
    + cbn [emit size]. destruct (overflow <=? Z.abs z)%Z;
        rewrite length_append; [simpl; lia|].
      destruct (string_of_int_head (Z.to_int z)) as (c & s & -> & _).
      simpl. lia.
    + cbn [emit size]. pose proof (length_escape s k). simpl. lia.
    + rewrite emit_arr, size_arr in *. cbn [sizes] in *.
      pose proof (length_gap i (S d)
                    (emit i (S d) x (emit_items i d xs k))).
      pose proof (IHv x i (S d) (emit_items i d xs k) ltac:(lia)).
      pose proof (IHi xs i d k ltac:(lia)).
      simpl String.length. lia.
    + rewrite emit_obj, size_obj in *. cbn [fsizes] in *.
      set (body := colon i +:+ emit i (S d) x (emit_fields i d fs k)).
      pose proof (length_gap i (S d) (String quote (escape key body))).
      pose proof (length_escape key body).
      assert (String.length (emit i (S d) x (emit_fields i d fs k))
              ≤ String.length body)%nat
        by (subst body; rewrite length_append; lia).
      pose proof (IHv x i (S d) (emit_fields i d fs k) ltac:(lia)).
      pose proof (IHf fs i d k ltac:(lia)).
      simpl String.length in *. lia.
  - intros [|x xs] i d k Hs.
    + cbn [emit_items sizes]. pose proof (length_gap i d (String "]" k)).
      simpl in *. lia.
    + cbn [emit_items sizes] in *.
      pose proof (length_gap i (S d)
                    (emit i (S d) x (emit_items i d xs k))).
      pose proof (IHv x i (S d) (emit_items i d xs k) ltac:(lia)).
      pose proof (IHi xs i d k ltac:(lia)).
      simpl String.length. lia.
  - intros [|[key x] fs] i d k Hs.
    + cbn [emit_fields fsizes]. pose proof (length_gap i d (String "}" k)).
      simpl in *. lia.
    + cbn [emit_fields fsizes] in *.
      set (body := colon i +:+ emit i (S d) x (emit_fields i d fs k)).
      pose proof (length_gap i (S d) (String quote (escape key body))).
      pose proof (length_escape key body).
      assert (String.length (emit i (S d) x (emit_fields i d fs k))
              ≤ String.length body)%nat
        by (subst body; rewrite length_append; lia).
      pose proof (IHv x i (S d) (emit_fields i d fs k) ltac:(lia)).
      pose proof (IHf fs i d k ltac:(lia)).
      simpl String.length in *. lia.
Qed.

Lemma ref_parse_stringify_indent i v :
  ref_parse (ref_stringify_indent i v) = Some (written v).
Proof.
  unfold ref_parse, ref_stringify_indent.
  destruct (length_emit (size v)) as (Hlen & _ & _).
  specialize (Hlen v i O EmptyString (le_n _)).
  destruct (parse_emit (String.length (emit i 0 v EmptyString))) as (Hp & _ & _).
  rewrite Hp; [done| lia | done].
Qed.

Lemma ref_parse_stringify v : ref_parse (ref_stringify v) = Some (written v).
Proof. apply ref_parse_stringify_indent. Qed.

Lemma ref_parse_empty : ref_parse EmptyString = None.
Proof. reflexivity. Qed.

Lemma ref_parse_empty_array : ref_parse "[]" = Some (JArr []).
Proof. reflexivity. Qed.

Definition reference_codec : JsonCodec :=
  {| stringify := ref_stringify;
     stringify_indent := ref_stringify_indent;
     parse := ref_parse;
     parse_stringify := ref_parse_stringify;
     parse_stringify_indent := ref_parse_stringify_indent;
     parse_empty := ref_parse_empty;
     parse_empty_array := ref_parse_empty_array |}.

(** A store holding one camera, one NVR and one open fault (its missing
    [timeOn] is absent from the stored text); no users and no alerts have
    been saved. *)
Definition saved_store : gmap string string :=
  let _ := reference_codec in
  saveFaults
    [JObj [("id", JStr "f4"); ("cameraId", JStr "c4");
           ("timeOff", JNum (Int 10)); ("acknowledged", JBool false)]]
    (saveNvrs
       [JObj [("id", JStr "NVR-02"); ("status", JStr "ONLINE")]]
       (saveCameras
          [JObj [("id", JStr "c4"); ("nvrId", JStr "NVR-02");
                 ("isOnline", JBool false); ("isRecording", JBool false);
                 ("statusChangedAt", JNum (Int 10))]]
          reset)).




(** * Further properties of the code *)

(** ** Running a handler step by step *)

Lemma bind_run {A B} (m : M A) (k : A → M B) (w : World) :
  (m ≫= k) w = k (fst (m w)) (snd (m w)).
Proof. unfold mbind, M_bind. by destruct (m w). Qed.

(** One step of a handler: the first computation of a sequence is run and
    the primitive operations are evaluated. *)
Ltac run_eval :=
  cbn [get mathRandom generateId updateCameras updateNvrs updateFaults
       updateAlerts setToasts setLiveCameraIds fst snd mret M_ret
       cameras nvrs faults alerts toasts liveCameraIds rpos ipos];
  cbv beta.

Ltac run :=
  unfold addToast, openFault; repeat (rewrite bind_run; run_eval); run_eval.

Lemma within_refl fp w : within fp w w.
Proof. by repeat split. Qed.

Lemma within_trans fp w1 w2 w3 :
  within fp w1 w2 → within fp w2 w3 → within fp w1 w3.
Proof.
  unfold within. intros (A1&A2&A3&A4&A5&A6) (B1&B2&B3&B4&B5&B6).
  repeat split; intros E;
    [ rewrite (B1 E); exact (A1 E) | rewrite (B2 E); exact (A2 E)
    | rewrite (B3 E); exact (A3 E) | rewrite (B4 E); exact (A4 E)
    | rewrite (B5 E); exact (A5 E) | rewrite (B6 E); exact (A6 E) ].
Qed.

Lemma Touches_bind {A B} fp (m : M A) (k : A → M B) :
  Touches fp m → (∀ a, Touches fp (k a)) → Touches fp (m ≫= k).
Proof.
  intros Hm Hk w. rewrite bind_run.
  eapply within_trans; [apply Hm|apply Hk].
Qed.

Lemma Touches_ret {A} fp (a : A) : Touches fp (mret a).
Proof. intros w. apply within_refl. Qed.

Section TouchesPrimitives.

Variable o : Oracle.
Variable fp : Footprint.

Lemma Touches_get : Touches fp get.
Proof. intros w. apply within_refl. Qed.

Lemma Touches_mathRandom : Touches fp (mathRandom o).
Proof. intros w. by repeat split. Qed.

Lemma Touches_generateId : Touches fp (generateId o).
Proof. intros w. by repeat split. Qed.

Lemma Touches_updateCameras f :
  fp_cameras fp = true → Touches fp (updateCameras f).
Proof. intros E w. repeat split; intros E'; first [reflexivity|congruence]. Qed.

Lemma Touches_updateNvrs f : fp_nvrs fp = true → Touches fp (updateNvrs f).
Proof. intros E w. repeat split; intros E'; first [reflexivity|congruence]. Qed.

Lemma Touches_updateFaults f :
  fp_faults fp = true → Touches fp (updateFaults f).
Proof. intros E w. repeat split; intros E'; first [reflexivity|congruence]. Qed.

Lemma Touches_updateAlerts f :
  fp_alerts fp = true → Touches fp (updateAlerts f).
Proof. intros E w. repeat split; intros E'; first [reflexivity|congruence]. Qed.

Lemma Touches_setToasts f : fp_toasts fp = true → Touches fp (setToasts f).
Proof. intros E w. repeat split; intros E'; first [reflexivity|congruence]. Qed.

Lemma Touches_setLiveCameraIds f :
  fp_live fp = true → Touches fp (setLiveCameraIds f).
Proof. intros E w. repeat split; intros E'; first [reflexivity|congruence]. Qed.

Lemma Touches_addToast type title message duration :
  fp_toasts fp = true → Touches fp (addToast o type title message duration).
Proof.
  intros E. apply Touches_bind; [apply Touches_generateId|intros id].
  by apply Touches_setToasts.
Qed.

Lemma Touches_openFault cam now : Touches fp (openFault o cam now).
Proof.
  apply Touches_bind; [apply Touches_generateId|intros id]. apply Touches_ret.
Qed.

End TouchesPrimitives.

Ltac touches_step :=
  lazymatch goal with
  | |- Touches _ (mret _) => apply Touches_ret
  | |- Touches _ (_ ≫= _) => apply Touches_bind; [|intros ?]
  | |- Touches _ get => apply Touches_get
  | |- Touches _ (mathRandom _) => apply Touches_mathRandom
  | |- Touches _ (generateId _) => apply Touches_generateId
  | |- Touches _ (openFault _ _ _) => apply Touches_openFault
  | |- Touches _ (addToast _ _ _ _ _) =>
      apply Touches_addToast; assumption || reflexivity
  | |- Touches _ (updateCameras _) =>
      apply Touches_updateCameras; assumption || reflexivity
  | |- Touches _ (updateNvrs _) =>
      apply Touches_updateNvrs; assumption || reflexivity
  | |- Touches _ (updateFaults _) =>
      apply Touches_updateFaults; assumption || reflexivity
  | |- Touches _ (updateAlerts _) =>
      apply Touches_updateAlerts; assumption || reflexivity
  | |- Touches _ (setToasts _) =>
      apply Touches_setToasts; assumption || reflexivity
  | |- Touches _ (setLiveCameraIds _) =>
      apply Touches_setLiveCameraIds; assumption || reflexivity
  | |- Touches _ (if ?b then _ else _) => destruct b
  | |- Touches _ (match ?x with _ => _ end) => destruct x
  end.

Ltac touches := repeat touches_step.

Section TouchesLoops.

Variable o : Oracle.
Variable fp : Footprint.

Lemma Touches_rollCamera now nvrs0 cam loc :
  fp_nvrs fp = true → Touches fp (rollCamera o now nvrs0 cam loc).
Proof. intros E. unfold rollCamera. touches. Qed.

Lemma Touches_rollCameras now nvrs0 cams : ∀ loc,
  fp_nvrs fp = true → Touches fp (rollCameras o now nvrs0 cams loc).
Proof.
  induction cams as [|cam rest IH]; intros loc E; cbn [rollCameras].
  - touches.
  - apply Touches_bind; [by apply Touches_rollCamera|intros [cam' loc']].
    apply Touches_bind; [by apply IH|intros [rest' loc'']]. touches.
Qed.

Lemma Touches_openMissing now cams : ∀ nextFaults,
  Touches fp (openMissing o now cams nextFaults).
Proof.
  induction cams as [|cam rest IH]; intros nextFaults; cbn [openMissing].
  - touches.
  - destruct (negb _); [|apply IH].
    apply Touches_bind; [touches|intros f]. apply IH.
Qed.

Lemma Touches_nvrFailureFaults now prevCameras chs : ∀ nextFaults,
  Touches fp (nvrFailureFaults o now prevCameras chs nextFaults).
Proof.
  induction chs as [|ch rest IH]; intros nextFaults; cbn [nvrFailureFaults].
  - touches.
  - apply Touches_bind; [apply Touches_openMissing|intros nf]. apply IH.
Qed.

Lemma Touches_faultSteps now chs : ∀ nextFaults,
  Touches fp (faultSteps o now chs nextFaults).
Proof.
  induction chs as [|ch rest IH]; intros nextFaults; cbn [faultSteps].
  - touches.
  - apply Touches_bind; [unfold faultStep; touches|intros nf]. apply IH.
Qed.

Lemma Touches_nvrFailureAlerts now chs :
  Touches fp (nvrFailureAlerts o now chs).
Proof.
  induction chs as [|ch rest IH]; cbn [nvrFailureAlerts]; [touches|].
  apply Touches_bind; [touches|intros id].
  apply Touches_bind; [apply IH|intros more]. touches.
Qed.

Lemma Touches_failureAlerts now chs : Touches fp (failureAlerts o now chs).
Proof.
  induction chs as [|ch rest IH]; cbn [failureAlerts]; [touches|].
  destruct (ch_camera ch); [|apply IH].
  apply Touches_bind; [touches|intros id].
  apply Touches_bind; [apply IH|intros more]. touches.
Qed.

Lemma Touches_generateCameras now nvrForm newNvrId isSuccess count : ∀ i,
  Touches fp (generateCameras o now nvrForm newNvrId isSuccess count i).
Proof.
  induction count as [|count IH]; intros i; cbn [generateCameras]; [touches|].
  apply Touches_bind; [touches|intros id].
  apply Touches_bind; [apply IH|intros more]. touches.
Qed.

Lemma Touches_discoverCameras now newNvrId count : ∀ i,
  Touches fp (discoverCameras o now newNvrId count i).
Proof.
  induction count as [|count IH]; intros i; cbn [discoverCameras]; [touches|].
  apply Touches_bind; [touches|intros id].
  apply Touches_bind; [apply IH|intros more]. touches.
Qed.

Lemma Touches_openFaults now cams : Touches fp (openFaults o now cams).
Proof.
  induction cams as [|cam rest IH]; cbn [openFaults]; [touches|].
  apply Touches_bind; [touches|intros f].
  apply Touches_bind; [apply IH|intros more]. touches.
Qed.

End TouchesLoops.

Lemma Touches_tick o now : Touches fp_tick (tick o now).
Proof.
  unfold tick, tickUpdater.
  apply Touches_bind; [touches|intros w0].
  apply Touches_bind; [|intros [updated chs]; touches].
  apply Touches_bind; [unfold nvrFailure; touches|intros early].
  destruct early as [result|]; [touches|].
  apply Touches_bind; [by apply Touches_rollCameras|intros [nextCameras loc]].
  destruct (updatesOccurred loc); [|touches].
  apply Touches_bind; [touches|intros _].
  apply Touches_bind; [|intros _].
  { unfold syncFaults. apply Touches_bind; [touches|intros w1].
    apply Touches_bind; [apply Touches_nvrFailureFaults|intros nf].
    apply Touches_bind; [apply Touches_faultSteps|intros nf']. touches. }
  apply Touches_bind; [|intros _; touches].
  unfold syncAlerts. apply Touches_bind; [apply Touches_nvrFailureAlerts|intros a1].
  apply Touches_bind; [apply Touches_failureAlerts|intros a2]. touches.
Qed.

Lemma Touches_handleAnalysisResult o now cameraId result frame :
  Touches fp_analysis (handleAnalysisResult o now cameraId result frame).
Proof. unfold handleAnalysisResult. touches. Qed.

Lemma Touches_handleReconnect o now cameraId :
  Touches fp_reconnect (handleReconnect o now cameraId).
Proof. unfold handleReconnect. touches. Qed.

Lemma Touches_executeDeleteNvr o now deleteNvrId :
  Touches fp_delete (executeDeleteNvr o now deleteNvrId).
Proof. unfold executeDeleteNvr. touches. Qed.

Lemma Touches_updateExistingNvr o now nvrForm editing isSuccess initialStatus :
  Touches fp_edit
    (updateExistingNvr o now nvrForm editing isSuccess initialStatus).
Proof. unfold updateExistingNvr. touches. Qed.

Lemma Touches_addNewNvr o now nvrForm isSuccess initialStatus :
  Touches fp_save (addNewNvr o now nvrForm isSuccess initialStatus).
Proof.
  unfold addNewNvr.
  apply Touches_bind; [touches|intros ipSegment].
  apply Touches_bind; [touches|intros _].
  apply Touches_bind; [apply Touches_generateCameras|intros newCameras].
  apply Touches_bind; [touches|intros _].
  apply Touches_bind; [|intros _; touches].
  destruct (negb isSuccess); [|touches].
  apply Touches_bind; [apply Touches_openFaults|intros nf]. touches.
Qed.

Lemma Touches_weaken {A} (fp fp' : Footprint) (m : M A) :
  (fp_cameras fp = true → fp_cameras fp' = true) →
  (fp_nvrs fp = true → fp_nvrs fp' = true) →
  (fp_faults fp = true → fp_faults fp' = true) →
  (fp_alerts fp = true → fp_alerts fp' = true) →
  (fp_toasts fp = true → fp_toasts fp' = true) →
  (fp_live fp = true → fp_live fp' = true) →
  Touches fp m → Touches fp' m.
Proof.
  intros H1 H2 H3 H4 H5 H6 Hm w. destruct (Hm w) as (A1&A2&A3&A4&A5&A6).
  repeat split; intros E;
    [ apply A1; destruct (fp_cameras fp); [rewrite H1 in E|]; done
    | apply A2; destruct (fp_nvrs fp); [rewrite H2 in E|]; done
    | apply A3; destruct (fp_faults fp); [rewrite H3 in E|]; done
    | apply A4; destruct (fp_alerts fp); [rewrite H4 in E|]; done
    | apply A5; destruct (fp_toasts fp); [rewrite H5 in E|]; done
    | apply A6; destruct (fp_live fp); [rewrite H6 in E|]; done ].
Qed.

Lemma Touches_handleSaveNvr o now nvrForm isEditingNvr :
  Touches fp_save (handleSaveNvr o now nvrForm isEditingNvr).
Proof.
  unfold handleSaveNvr.
  destruct (_ || _); [touches|].
  apply Touches_bind; [touches|intros r].
  assert (He : ∀ editing s st,
            Touches fp_save (updateExistingNvr o now nvrForm editing s st)).
  { intros. eapply Touches_weaken; [..|apply Touches_updateExistingNvr];
      cbn; congruence. }
  destruct isEditingNvr as [editing|]; [|apply Touches_addNewNvr].
  destruct (bool_decide _); [apply Touches_addNewNvr|apply He].
Qed.

Lemma Touches_addWebcam o now : Touches fp_webcam (addWebcam o now).
Proof. unfold addWebcam. touches. Qed.

Lemma Touches_handlePinCamera o cameraId :
  Touches fp_pin (handlePinCamera o cameraId).
Proof. unfold handlePinCamera. touches. Qed.

Lemma Touches_handleUnpinCamera cameraId :
  Touches fp_unpin (handleUnpinCamera cameraId).
Proof. unfold handleUnpinCamera. touches. Qed.

Lemma Touches_simulateNetworkDiscovery o now :
  Touches fp_discovery (simulateNetworkDiscovery o now).
Proof.
  unfold simulateNetworkDiscovery.
  apply Touches_bind; [touches|intros w0].
  apply Touches_bind; [touches|intros _].
  apply Touches_bind; [apply Touches_discoverCameras|intros newCameras].
  touches.
Qed.

Lemma Touches_users o :
  (∀ confirmed userId users,
     Touches fp_users (handleDeleteUser o confirmed userId users))
  ∧ (∀ userId users, Touches fp_users (toggleUserStatus o userId users))
  ∧ (∀ userForm editingUserId users,
       Touches fp_users (handleSaveUser o userForm editingUserId users)).
Proof.
  split; [|split]; intros.
  - unfold handleDeleteUser. touches.
  - unfold toggleUserStatus. touches.
  - unfold handleSaveUser. touches.
Qed.

(** ** The live view *)

Lemma slice_nonneg {A} (arr : list A) (start n : Z) :
  (0 ≤ start)%Z → (0 ≤ n)%Z →
  slice arr start (start + n)
  = take (Z.to_nat n) (drop (Z.to_nat start) arr).
Proof.
  intros Hs Hn. unfold slice.
  rewrite (proj2 (Z.ltb_ge start 0)) by lia.
  rewrite (proj2 (Z.ltb_ge (start + n) 0)) by lia.
  destruct (decide (Z.of_nat (length arr) ≤ start)%Z) as [Hbig|Hsmall].
  - rewrite !Z.min_r by lia. rewrite Z.sub_diag. cbn [Z.to_nat take].
    rewrite (drop_ge arr (Z.to_nat start)) by lia. by rewrite take_nil.
  - rewrite (Z.min_l start) by lia.
    destruct (decide (start + n ≤ Z.of_nat (length arr))%Z) as [Hfit|Hover].
    + rewrite Z.min_l by lia. f_equal. lia.
    + rewrite Z.min_r by lia.
      rewrite !take_ge; [done|rewrite length_drop; lia..].
Qed.

Lemma length_slice_to {A} (arr : list A) (n : Z) :
  (0 ≤ n)%Z → (length (slice arr 0 n) ≤ Z.to_nat n)%nat.
Proof.
  intros Hn. pose proof (slice_nonneg arr 0 n ltac:(lia) Hn) as E.
  rewrite Z.add_0_l in E. rewrite E, length_take. lia.
Qed.

Lemma liveWithinCap_frame {A} (fp : Footprint) (m : M A) (w : World) :
  fp_live fp = false → Touches fp m →
  liveWithinCap w → liveWithinCap (snd (m w)).
Proof.
  intros Hfp Hm Hw. destruct (Hm w) as (_&_&_&_&_&Hlive).
  unfold liveWithinCap. by rewrite Hlive.
Qed.

Lemma addWebcam_live o now w :
  ((MAX_LIVE_CAMERAS ≤ length (liveCameraIds w))%nat
   ∧ liveCameraIds (exec (addWebcam o now) w) = liveCameraIds w)
  ∨ ((length (liveCameraIds w) < MAX_LIVE_CAMERAS)%nat
     ∧ ∃ id, liveCameraIds (exec (addWebcam o now) w)
             = id :: liveCameraIds w).
Proof.
  unfold exec, addWebcam. rewrite bind_run. cbn [get fst snd].
  case_bool_decide as Hfull; [by left|right].
  split; [lia|]. eexists. reflexivity.
Qed.

Lemma handlePinCamera_live o cameraId w :
  ((MAX_LIVE_CAMERAS ≤ length (liveCameraIds w))%nat
   ∧ liveCameraIds (exec (handlePinCamera o cameraId) w) = liveCameraIds w)
  ∨ ((length (liveCameraIds w) < MAX_LIVE_CAMERAS)%nat
     ∧ liveCameraIds (exec (handlePinCamera o cameraId) w)
       = cameraId :: liveCameraIds w).
Proof.
  unfold exec, handlePinCamera. rewrite bind_run. cbn [get fst snd].
  case_bool_decide as Hfull; [by left|right].
  split; [lia|]. reflexivity.
Qed.

(** ** The analytics dashboard *)

Lemma distinct_spec xs : ∀ seen,
  NoDup (distinct seen xs)
  ∧ (∀ x, x ∈ distinct seen xs ↔ x ∈ xs ∧ x ∉ seen).
Proof.
  induction xs as [|x xs IH]; intros seen; cbn [distinct].
  - split; [constructor|]. intros y. rewrite elem_of_nil. tauto.
  - case_bool_decide as Hx.
    + destruct (IH seen) as [Hnd Hin]. split; [done|].
      intros y. rewrite Hin, elem_of_cons.
      split; [tauto|]. intros [[->|Hy] Hs]; tauto.
    + destruct (IH (x :: seen)) as [Hnd Hin]. split.
      * constructor; [|done]. rewrite Hin, elem_of_cons. tauto.
      * intros y. rewrite !elem_of_cons, Hin, elem_of_cons.
        split.
        -- intros [->|[Hy Hs]]; tauto.
        -- intros [[->|Hy] Hs]; [tauto|].
           destruct (decide (y = x)) as [->|Hne]; tauto.
Qed.

Lemma length_distinct xs : ∀ seen,
  (length (distinct seen xs) ≤ length xs)%nat.
Proof.
  induction xs as [|x xs IH]; intros seen; cbn [distinct length]; [done|].
  case_bool_decide; [specialize (IH seen)|specialize (IH (x :: seen))];
    cbn [length]; lia.
Qed.

(** X24.  The three counters of the status panel: every camera is counted as
    online or as offline, never as both; [uniqueNVRs] is the number of
    different NVR ids among the cameras, so it is at most the number of
    cameras and it is 0 only when there is no camera. *)
Theorem status_counters_partition_the_cameras (cams : list Camera) :
  (onlineCameras cams + offlineCameras cams = totalCameras cams)%nat
  ∧ (∃ ids, NoDup ids
       ∧ (∀ N, N ∈ ids ↔ ∃ c, c ∈ cams ∧ cam_nvrId c = N)
       ∧ uniqueNVRs cams = length ids)
  ∧ (uniqueNVRs cams ≤ totalCameras cams)%nat
  ∧ (uniqueNVRs cams = 0%nat ↔ cams = []).
Proof.
  unfold onlineCameras, offlineCameras, totalCameras, uniqueNVRs.
  split; [|split; [|split]].
  - induction cams as [|c cams IH]; [done|].
    rewrite !filter_cons. destruct (isOnline c) eqn:E.
    + rewrite decide_True, decide_False by done. cbn [length]. lia.
    + rewrite decide_False, decide_True by done. cbn [length]. lia.
  - destruct (distinct_spec (cam_nvrId <$> cams) []) as [Hnd Hin].
    exists (distinct [] (cam_nvrId <$> cams)). split; [done|]. split; [|done].
    intros N. rewrite Hin, list_elem_of_fmap, elem_of_nil.
    split.
    + intros [(c & -> & Hc) _]. eauto.
    + intros (c & Hc & <-). split; [eauto|tauto].
  - etrans; [apply length_distinct|]. by rewrite length_fmap.
  - destruct cams as [|c cams]; [done|].
    rewrite fmap_cons. cbn [distinct].
    rewrite bool_decide_eq_false_2 by apply not_elem_of_nil.
    cbn [length]. split; [lia|done].
Qed.

(** *** The two sorted lists *)

Section SortBy.

Context {A : Type} (key : A → Z).

Let cmp (a b : A) : Z := (key b - key a)%Z.

Lemma insertBy_perm x (l : list A) : insertBy cmp x l ≡ₚ x :: l.
Proof.
  induction l as [|y l IH]; cbn [insertBy]; [done|].
  case_match; [|done]. rewrite IH. apply Permutation_swap.
Qed.

Lemma sortBy_perm (l : list A) : sortBy cmp l ≡ₚ l.
Proof.
  induction l as [|x l IH]; cbn [sortBy]; [done|].
  by rewrite insertBy_perm, IH.
Qed.

Lemma insertBy_sorted x (l : list A) :
  StronglySorted (λ a b, key b ≤ key a)%Z l →
  StronglySorted (λ a b, key b ≤ key a)%Z (insertBy cmp x l).
Proof.
  induction 1 as [|y l Hl IH Hy]; cbn [insertBy].
  - repeat constructor.
  - destruct (0 <? cmp x y)%Z eqn:E.
    + apply Z.ltb_lt in E. unfold cmp in E. constructor; [done|].
      rewrite insertBy_perm. constructor; [lia|done].
    + apply Z.ltb_ge in E. unfold cmp in E.
      constructor; [by constructor|].
      constructor; [lia|].
      eapply Forall_impl; [exact Hy|]. cbn. intros z Hz. lia.
Qed.

Lemma sortBy_sorted (l : list A) :
  StronglySorted (λ a b, key b ≤ key a)%Z (sortBy cmp l).
Proof.
  induction l as [|x l IH]; cbn [sortBy]; [constructor|].
  by apply insertBy_sorted.
Qed.

Lemma insertBy_stable t x (l : list A) :
  filter (λ a, key a = t) (insertBy cmp x l)
  = filter (λ a, key a = t) (x :: l).
Proof.
  induction l as [|y l IH]; cbn [insertBy]; [done|].
  destruct (0 <? cmp x y)%Z eqn:E; [|done].
  apply Z.ltb_lt in E. unfold cmp in E.
  rewrite filter_cons, IH, !filter_cons.
  repeat case_decide; try done; lia.
Qed.

Lemma sortBy_stable t (l : list A) :
  filter (λ a, key a = t) (sortBy cmp l) = filter (λ a, key a = t) l.
Proof.
  induction l as [|x l IH]; cbn [sortBy]; [done|].
  rewrite insertBy_stable, !filter_cons, IH. done.
Qed.

End SortBy.

(** X25.  The fault list of the report and the alert list of the dashboard hold
    the records of the collection, each as often as the collection does,
    the latest first ([timeOff], respectively [timestamp], never increases
    along the list); records of the same time keep the order they have in
    the collection. *)
Theorem report_lists_are_sorted_latest_first (fs : list FaultRecord)
    (als : list Alert) :
  (faultList fs ≡ₚ fs
   ∧ StronglySorted (λ a b, timeOff b ≤ timeOff a)%Z (faultList fs)
   ∧ ∀ t, filter (λ f, timeOff f = t) (faultList fs)
          = filter (λ f, timeOff f = t) fs)
  ∧ (activeAlerts als ≡ₚ als
     ∧ StronglySorted (λ a b, a_timestamp b ≤ a_timestamp a)%Z
         (activeAlerts als)
     ∧ ∀ t, filter (λ a, a_timestamp a = t) (activeAlerts als)
            = filter (λ a, a_timestamp a = t) als).
Proof.
  unfold faultList, activeAlerts. split.
  - split; [apply (sortBy_perm timeOff)|].
    split; [apply (sortBy_sorted timeOff)|].
    intros t. apply (sortBy_stable timeOff).
  - split; [apply (sortBy_perm a_timestamp)|].
    split; [apply (sortBy_sorted a_timestamp)|].
    intros t. apply (sortBy_stable a_timestamp).
Qed.

(** *** Durations *)

Lemma append_not_empty (s t : string) : t ≠ "" → s +:+ t ≠ "".
Proof. destruct s; [done|]. discriminate. Qed.

Lemma append_assoc (s1 s2 s3 : string) :
  (s1 +:+ s2) +:+ s3 = s1 +:+ s2 +:+ s3.
Proof.
  induction s1 as [|c s1 IH]; [done|].
  change (String c ((s1 +:+ s2) +:+ s3) = String c (s1 +:+ s2 +:+ s3)).
  by rewrite IH.
Qed.

Lemma length_two_digits (m : Z) :
  (0 ≤ m < 100)%Z → String.length (padStart 2 "0" (pretty m)) = 2%nat.
Proof.
  intros [H0 H1]. destruct m as [|p|p]; [reflexivity| |lia].
  do 7 (destruct p as [p|p|]; try lia; try reflexivity).
Qed.

(** X26.  The duration column of the report.  For an interval that does not end
    before it starts (the end is [end], or the current time for a fault that
    is still open) the label is [HH:MM:SS] of the whole seconds of the
    interval: minutes and seconds are below 60, and below 100 hours the
    label has exactly eight characters. *)
Theorem exact_duration_is_hours_minutes_seconds (now start : Z)
    (end_ : option Z) :
  let stop :=
    match end_ with
    | Some e => if (e =? 0)%Z then now else e
    | None => now
    end in
  (start ≤ stop)%Z →
  ∃ h m s,
    getExactDurationStr now start end_
    = padStart 2 "0" (pretty h) +:+ ":" +:+ padStart 2 "0" (pretty m)
        +:+ ":" +:+ padStart 2 "0" (pretty s)
    ∧ (0 ≤ h)%Z ∧ (0 ≤ m < 60)%Z ∧ (0 ≤ s < 60)%Z
    ∧ (h * 3600 + m * 60 + s = (stop - start) / 1000)%Z
    ∧ ((h < 100)%Z →
       String.length (getExactDurationStr now start end_) = 8%nat).
Proof.
  intros stop Hle. unfold getExactDurationStr. fold stop.
  set (total := ((stop - start) / 1000)%Z).
  assert (Htotal : (0 ≤ total)%Z) by (apply Z.div_pos; lia).
  rewrite !Z.rem_mod_nonneg by lia.
  exists (total / 3600)%Z, (total `mod` 3600 / 60)%Z, (total `mod` 60)%Z.
  split; [done|].
  assert (Hh : (0 ≤ total / 3600)%Z) by (apply Z.div_pos; lia).
  assert (Hm : (0 ≤ total `mod` 3600 / 60 < 60)%Z).
  { pose proof (Z.mod_pos_bound total 3600 ltac:(lia)).
    split; [apply Z.div_pos; lia|]. apply Z.div_lt_upper_bound; lia. }
  assert (Hs : (0 ≤ total `mod` 60 < 60)%Z)
    by (apply Z.mod_pos_bound; lia).
  split; [done|]. split; [done|]. split; [done|]. split.
  - clearbody total. clear -Htotal. Z.div_mod_to_equations. lia.
  - intros Hh'. rewrite !length_append.
    rewrite !length_two_digits by lia. reflexivity.
Qed.

Lemma exact_duration_is_hours_minutes_seconds_witness :
  (1000 ≤ 3726500)%Z
  ∧ ∃ h m s,
      getExactDurationStr 3726500 1000 None
      = padStart 2 "0" (pretty h) +:+ ":" +:+ padStart 2 "0" (pretty m)
          +:+ ":" +:+ padStart 2 "0" (pretty s)
      ∧ (0 ≤ h)%Z ∧ (0 ≤ m < 60)%Z ∧ (0 ≤ s < 60)%Z
      ∧ (h * 3600 + m * 60 + s = (3726500 - 1000) / 1000)%Z
      ∧ ((h < 100)%Z →
         String.length (getExactDurationStr 3726500 1000 None) = 8%nat).
Proof.
  assert (H : (1000 ≤ 3726500)%Z) by lia.
  split; [exact H|].
  exact (exact_duration_is_hours_minutes_seconds 3726500 1000 None H).
Defined.

(** ** The camera tile *)

(** X19.  The label of the time since the last status change, for a time that is
    not negative: the whole minutes split into days, hours below 24 and
    minutes below 60; the days and the hours are shown only when they are
    not 0, the minutes always.  So the label is never empty and the
    [< 1m] of the last line is never shown: under one minute the label is
    [0m]. *)
Theorem duration_label_always_shows_minutes (diff : Z) :
  (0 ≤ diff)%Z →
  ∃ d h m,
    (0 ≤ d)%Z ∧ (0 ≤ h < 24)%Z ∧ (0 ≤ m < 60)%Z
    ∧ (d * 1440 + h * 60 + m = diff / 60000)%Z
    ∧ durationString diff
      = (if (0 <? d)%Z then pretty d +:+ "d " else "")
          +:+ (if (0 <? h)%Z then pretty h +:+ "h " else "")
          +:+ pretty m +:+ "m"
    ∧ ((diff < 60000)%Z → durationString diff = "0m").
Proof.
  intros Hdiff. unfold durationString.
  rewrite !Z.rem_mod_nonneg by lia.
  change (1000 * 60 * 60 * 24)%Z with 86400000%Z.
  change (1000 * 60 * 60)%Z with 3600000%Z.
  change (1000 * 60)%Z with 60000%Z.
  set (d := (diff / 86400000)%Z).
  set (h := (diff `mod` 86400000 / 3600000)%Z).
  set (m := (diff `mod` 3600000 / 60000)%Z).
  assert (Hd : (0 ≤ d)%Z) by (apply Z.div_pos; lia).
  assert (Hh : (0 ≤ h < 24)%Z).
  { pose proof (Z.mod_pos_bound diff 86400000 ltac:(lia)).
    split; [apply Z.div_pos; lia|]. apply Z.div_lt_upper_bound; lia. }
  assert (Hm : (0 ≤ m < 60)%Z).
  { pose proof (Z.mod_pos_bound diff 3600000 ltac:(lia)).
    split; [apply Z.div_pos; lia|]. apply Z.div_lt_upper_bound; lia. }
  assert (Hstr : ∀ s : string,
            (if bool_decide (s +:+ pretty m +:+ "m" = "") then "< 1m"
             else s +:+ pretty m +:+ "m") = s +:+ pretty m +:+ "m").
  { intros s. rewrite bool_decide_eq_false_2; [done|].
    apply append_not_empty, append_not_empty. done. }
  exists d, h, m. split; [done|]. split; [done|]. split; [done|].
  assert (Esum : (d * 1440 + h * 60 + m = diff / 60000)%Z).
  { subst d h m. Z.div_mod_to_equations. lia. }
  split; [done|]. split.
  - destruct (0 <? d)%Z, (0 <? h)%Z; cbn [String.append]; rewrite Hstr;
      rewrite ?append_assoc; reflexivity.
  - intros Hsmall.
    assert (d = 0 ∧ h = 0 ∧ m = 0)%Z as (-> & -> & ->).
    { subst d h m. Z.div_mod_to_equations. lia. }
    reflexivity.
Qed.

Lemma duration_label_always_shows_minutes_witness :
  (0 ≤ 30000)%Z
  ∧ ∃ d h m,
      (0 ≤ d)%Z ∧ (0 ≤ h < 24)%Z ∧ (0 ≤ m < 60)%Z
      ∧ (d * 1440 + h * 60 + m = 30000 / 60000)%Z
      ∧ durationString 30000
        = (if (0 <? d)%Z then pretty d +:+ "d " else "")
            +:+ (if (0 <? h)%Z then pretty h +:+ "h " else "")
            +:+ pretty m +:+ "m"
      ∧ ((30000 < 60000)%Z → durationString 30000 = "0m").
Proof.
  assert (H : (0 ≤ 30000)%Z) by lia.
  split; [exact H|].
  exact (duration_label_always_shows_minutes 30000 H).
Defined.

(** ** Pages of the live view *)

Lemma totalPages_ceiling (w : World) :
  totalPages w
  = Z.max 1 ((Z.of_nat (length (liveCameras w)) + 31) / 32).
Proof.
  unfold totalPages, CAMERAS_PER_PAGE.
  set (n := Z.of_nat (length (liveCameras w))).
  assert (Hn : (0 ≤ n)%Z) by lia. clearbody n.
  assert (E : Qceiling (inject_Z n / inject_Z 32) = ((n + 31) / 32)%Z).
  { unfold Qceiling, Qfloor, Qdiv, Qmult, Qinv, Qopp, inject_Z. cbn.
    rewrite Z.mul_1_r. Z.div_mod_to_equations. lia. }
  rewrite E. destruct (_ =? 0)%Z eqn:E0.
  - apply Z.eqb_eq in E0. lia.
  - apply Z.eqb_neq in E0.
    assert (0 ≤ (n + 31) / 32)%Z by (apply Z.div_pos; lia). lia.
Qed.

Lemma paginatedCameras_chunk (p : nat) (w : World) :
  paginatedCameras (Z.of_nat (S p)) w
  = take 32 (drop (32 * p) (liveCameras w)).
Proof.
  unfold paginatedCameras, CAMERAS_PER_PAGE.
  rewrite slice_nonneg by lia. f_equal. f_equal. lia.
Qed.

Lemma chunks_concat {A} (k : nat) : ∀ (l : list A) (from : nat),
  (length l ≤ 32 * (from + k))%nat →
  mjoin ((λ p, take 32 (drop (32 * p) l)) <$> seq from k)
  = drop (32 * from) l.
Proof.
  induction k as [|k IH]; intros l from Hlen.
  - rewrite drop_ge by lia. done.
  - cbn [seq]. rewrite fmap_cons.
    change (take 32 (drop (32 * from) l)
            ++ mjoin ((λ p, take 32 (drop (32 * p) l)) <$> seq (S from) k)
            = drop (32 * from) l).
    rewrite (IH l (S from)) by lia.
    replace (32 * S from)%nat with (32 * from + 32)%nat by lia.
    rewrite <- drop_drop. apply take_drop.
Qed.

(** X22.  The pages of the live monitor.  There is at least one page; the pages
    1 to [totalPages], one after the other, are the live cameras, each of
    them once and in their order; a page holds at most 32 cameras and a page
    after the last one is empty. *)
Theorem pages_partition_the_live_cameras (w : World) :
  (1 ≤ totalPages w)%Z
  ∧ mjoin ((λ p, paginatedCameras (Z.of_nat p) w)
             <$> seq 1 (Z.to_nat (totalPages w)))
    = liveCameras w
  ∧ (∀ p, (1 ≤ p)%Z →
       (length (paginatedCameras p w) ≤ 32)%nat
       ∧ ((totalPages w < p)%Z → paginatedCameras p w = [])).
Proof.
  rewrite totalPages_ceiling.
  set (n := length (liveCameras w)).
  split; [lia|]. split.
  - rewrite <- (fmap_S_seq 0), <- list_fmap_compose.
    erewrite list_fmap_ext; [|intros i p _; apply (paginatedCameras_chunk p w)].
    rewrite chunks_concat; [done|]. fold n.
    assert (Z.of_nat n ≤ 32 * Z.max 1 ((Z.of_nat n + 31) / 32))%Z
      by (Z.div_mod_to_equations; lia).
    lia.
  - intros p Hp.
    replace p with (Z.of_nat (S (Z.to_nat (p - 1)))) by lia.
    rewrite paginatedCameras_chunk. split.
    + rewrite length_take. lia.
    + intros Hlast. rewrite drop_ge; [done|]. fold n.
      assert (Z.of_nat n ≤ 32 * Z.max 1 ((Z.of_nat n + 31) / 32))%Z
        by (Z.div_mod_to_equations; lia).
      lia.
Qed.

Lemma length_liveCameras (w : World) :
  NoDup (cam_id <$> cameras w) →
  (length (liveCameras w) ≤ length (liveCameraIds w))%nat.
Proof.
  intros Hnd. unfold liveCameras.
  set (live := filter _ _).
  assert (Hsub : cam_id <$> live ⊆+ liveCameraIds w).
  { apply NoDup_submseteq.
    - eapply sublist_NoDup; [exact Hnd|apply fmap_sublist, sublist_filter].
    - intros i (c & -> & Hc)%list_elem_of_fmap.
      by apply list_elem_of_filter in Hc as [Hc _]. }
  apply submseteq_length in Hsub. by rewrite length_fmap in Hsub.
Qed.

(** X23.  With cameras of different ids and a live view within its capacity, the
    live cameras are at most as many as the live ids, so they fit on one
    page: there is one page, and it shows every live camera. *)
Theorem live_view_fits_one_page (w : World) :
  NoDup (cam_id <$> cameras w) →
  liveWithinCap w →
  (length (liveCameras w) ≤ length (liveCameraIds w))%nat
  ∧ totalPages w = 1%Z
  ∧ paginatedCameras 1 w = liveCameras w.
Proof.
  intros Hnd Hcap. pose proof (length_liveCameras w Hnd) as Hlen.
  unfold liveWithinCap, MAX_LIVE_CAMERAS in Hcap.
  split; [done|]. split.
  - rewrite totalPages_ceiling. Z.div_mod_to_equations. lia.
  - change 1%Z with (Z.of_nat 1). rewrite paginatedCameras_chunk.
    rewrite drop_0, take_ge; [done|lia].
Qed.

Lemma live_view_fits_one_page_witness :
  NoDup (cam_id <$> cameras site)
  ∧ liveWithinCap site
  ∧ (length (liveCameras site) ≤ length (liveCameraIds site))%nat
  ∧ totalPages site = 1%Z
  ∧ paginatedCameras 1 site = liveCameras site.
Proof.
  assert (H1 : NoDup (cam_id <$> cameras site)) 
    by (apply (bool_decide_unpack _); vm_compute; exact I).
  assert (H2 : liveWithinCap site) by (vm_compute; lia).
  split; [exact H1|]. split; [exact H2|].
  exact (live_view_fits_one_page site H1 H2).
Defined.

(** ** The analysis service *)

Lemma substring_all (s : string) : String.substring 0 (String.length s) s = s.
Proof.
  induction s as [|c s IH]; [done|].
  change (String c (String.substring 0 (String.length s) s) = String c s).
  by rewrite IH.
Qed.

Lemma strip_prefix_app (pre s : string) : strip_prefix pre (pre +:+ s) = Some s.
Proof.
  unfold strip_prefix.
  induction pre as [|c pre IH].
  - change ("" +:+ s) with s. destruct s as [|c s]; [done|].
    change (String.prefix "" (String c s)) with true. cbv iota.
    rewrite Nat.sub_0_r.
    change (String.length "") with 0%nat. by rewrite substring_all.
  - change (String c pre +:+ s) with (String c (pre +:+ s)).
    cbn [String.prefix]. destruct (Ascii.ascii_dec c c) as [_|Hc]; [|done].
    destruct (String.prefix pre (pre +:+ s)); [|done].
    exact IH.
Qed.

Lemma strip_prefix_extend (a b s : string) :
  String.prefix a s = false → strip_prefix (a +:+ b) s = None.
Proof.
  unfold strip_prefix. intros Ha.
  enough (String.prefix (a +:+ b) s = false) as -> by done.
  revert s Ha. induction a as [|c a IH]; intros s Ha.
  - by destruct s.
  - destruct s as [|c' s]; [done|].
    change (String c a +:+ b) with (String c (a +:+ b)).
    cbn [String.prefix] in *.
    destruct (Ascii.ascii_dec c c'); [by apply IH|done].
Qed.

(** The header of a data URL of one of the three image types is cut off;
    a frame that does not begin with [data:image/] is left as it is. *)
Lemma cleanBase64_spec (s : string) :
  cleanBase64 ("data:image/png;base64," +:+ s) = s
  ∧ cleanBase64 ("data:image/jpeg;base64," +:+ s) = s
  ∧ cleanBase64 ("data:image/webp;base64," +:+ s) = s
  ∧ (String.prefix "data:image/" s = false → cleanBase64 s = s).
Proof.
  unfold cleanBase64. split; [|split; [|split]].
  - by rewrite strip_prefix_app.
  - rewrite (strip_prefix_extend "data:image/p" "ng;base64,") by reflexivity.
    by rewrite strip_prefix_app.
  - rewrite (strip_prefix_extend "data:image/p" "ng;base64,") by reflexivity.
    rewrite (strip_prefix_extend "data:image/j" "peg;base64,") by reflexivity.
    by rewrite strip_prefix_app.
  - intros Hs.
    assert (E1 : strip_prefix "data:image/png;base64," s = None)
      by exact (strip_prefix_extend "data:image/" "png;base64," s Hs).
    assert (E2 : strip_prefix "data:image/jpeg;base64," s = None)
      by exact (strip_prefix_extend "data:image/" "jpeg;base64," s Hs).
    assert (E3 : strip_prefix "data:image/webp;base64," s = None)
      by exact (strip_prefix_extend "data:image/" "webp;base64," s Hs).
    by rewrite E1, E2, E3.
Qed.

Lemma onError_fallback nowIso errorMessage :
  ∃ summary anomaly,
    onError nowIso errorMessage = fallback nowIso summary anomaly
    ∧ anomaly ∈ ["Rate Limit Reached"; "System Error"].
Proof.
  unfold onError. destruct (_ || _).
  - eexists _, _. split; [done|]. apply list_elem_of_here.
  - eexists _, _. split; [done|].
    apply list_elem_of_further, list_elem_of_here.
Qed.

Lemma analyzeFrame_fallback (apiKey : option string)
    (generateContent : string → RemoteOutcome)
    (parseResponse : string → AnalysisData + string)
    (nowIso base64Image : string) :
  (∀ text data,
     generateContent (cleanBase64 base64Image) = Responded (Some text) →
     parseResponse text ≠ inl data) →
  ∃ summary anomaly,
    analyzeFrame apiKey generateContent parseResponse nowIso base64Image
    = fallback nowIso summary anomaly
    ∧ anomaly ∈ ["Configuration Error"; "Rate Limit Reached"; "System Error"].
Proof.
  intros Hfail. unfold analyzeFrame.
  assert (Herr : ∀ e, ∃ summary anomaly,
            onError nowIso e = fallback nowIso summary anomaly
            ∧ anomaly ∈ ["Configuration Error"; "Rate Limit Reached";
                         "System Error"]).
  { intros e. destruct (onError_fallback nowIso e) as (s & a & E & Ha).
    exists s, a. split; [done|]. by apply list_elem_of_further. }
  case_bool_decide as Hkey.
  { eexists _, _. split; [done|]. apply list_elem_of_here. }
  destruct (generateContent (cleanBase64 base64Image)) as [text|e] eqn:Egen;
    [|apply Herr].
  case_bool_decide as Htext; [apply Herr|].
  destruct (parseResponse (or_else text "")) as [data|e] eqn:Eparse;
    [|apply Herr].
  exfalso. destruct text as [text|]; [|done].
  unfold or_else in *. case_bool_decide; [done|].
  exact (Hfail text data eq_refl Eparse).
Qed.

(** X17.  [analyzeFrame] never fails, and what it returns is decided by the
    key, the answer of the service and the parse of the answer.  When a key
    is configured, the service answers with a text that is not empty and
    the text parses, the result is the parsed response (with the current
    time when the response carries no timestamp).  In every other case it
    is a fallback stamped with the current time: threat level LOW, no
    person, no detected object, and exactly one anomaly that names the kind
    of failure: [Configuration Error] without a key; with a key and a call
    that throws, [Rate Limit Reached] when the message of the error
    mentions [429], [RESOURCE_EXHAUSTED] or [quota], and [System Error]
    otherwise.  What is sent to the service is the frame without the header
    of its data URL (png, jpeg or webp); a frame that does not begin with
    [data:image/] is sent as it is. *)
Theorem analysis_is_the_response_or_a_low_fallback
    (apiKey : option string) (generateContent : string → RemoteOutcome)
    (parseResponse : string → AnalysisData + string)
    (nowIso base64Image payload : string) :
  let r := analyzeFrame apiKey generateContent parseResponse nowIso
             base64Image in
  (∀ key text data,
     apiKey = Some key → key ≠ "" →
     generateContent (cleanBase64 base64Image) = Responded (Some text) →
     text ≠ "" →
     parseResponse text = inl data →
     r = mkAnalysis (default nowIso (d_timestamp data)) (d_summary data)
           (d_personCount data) (d_threatLevel data)
           (d_detectedObjects data) (d_anomalies data))
  ∧ ((∃ key text data,
        apiKey = Some key ∧ key ≠ ""
        ∧ generateContent (cleanBase64 base64Image) = Responded (Some text)
        ∧ text ≠ ""
        ∧ parseResponse text = inl data)
     ∨ (ar_timestamp r = nowIso
        ∧ ar_personCount r = 0%Z
        ∧ ar_threatLevel r = LOW
        ∧ ar_detectedObjects r = []
        ∧ ∃ anomaly, ar_anomalies r = [anomaly]
           ∧ anomaly ∈ ["Configuration Error"; "Rate Limit Reached";
                        "System Error"]))
  ∧ (or_else apiKey "" = "" → ar_anomalies r = ["Configuration Error"])
  ∧ (∀ e, or_else apiKey "" ≠ "" →
          generateContent (cleanBase64 base64Image) = Threw e →
          ar_anomalies r
          = [if includes "429" e || includes "RESOURCE_EXHAUSTED" e
                || includes "quota" e
             then "Rate Limit Reached" else "System Error"])
  ∧ cleanBase64 ("data:image/png;base64," +:+ payload) = payload
  ∧ cleanBase64 ("data:image/jpeg;base64," +:+ payload) = payload
  ∧ cleanBase64 ("data:image/webp;base64," +:+ payload) = payload
  ∧ (String.prefix "data:image/" base64Image = false →
     cleanBase64 base64Image = base64Image).
Proof.
  intros r. subst r.
  split; [|split; [|split; [|split; [|split; [apply cleanBase64_spec|
    split; [apply cleanBase64_spec|split; apply cleanBase64_spec]]]]]].
  - intros key text data -> Hkey Egen Htext Eparse. unfold analyzeFrame.
    cbn [or_else]. rewrite (bool_decide_eq_false_2 (key = "")) by done.
    rewrite (bool_decide_eq_false_2 (key = "")) by done.
    rewrite Egen. cbn [or_else].
    rewrite (bool_decide_eq_false_2 (text = "")) by done.
    rewrite (bool_decide_eq_false_2 (text = "")) by done.
    by rewrite Eparse.
  - unfold analyzeFrame.
    assert (Herr : ∀ e,
      let r := onError nowIso e in
      ar_timestamp r = nowIso ∧ ar_personCount r = 0%Z ∧ ar_threatLevel r = LOW
      ∧ ar_detectedObjects r = []
      ∧ ∃ anomaly, ar_anomalies r = [anomaly]
         ∧ anomaly ∈ ["Configuration Error"; "Rate Limit Reached";
                      "System Error"]).
    { intros e. destruct (onError_fallback nowIso e) as (s & a & E & Ha).
      cbv zeta. rewrite E. cbn. repeat split. exists a. split; [done|].
      by apply list_elem_of_further. }
    case_bool_decide as Hkey.
    { right. cbn. repeat split. eexists. split; [done|].
      apply list_elem_of_here. }
    destruct (generateContent (cleanBase64 base64Image)) as [text|e] eqn:Egen;
      [|right; apply Herr].
    case_bool_decide as Htext; [right; apply Herr|].
    destruct (parseResponse (or_else text "")) as [data|e] eqn:Eparse;
      [|right; apply Herr].
    left.
    destruct apiKey as [key|]; [|done].
    destruct text as [text|]; [|done].
    unfold or_else in *. repeat case_bool_decide; try done.
    exists key, text, data. done.
  - intros Hkey. unfold analyzeFrame.
    by rewrite (bool_decide_eq_true_2 _ Hkey).
  - intros e Hkey Egen. unfold analyzeFrame.
    rewrite (bool_decide_eq_false_2 _ Hkey), Egen. unfold onError.
    by destruct (_ || _).
Qed.

(** ** The initial live view *)

Lemma firstThreePerNvr_from cams : firstThreePerNvr cams = firstThreeFrom [] cams.
Proof. reflexivity. Qed.

Lemma firstThreeFrom_nil pre : firstThreeFrom pre [] = [].
Proof. reflexivity. Qed.

Lemma firstThreeFrom_cons pre c rest :
  firstThreeFrom pre (c :: rest)
  = (if bool_decide (cam_nvrId c ∉ Object_prototype)
        && bool_decide (length (filter (λ c', cam_nvrId c' = cam_nvrId c) pre)
                        < 3)%nat
     then [c] else [])
    ++ firstThreeFrom (pre ++ [c]) rest.
Proof.
  unfold firstThreeFrom. rewrite imap_cons, filter_cons. cbn [fst snd].
  assert (E : amongFirstThree (pre ++ c :: rest) (length pre + 0) c
              = bool_decide (cam_nvrId c ∉ Object_prototype)
                && bool_decide
                     (length (filter (λ c', cam_nvrId c' = cam_nvrId c) pre)
                      < 3)%nat).
  { unfold amongFirstThree. by rewrite Nat.add_0_r, take_app_length. }
  assert (T : imap ((λ i, pair (length pre + i)%nat) ∘ S) rest
              = imap (λ i, pair (length (pre ++ [c]) + i)%nat) rest).
  { apply imap_ext. intros i x _. unfold compose. rewrite length_app. cbn.
    f_equal. lia. }
  rewrite T, <- (app_assoc pre [c] rest). cbn [app].
  rewrite E. by destruct (_ && _); cbn.
Qed.

Lemma firstThreeFrom_sublist rest : ∀ pre, firstThreeFrom pre rest `sublist_of` rest.
Proof.
  induction rest as [|c rest IH]; intros pre; [done|].
  rewrite firstThreeFrom_cons. destruct (_ && _); cbn [app].
  - apply sublist_skip, IH.
  - apply sublist_cons, IH.
Qed.

Lemma firstThreeFrom_count N rest : ∀ pre,
  length (filter (λ c, cam_nvrId c = N) (firstThreeFrom pre rest))
  = if bool_decide (N ∈ Object_prototype) then 0%nat
    else ((length (filter (λ c, cam_nvrId c = N) (pre ++ rest)) `min` 3)
          - (length (filter (λ c, cam_nvrId c = N) pre) `min` 3))%nat.
Proof.
  induction rest as [|c rest IH]; intros pre.
  - rewrite firstThreeFrom_nil, app_nil_r. cbn. case_bool_decide; lia.
  - rewrite firstThreeFrom_cons, filter_app, length_app, (IH (pre ++ [c])).
    rewrite <- (app_assoc pre [c] rest). cbn [app].
    rewrite (filter_app _ pre [c]), (filter_app _ pre (c :: rest)),
      !length_app, (filter_cons _ c rest), (filter_cons _ c []), filter_nil.
    destruct (decide (cam_nvrId c = N)) as [<-|Hne].
    + destruct (decide (cam_nvrId c ∈ Object_prototype)) as [Hin|Hin].
      * rewrite (bool_decide_eq_false_2 (cam_nvrId c ∉ _)) by tauto.
        rewrite (bool_decide_eq_true_2 (cam_nvrId c ∈ _)) by done. done.
      * rewrite (bool_decide_eq_true_2 (cam_nvrId c ∉ _)) by done.
        rewrite (bool_decide_eq_false_2 (cam_nvrId c ∈ _)) by done.
        cbn [andb]. clear IH.
        destruct (decide (length (filter (λ c', cam_nvrId c' = cam_nvrId c)
                                    pre) < 3)%nat) as [Hlt|Hge].
        -- rewrite (bool_decide_eq_true_2 _ Hlt).
           rewrite filter_cons, filter_nil, decide_True by done.
           cbn [length]. lia.
        -- rewrite (bool_decide_eq_false_2 _ Hge), filter_nil.
           cbn [length]. lia.
    + assert (L : length (filter (λ c0, cam_nvrId c0 = N)
                     (if bool_decide (cam_nvrId c ∉ Object_prototype)
                         && bool_decide
                              (length (filter (λ c', cam_nvrId c' = cam_nvrId c)
                                         pre) < 3)%nat
                      then [c] else [])) = 0%nat).
      { destruct (_ && _); [|done]. by rewrite filter_cons, decide_False. }
      rewrite L. clear IH L.
      destruct (bool_decide (N ∈ Object_prototype)); cbn [length]; lia.
Qed.

(** The loop, from the cameras [pre] on: [nvrCounts] reads, for an NVR id
    that is no property of [Object.prototype], the number of cameras of the
    NVR gone through, up to three. *)
Lemma selectInitialLive_spec (rest : list Camera) :
  ∀ (pre : list Camera) (ids : list string) (nvrCounts : gmap string nat),
  (length ids ≤ MAX_LIVE_CAMERAS)%nat →
  (∀ N, currentCount nvrCounts N
        = if bool_decide (N ∈ Object_prototype) then None
          else Some (length (filter (λ c, cam_nvrId c = N) pre) `min` 3)%nat) →
  selectInitialLive rest ids nvrCounts
  = take MAX_LIVE_CAMERAS (ids ++ (cam_id <$> firstThreeFrom pre rest)).
Proof.
  induction rest as [|cam rest IH]; intros pre ids nvrCounts Hlen Hcounts;
    cbn [selectInitialLive].
  - rewrite firstThreeFrom_nil, app_nil_r. by rewrite take_ge.
  - case_bool_decide as Hfull.
    { rewrite take_app_le by lia. by rewrite take_ge. }
    rewrite firstThreeFrom_cons, (Hcounts (cam_nvrId cam)).
    destruct (decide (cam_nvrId cam ∈ Object_prototype)) as [Hin|Hin].
    { rewrite (bool_decide_eq_true_2 _ Hin).
      rewrite (bool_decide_eq_false_2 (cam_nvrId cam ∉ _)) by tauto.
      cbn [andb app]. apply IH; [done|].
      intros N. rewrite Hcounts, filter_app, length_app.
      case_bool_decide as HN; [done|].
      rewrite filter_cons, decide_False, filter_nil by congruence.
      cbn. by rewrite Nat.add_0_r. }
    rewrite (bool_decide_eq_false_2 _ Hin).
    rewrite (bool_decide_eq_true_2 (cam_nvrId cam ∉ _)) by done.
    cbn [andb].
    set (n := length (filter (λ c, cam_nvrId c = cam_nvrId cam) pre)).
    assert (Hinv : ∀ counts',
              (∀ N, N ≠ cam_nvrId cam →
                    currentCount counts' N = currentCount nvrCounts N) →
              currentCount counts' (cam_nvrId cam) = Some ((n + 1) `min` 3)%nat →
              ∀ N, currentCount counts' N
                   = if bool_decide (N ∈ Object_prototype) then None
                     else Some (length (filter (λ c, cam_nvrId c = N)
                                          (pre ++ [cam])) `min` 3)%nat).
    { intros counts' Hother Hthis N.
      rewrite filter_app, length_app, filter_cons, filter_nil.
      destruct (decide (cam_nvrId cam = N)) as [<-|Hne].
      - rewrite Hthis, (bool_decide_eq_false_2 _ Hin). done.
      - rewrite Hother, Hcounts by done. cbn. by rewrite Nat.add_0_r. }
    destruct (decide (n < 3)%nat) as [Hroom|Hroom].
    + rewrite (bool_decide_eq_true_2 (n `min` 3 < 3)%nat) by lia.
      rewrite (bool_decide_eq_true_2 (n < 3)%nat) by done.
      rewrite (IH (pre ++ [cam])).
      * by rewrite fmap_app, app_assoc.
      * rewrite length_app. cbn. lia.
      * apply Hinv.
        -- intros N HN. unfold currentCount. by rewrite lookup_insert_ne.
        -- unfold currentCount. rewrite lookup_insert_eq. f_equal. lia.
    + rewrite (bool_decide_eq_false_2 (n `min` 3 < 3)%nat) by lia.
      rewrite (bool_decide_eq_false_2 (n < 3)%nat) by done.
      cbn [app]. apply IH; [done|]. apply Hinv; [done|].
      rewrite Hcounts, (bool_decide_eq_false_2 _ Hin). fold n. f_equal. lia.
Qed.

(** X7.  The live view at start-up.  The loop goes through the loaded cameras in
    their order and selects the cameras that are among the first three of
    their NVR, until 32 are selected: the live view holds the first 32 ids
    of this selection, and the whole selection when that has fewer than 32.
    A camera whose NVR id names a property of [Object.prototype]
    ([constructor], [toString], [__proto__], ...) is never selected, because
    the object of the counts reads a function under such a key; every other
    NVR contributes three cameras to the selection, or all of them when it
    has fewer than three. *)
Theorem initial_live_view_takes_three_per_nvr (cams : list Camera) :
  initialLiveIds cams
  = take MAX_LIVE_CAMERAS (cam_id <$> firstThreePerNvr cams)
  ∧ firstThreePerNvr cams `sublist_of` cams
  ∧ (∀ N, length (filter (λ c, cam_nvrId c = N) (firstThreePerNvr cams))
          = if bool_decide (N ∈ Object_prototype) then 0%nat
            else (length (filter (λ c, cam_nvrId c = N) cams) `min` 3)%nat)
  ∧ ((length (initialLiveIds cams) < MAX_LIVE_CAMERAS)%nat →
     initialLiveIds cams = cam_id <$> firstThreePerNvr cams).
Proof.
  assert (E : initialLiveIds cams
              = take MAX_LIVE_CAMERAS (cam_id <$> firstThreePerNvr cams)).
  { unfold initialLiveIds.
    rewrite (selectInitialLive_spec cams [] [] ∅); [done|cbn; lia|].
    intros N. unfold currentCount. rewrite lookup_empty.
    by case_bool_decide. }
  split; [exact E|].
  split; [rewrite firstThreePerNvr_from; apply firstThreeFrom_sublist|].
  split.
  - intros N. rewrite firstThreePerNvr_from, firstThreeFrom_count.
    case_bool_decide; [done|]. cbn. lia.
  - rewrite E. intros Hl. rewrite length_take in Hl.
    apply take_ge. lia.
Qed.

(** ** User management *)

Lemma toggleStatus_twice u : toggleStatus (toggleStatus u) = u.
Proof. by destruct u as [? ? ? ? ? []]. Qed.

(** X20.  Suspending or activating a user changes the status of the users with
    that id and nothing else (no user is added or removed, and the other
    fields are kept); doing it twice gives the user list back. *)
Theorem toggling_a_user_twice_restores_the_users (o : Oracle) (userId : string)
    (users : list User) (w w' : World) :
  let once := eval (toggleUserStatus o userId users) w in
  Forall2 (λ u u',
      u_id u' = u_id u ∧ u_name u' = u_name u ∧ u_email u' = u_email u
      ∧ u_role u' = u_role u ∧ u_lastActive u' = u_lastActive u
      ∧ (u_status u' = u_status u ↔ u_id u ≠ userId)) users once
  ∧ eval (toggleUserStatus o userId once) w' = users.
Proof.
  cbv zeta. unfold eval, toggleUserStatus. rewrite !bind_run. cbn [fst mret M_ret].
  split.
  - apply Forall2_fmap_r, Forall_Forall2_diag, Forall_forall. intros u _.
    unfold compose. cbv beta. case_bool_decide as Hu.
    + destruct u as [? ? ? ? ? []]; cbn in *; repeat split; try done;
        intros H; done.
    + repeat split; done.
  - rewrite <- list_fmap_compose. rewrite <- (list_fmap_id users) at 2.
    apply list_fmap_ext. intros i u _. unfold compose.
    destruct (decide (u_id u = userId)) as [Hu|Hu].
    + rewrite (bool_decide_eq_true_2 (u_id u = userId)) by done.
      rewrite bool_decide_eq_true_2 by exact Hu. apply toggleStatus_twice.
    + rewrite (bool_decide_eq_false_2 (u_id u = userId)) by done. cbv iota.
      by rewrite bool_decide_eq_false_2.
Qed.

(** Saving the user form never removes a user and never changes the id, the
    status or the last activity of one: the users before are still there, in
    their order, and at most one user is appended.  With an empty name or an
    empty e-mail address nothing is saved; a new user starts ACTIVE. *)
Theorem saving_a_user_keeps_the_accounts (o : Oracle) (userForm : UserForm)
    (editingUserId : option string) (users : list User) (w : World) :
  let saved := eval (handleSaveUser o userForm editingUserId users) w in
  (∃ added,
     Forall2 (λ u u',
         u_id u' = u_id u ∧ u_status u' = u_status u
         ∧ u_lastActive u' = u_lastActive u
         ∧ (Some (u_id u) ≠ editingUserId → u' = u))
       users (take (length users) saved)
     ∧ saved = take (length users) saved ++ added
     ∧ (length added ≤ 1)%nat
     ∧ Forall (λ u, u_status u = ACTIVE ∧ u_name u = uf_name userForm
                   ∧ u_email u = uf_email userForm
                   ∧ u_role u = uf_role userForm) added)
  ∧ (uf_name userForm = "" ∨ uf_email userForm = "" → saved = users).
Proof.
  cbv zeta. unfold eval, handleSaveUser.
  assert (Hsame : Forall2 (λ u u',
            u_id u' = u_id u ∧ u_status u' = u_status u
            ∧ u_lastActive u' = u_lastActive u
            ∧ (Some (u_id u) ≠ editingUserId → u' = u)) users users).
  { apply Forall_Forall2_diag, Forall_forall. by intros. }
  destruct (bool_decide (uf_name userForm = "")
            || bool_decide (uf_email userForm = "")) eqn:Evalid.
  { rewrite bind_run. cbn [fst mret M_ret]. split; [|done].
    exists []. rewrite firstn_all, app_nil_r.
    split; [exact Hsame|]. split; [done|]. split; [cbn; lia|constructor]. }
  apply orb_false_iff in Evalid as [Hn He].
  apply bool_decide_eq_false in Hn, He.
  split; [|by intros [?|?]].
  case_bool_decide as Hnew.
  - rewrite !bind_run. cbn [fst mret M_ret].
    eexists [_]. rewrite take_app_length.
    split; [exact Hsame|]. split; [done|]. split; [cbn; lia|].
    by repeat constructor.
  - rewrite bind_run. cbn [fst mret M_ret].
    exists []. rewrite app_nil_r.
    rewrite take_ge by (by rewrite length_fmap).
    split; [|split; [done|split; [cbn; lia|constructor]]].
    apply Forall2_fmap_r, Forall_Forall2_diag, Forall_forall. intros u _.
    unfold compose. cbv beta. case_bool_decide; by repeat split.
Qed.

(** X21.  Deleting the user that was just added gives the user list back,
    provided the id the new user got is not the id of another user; when the
    confirmation dialog is declined, nothing is deleted. *)
Theorem deleting_the_added_user_restores_the_users (o : Oracle)
    (userForm : UserForm) (users : list User) (w w' : World) :
  uf_name userForm ≠ "" → uf_email userForm ≠ "" →
  Forall (λ u, u_id u ≠ freshId o (ipos w)) users →
  let added := eval (handleSaveUser o userForm None users) w in
  added = users ++ [mkUser (freshId o (ipos w)) (uf_name userForm)
                      (uf_email userForm) (uf_role userForm) 0 ACTIVE]
  ∧ eval (handleDeleteUser o true (freshId o (ipos w)) added) w' = users
  ∧ handleDeleteUser o false (freshId o (ipos w)) added w' = (added, w').
Proof.
  intros Hn He Hfresh. cbv zeta. unfold eval, handleSaveUser.
  rewrite !bool_decide_eq_false_2 by done. cbn [orb or_else].
  rewrite bool_decide_eq_true_2 by done.
  rewrite !bind_run. cbn [fst mret M_ret generateId].
  split; [done|]. split; [|done].
  unfold handleDeleteUser. rewrite bind_run. cbn [fst mret M_ret].
  rewrite filter_app, filter_cons, filter_nil.
  rewrite decide_False by (cbn; tauto). rewrite app_nil_r.
  clear -Hfresh. induction Hfresh as [|u users Hu _ IH]; [done|].
  rewrite filter_cons, decide_True by done. by rewrite IH.
Qed.

Lemma deleting_the_added_user_restores_the_users_witness :
  let userForm := mkUserForm "Officer Lee" "lee.ops@sentinel.ai" OPERATOR in
  let added := eval (handleSaveUser quiet userForm None staff) site in
  added = staff ++ [mkUser "id0" "Officer Lee" "lee.ops@sentinel.ai"
                      OPERATOR 0 ACTIVE]
  ∧ eval (handleDeleteUser quiet true "id0" added) site = staff.
Proof.
  destruct (deleting_the_added_user_restores_the_users quiet
              (mkUserForm "Officer Lee" "lee.ops@sentinel.ai" OPERATOR)
              staff site site ltac:(discriminate) ltac:(discriminate)
              ltac:(apply (bool_decide_unpack _); vm_compute; exact I))
    as (H1 & H2 & _).
  split; [exact H1|exact H2].
Defined.

(** ** Pinning and unpinning *)

Lemma filter_ne_absent (C : string) (ids : list string) :
  C ∉ ids → filter (λ id, id ≠ C) ids = ids.
Proof.
  induction ids as [|i ids IH]; [done|].
  intros [Hi Hids]%not_elem_of_cons.
  rewrite filter_cons, decide_True by done. by rewrite IH.
Qed.

(** X8.  Unpinning a camera that was just pinned gives the live view back, when
    the camera was not in it before (also when the pin was refused because
    the live view is full); the cameras are not touched by either step. *)
Theorem unpinning_undoes_pinning (o : Oracle) (cameraId : string) (w : World) :
  cameraId ∉ liveCameraIds w →
  let w' := exec (handleUnpinCamera cameraId)
              (exec (handlePinCamera o cameraId) w) in
  liveCameraIds w' = liveCameraIds w
  ∧ cameras w' = cameras w
  ∧ liveCameras w' = liveCameras w.
Proof.
  intros Hnew. cbv zeta.
  assert (Hlive : liveCameraIds (exec (handleUnpinCamera cameraId)
                                   (exec (handlePinCamera o cameraId) w))
                  = liveCameraIds w).
  { destruct (handlePinCamera_live o cameraId w) as [(_ & E)|(_ & E)].
    - change (filter (λ id, id ≠ cameraId)
                (liveCameraIds (exec (handlePinCamera o cameraId) w))
              = liveCameraIds w).
      rewrite E. by apply filter_ne_absent.
    - change (filter (λ id, id ≠ cameraId)
                (liveCameraIds (exec (handlePinCamera o cameraId) w))
              = liveCameraIds w).
      rewrite E, filter_cons, decide_False by tauto.
      by apply filter_ne_absent. }
  assert (Hcams : cameras (exec (handleUnpinCamera cameraId)
                             (exec (handlePinCamera o cameraId) w))
                  = cameras w).
  { destruct (Touches_handlePinCamera o cameraId w) as (E & _).
    exact (E eq_refl). }
  split; [done|]. split; [done|].
  unfold liveCameras. by rewrite Hlive, Hcams.
Qed.

Lemma unpinning_undoes_pinning_witness :
  ("c2" ∉ liveCameraIds site)
  ∧ liveCameraIds (exec (handleUnpinCamera "c2")
                     (exec (handlePinCamera quiet "c2") site))
    = liveCameraIds site.
Proof.
  assert (H : "c2" ∉ liveCameraIds site)
    by (apply (bool_decide_unpack _); vm_compute; exact I).
  split; [exact H|].
  exact (proj1 (unpinning_undoes_pinning quiet "c2" site H)).
Defined.

(** ** Manual reconnect *)

Lemma handleReconnect_cameras o now cameraId w :
  cameras (exec (handleReconnect o now cameraId) w)
  = (λ c, if bool_decide (cam_id c = cameraId)
          then withStatus c true true now else c) <$> cameras w.
Proof. reflexivity. Qed.

Lemma closeFault_not_open cameraId now f :
  isOpenFor cameraId (closeFault cameraId now f) = false.
Proof.
  unfold closeFault. destruct (isOpenFor cameraId f) eqn:E; [|done].
  unfold isOpenFor. cbn. by rewrite andb_false_r.
Qed.

Lemma closeFault_other_camera C D now f :
  D ≠ C → isOpenFor D (closeFault C now f) = isOpenFor D f
          ∧ (isOpenFor D f = true → closeFault C now f = f).
Proof.
  intros HD. unfold closeFault, isOpenFor.
  destruct (decide (f_cameraId f = C)) as [EC|EC].
  - rewrite (bool_decide_eq_true_2 (f_cameraId f = C)) by done.
    rewrite (bool_decide_eq_false_2 (f_cameraId f = D)) by congruence.
    destruct (bool_decide (timeOn f = None)); cbn [andb withTimeOn f_cameraId];
      rewrite ?bool_decide_eq_false_2 by congruence; done.
  - by rewrite (bool_decide_eq_false_2 (f_cameraId f = C)) by done.
Qed.

(** X11.  After a manual reconnect of camera [C], every camera with that id is
    online and recording since the time of the reconnect and the other
    cameras are as before; [C] has no open fault left, and the open faults
    of every other camera are those it had; the NVRs and the live view are
    not touched.  A second reconnect changes neither the faults nor the
    alerts. *)
Theorem reconnect_leaves_no_open_fault (o : Oracle) (now now' : Z)
    (C : string) (w : World) :
  let w' := exec (handleReconnect o now C) w in
  Forall2 (λ c c',
      (cam_id c = C → c' = withStatus c true true now) ∧ (cam_id c ≠ C → c' = c))
    (cameras w) (cameras w')
  ∧ Forall (λ c, cam_id c = C →
               isOnline c = true ∧ isRecording c = true
               ∧ statusChangedAt c = now) (cameras w')
  ∧ openFaultsOf C w' = []
  ∧ (∀ D, D ≠ C → openFaultsOf D w' = openFaultsOf D w)
  ∧ nvrs w' = nvrs w
  ∧ liveCameraIds w' = liveCameraIds w
  ∧ faults (exec (handleReconnect o now' C) w') = faults w'
  ∧ alerts (exec (handleReconnect o now' C) w') = alerts w'.
Proof.
  cbv zeta. rewrite !handleReconnect_faults, !handleReconnect_alerts,
    handleReconnect_cameras.
  unfold openFaultsOf. rewrite !handleReconnect_faults.
  split; [|split; [|split; [|split; [|split; [|split; [|split]]]]]].
  - apply Forall2_fmap_r, Forall_Forall2_diag, Forall_forall. intros c _.
    unfold compose. cbv beta. case_bool_decide; split; done.
  - apply Forall_fmap, Forall_forall. intros c _. unfold compose. cbv beta.
    case_bool_decide as Hc; [done|]. intros Hc'. done.
  - induction (faults w) as [|f fs IH]; [done|].
    rewrite fmap_cons, filter_cons, IH.
    rewrite decide_False; [done|]. by rewrite closeFault_not_open.
  - intros D HD. induction (faults w) as [|f fs IH]; [done|].
    rewrite fmap_cons, !filter_cons, IH.
    destruct (closeFault_other_camera C D now f HD) as [E1 E2].
    rewrite E1. case_decide as Hopen; [|done]. by rewrite (E2 Hopen).
  - reflexivity.
  - reflexivity.
  - rewrite <- list_fmap_compose. apply list_fmap_ext. intros i f _.
    unfold compose. apply closeFault_other, closeFault_not_open.
  - induction (alerts w) as [|a als IH]; [done|].
    rewrite filter_cons. case_decide as Ha; [|done].
    rewrite filter_cons, decide_True by done. by rewrite IH.
Qed.

(** ** The analysis result *)

(** X16.  The handler of an analysis result.  The result is alarming when its
    threat level is HIGH or CRITICAL or when it lists an anomaly.  An
    alarming result prepends one alert for the analysed camera, with the
    frame as thumbnail: CRITICAL for a CRITICAL threat and WARNING
    otherwise; a result that is not alarming leaves the alerts and the
    toasts as they are.  The cameras with the analysed id get the result and
    no other camera changes; when no camera has that id, the cameras are
    unchanged and the alert (if any) is attributed to [Unknown].  NVRs,
    faults and the live view are never touched. *)
Theorem analysis_alerts_exactly_when_alarming (o : Oracle) (now : Z)
    (cameraId : string) (result : AnalysisResult) (frame : string)
    (w : World) :
  let w' := exec (handleAnalysisResult o now cameraId result frame) w in
  let alarming :=
    ar_threatLevel result = HIGH ∨ ar_threatLevel result = CRITICAL
    ∨ ar_anomalies result ≠ [] in
  (alarming →
   ∃ a, alerts w' = a :: alerts w
     ∧ a_cameraId a = cameraId ∧ a_timestamp a = now
     ∧ a_thumbnail a = Some frame
     ∧ a_severity a = (if bool_decide (ar_threatLevel result = CRITICAL)
                       then SevCRITICAL else SevWARNING)
     ∧ (findCamera cameraId (cameras w) = None → a_cameraName a = "Unknown"))
  ∧ (¬ alarming → alerts w' = alerts w ∧ toasts w' = toasts w)
  ∧ Forall2 (λ c c',
        (cam_id c = cameraId → c' = withAnalysis c result now)
        ∧ (cam_id c ≠ cameraId → c' = c))
      (cameras w) (cameras w')
  ∧ (findCamera cameraId (cameras w) = None → cameras w' = cameras w)
  ∧ nvrs w' = nvrs w ∧ faults w' = faults w
  ∧ liveCameraIds w' = liveCameraIds w.
Proof.
  cbv zeta.
  assert (Hcams : cameras (exec (handleAnalysisResult o now cameraId result
                                   frame) w)
                  = (λ cam, if bool_decide (cam_id cam = cameraId)
                            then withAnalysis cam result now else cam)
                    <$> cameras w).
  { unfold exec, handleAnalysisResult.
    destruct (ar_threatLevel result), (ar_anomalies result); reflexivity. }
  destruct (Touches_handleAnalysisResult o now cameraId result frame w)
    as (_ & Hn & Hf & _ & _ & Hl).
  split; [|split; [|split; [|split; [|split; [|split]]]]].
  - intros Halarm. unfold exec, handleAnalysisResult.
    destruct (ar_threatLevel result) eqn:Et,
      (ar_anomalies result) as [|an ans] eqn:Ea;
      try (exfalso; destruct Halarm as [?|[?|?]]; congruence);
      (eexists; split; [reflexivity|];
       split; [reflexivity|]; split; [reflexivity|]; split; [reflexivity|];
       split; [reflexivity|];
       cbn [a_cameraName]; intros ->; reflexivity).
  - intros Hquiet. unfold exec, handleAnalysisResult.
    destruct (ar_threatLevel result) eqn:Et,
      (ar_anomalies result) as [|an ans] eqn:Ea;
      try (exfalso; apply Hquiet; auto; right; right; congruence);
      split; reflexivity.
  - rewrite Hcams.
    apply Forall2_fmap_r, Forall_Forall2_diag, Forall_forall. intros c _.
    unfold compose. cbv beta. case_bool_decide; split; done.
  - intros Hnone. rewrite Hcams.
    rewrite <- (list_fmap_id (cameras w)) at 2.
    apply list_fmap_ext. intros i c Hc.
    rewrite bool_decide_eq_false_2; [done|]. intros Hid.
    unfold findCamera in Hnone. apply find_none with (x := c) in Hnone.
    + by rewrite bool_decide_eq_true_2 in Hnone.
    + apply list_elem_of_In. eapply list_elem_of_lookup_2. exact Hc.
  - exact (Hn eq_refl).
  - exact (Hf eq_refl).
  - exact (Hl eq_refl).
Qed.

(** ** Manual analysis from the camera tile *)

(** X18.  When the service does not deliver a parsed response (no key, an error
    of the call, a missing or empty text, a text that does not parse), a
    manual analysis of an online camera still completes: the camera gets one
    WARNING alert [LOW: ...] naming the failure, with the captured frame as
    thumbnail, and no toast is shown. *)
Theorem failed_manual_analysis_raises_a_warning (o : Oracle)
    (apiKey : option string) (generateContent : string → RemoteOutcome)
    (parseResponse : string → AnalysisData + string)
    (now : Z) (nowIso : string) (camera : Camera) (frame : string)
    (w : World) :
  isOnline camera = true → frame ≠ "" →
  (∀ text data,
     generateContent (cleanBase64 frame) = Responded (Some text) →
     parseResponse text ≠ inl data) →
  let w' := exec (handleManualAnalyze o apiKey generateContent parseResponse
                    now nowIso false false camera (Some frame)) w in
  ∃ a anomaly,
    alerts w' = a :: alerts w
    ∧ a_severity a = SevWARNING
    ∧ a_cameraId a = cam_id camera
    ∧ a_message a = "LOW: " +:+ anomaly
    ∧ anomaly ∈ ["Configuration Error"; "Rate Limit Reached"; "System Error"]
    ∧ a_thumbnail a = Some frame
    ∧ toasts w' = toasts w.
Proof.
  intros Hon Hframe Hfail. cbv zeta. unfold handleManualAnalyze.
  rewrite Hon. cbn [negb orb]. rewrite bool_decide_eq_false_2 by done.
  destruct (analyzeFrame_fallback apiKey generateContent parseResponse nowIso
              frame Hfail) as (summary & anomaly & -> & Hin).
  unfold exec, handleAnalysisResult. cbn [fallback ar_threatLevel ar_anomalies].
  assert (Hmsg : or_else (Some (join ", " [anomaly])) "Suspicious activity"
                 = anomaly).
  { apply elem_of_cons in Hin as [->|Hin]; [done|].
    apply elem_of_cons in Hin as [->|Hin]; [done|].
    apply list_elem_of_singleton in Hin as ->. done. }
  eexists _, anomaly. split; [reflexivity|].
  cbn [a_severity a_cameraId a_message a_thumbnail show_threat].
  rewrite Hmsg. by repeat split.
Qed.

Lemma failed_manual_analysis_raises_a_warning_witness :
  ∃ a anomaly,
    alerts (exec (handleManualAnalyze quiet (Some "key")
                    (λ _, Threw "429 Too Many Requests") (λ _, inr "")
                    100 "2026-01-01T00:00:00.000Z" false false
                    (camera_of "c1" "NVR-01" true) (Some "frame")) site)
    = a :: alerts site
    ∧ a_severity a = SevWARNING
    ∧ a_cameraId a = "c1"
    ∧ a_message a = "LOW: " +:+ anomaly.
Proof.
  destruct (failed_manual_analysis_raises_a_warning quiet (Some "key")
              (λ _, Threw "429 Too Many Requests") (λ _, inr "")
              100 "2026-01-01T00:00:00.000Z"
              (camera_of "c1" "NVR-01" true) "frame" site eq_refl
              ltac:(discriminate) ltac:(discriminate))
    as (a & anomaly & Ha & Hs & Hc & Hm & _).
  exists a, anomaly. split; [exact Ha|]. split; [exact Hs|].
  split; [exact Hc|exact Hm].
Defined.

(** ** Saving the NVR form *)

Lemma within_none w w' :
  within fp_none w w' →
  cameras w' = cameras w ∧ nvrs w' = nvrs w ∧ faults w' = faults w
  ∧ alerts w' = alerts w ∧ toasts w' = toasts w
  ∧ liveCameraIds w' = liveCameraIds w.
Proof.
  intros (H1&H2&H3&H4&H5&H6).
  repeat split; [apply H1|apply H2|apply H3|apply H4|apply H5|apply H6];
    reflexivity.
Qed.

Lemma generateCameras_spec o now nvrForm newNvrId isSuccess count : ∀ i w,
  length (eval (generateCameras o now nvrForm newNvrId isSuccess count i) w)
  = count
  ∧ Forall (λ c, cam_nvrId c = newNvrId ∧ isOnline c = isSuccess
                 ∧ isRecording c = isSuccess ∧ statusChangedAt c = now)
      (eval (generateCameras o now nvrForm newNvrId isSuccess count i) w).
Proof.
  induction count as [|count IH]; intros i w; cbn [generateCameras];
    unfold eval.
  - split; [done|constructor].
  - rewrite !bind_run. cbn [fst mret M_ret].
    destruct (IH (i + 1)%Z (snd (generateId o w))) as [Hlen Hall].
    split; [cbn [length]; by f_equal|].
    constructor; [done|exact Hall].
Qed.

Lemma openFaults_spec o now cams : ∀ w,
  Forall2 (λ c f, f_cameraId f = cam_id c ∧ f_cameraName f = cam_name c
                  ∧ f_location f = cam_location c ∧ f_nvrId f = cam_nvrId c
                  ∧ timeOff f = now ∧ timeOn f = None
                  ∧ acknowledged f = false)
    cams (eval (openFaults o now cams) w).
Proof.
  induction cams as [|cam rest IH]; intros w; cbn [openFaults]; unfold eval.
  - constructor.
  - rewrite !bind_run. cbn [fst mret M_ret].
    constructor; [done|apply IH].
Qed.

(** What the branch [ADD NEW NVR] does to the collections. *)
Lemma addNewNvr_spec o now nvrForm isSuccess initialStatus w :
  let w' := exec (addNewNvr o now nvrForm isSuccess initialStatus) w in
  ∃ n cams newFaults a,
    nvrs w' = nvrs w ++ [n]
    ∧ nvr_status n = initialStatus ∧ nvr_ip n = form_ip nvrForm
    ∧ nvr_addedAt n = now
    ∧ (last_segment "." "" (form_ip nvrForm) ≠ "" →
       nvr_id n = "NVR-" +:+ padStart 3 "0"
                              (last_segment "." "" (form_ip nvrForm)))
    ∧ cameras w' = cameras w ++ cams
    ∧ length cams = 8%nat
    ∧ Forall (λ c, cam_nvrId c = nvr_id n ∧ isOnline c = isSuccess
                   ∧ isRecording c = isSuccess ∧ statusChangedAt c = now) cams
    ∧ faults w' = faults w ++ newFaults
    ∧ (if isSuccess then newFaults = []
       else Forall2 (λ c f, f_cameraId f = cam_id c
                            ∧ f_cameraName f = cam_name c
                            ∧ f_location f = cam_location c
                            ∧ f_nvrId f = cam_nvrId c
                            ∧ timeOff f = now ∧ timeOn f = None
                            ∧ acknowledged f = false) cams newFaults)
    ∧ alerts w' = a :: alerts w
    ∧ a_cameraId a = "SYSTEM"
    ∧ a_severity a = (if isSuccess then SevINFO else SevCRITICAL)
    ∧ liveCameraIds w' = liveCameraIds w.
Proof.
  cbv zeta. unfold exec, addNewNvr.
  set (seg := last_segment "." "" (form_ip nvrForm)).
  set (pick := if bool_decide (seg = "") then _ else mret seg).
  rewrite bind_run.
  assert (Hpick : Touches fp_none pick) by (subst pick; touches).
  assert (Hseg : seg ≠ "" → fst (pick w) = seg).
  { intros Hne. subst pick. by rewrite bool_decide_eq_false_2. }
  destruct (pick w) as [ipSegment w1] eqn:E1.
  apply (f_equal snd) in E1 as E1'. cbn [snd] in E1'.
  pose proof (within_none _ _ (Hpick w)) as (C1&N1&F1&A1&T1&L1).
  rewrite E1' in C1, N1, F1, A1, T1, L1. cbn [fst snd] in *.
  rewrite bind_run. cbn [updateNvrs fst snd].
  rewrite bind_run.
  set (newNvrId := "NVR-" +:+ padStart 3 "0" ipSegment).
  set (w2 := mkWorld _ _ _ _ _ _ _ _).
  pose proof (generateCameras_spec o now nvrForm newNvrId isSuccess 8 1)
    as Hspec.
  pose proof (Touches_generateCameras o fp_none now nvrForm newNvrId
                isSuccess 8 1) as Htouch.
  generalize dependent (generateCameras o now nvrForm newNvrId isSuccess 8 1).
  intros generate Hspec Htouch.
  destruct (Hspec w2) as [Hlen Hall].
  pose proof (within_none _ _ (Htouch w2)) as (C2&N2&F2&A2&T2&L2).
  unfold eval in Hlen, Hall.
  destruct (generate w2) as [cams w3]. clear Hspec Htouch.
  cbn [fst snd w2 cameras nvrs faults alerts toasts liveCameraIds] in *.
  rewrite bind_run. cbn [updateCameras fst snd].
  rewrite bind_run.
  set (w4 := mkWorld _ _ _ _ _ _ _ _).
  destruct isSuccess; cbn [negb].
  - subst w4. run.
    eexists _, cams, [], _.
    split; [rewrite N2, N1; reflexivity|].
    split; [reflexivity|]. split; [reflexivity|]. split; [reflexivity|].
    split; [intros Hne; cbn [nvr_id]; subst newNvrId; by rewrite (Hseg Hne)|].
    split; [rewrite C2, C1; reflexivity|].
    split; [done|]. split; [exact Hall|].
    split; [rewrite F2, F1, app_nil_r; reflexivity|].
    split; [done|].
    split; [rewrite A2, A1; reflexivity|].
    split; [reflexivity|]. split; [reflexivity|].
    by rewrite L2, L1.
  - pose proof (openFaults_spec o now cams) as Hspec.
    pose proof (Touches_openFaults o fp_none now cams) as Htouch.
    generalize dependent (openFaults o now cams). intros open Hspec Htouch.
    unfold addToast. rewrite !bind_run.
    pose proof (Hspec w4) as Hfaults.
    pose proof (within_none _ _ (Htouch w4)) as (C5&N5&F5&A5&T5&L5).
    unfold eval in Hfaults.
    destruct (open w4) as [newFaults w5]. clear Hspec Htouch.
    cbn [fst snd w4 cameras nvrs faults alerts toasts liveCameraIds] in *.
    clear w4. run.
    eexists _, cams, newFaults, _.
    split; [rewrite N5, N2, N1; reflexivity|].
    split; [reflexivity|]. split; [reflexivity|]. split; [reflexivity|].
    split; [intros Hne; cbn [nvr_id]; subst newNvrId; by rewrite (Hseg Hne)|].
    split; [rewrite C5, C2, C1; reflexivity|].
    split; [done|]. split; [exact Hall|].
    split; [rewrite F5, F2, F1; reflexivity|].
    split; [done|].
    split; [rewrite A5, A2, A1; reflexivity|].
    split; [reflexivity|]. split; [reflexivity|].
    by rewrite L5, L2, L1.
Qed.

(** The status that the connection test of [handleSaveNvr] gives. *)
Lemma handleSaveNvr_valid o now nvrForm isEditingNvr w :
  form_ip nvrForm ≠ "" → form_username nvrForm ≠ "" →
  form_password nvrForm ≠ "" →
  ∃ initialStatus,
    (initialStatus = ONLINE ↔ isSuccessOf o nvrForm w = true)
    ∧ handleSaveNvr o now nvrForm isEditingNvr w
      = match isEditingNvr with
        | Some editing =>
            if bool_decide (editing = "")
            then addNewNvr o now nvrForm (isSuccessOf o nvrForm w)
                   initialStatus
            else updateExistingNvr o now nvrForm editing
                   (isSuccessOf o nvrForm w) initialStatus
        | None =>
            addNewNvr o now nvrForm (isSuccessOf o nvrForm w) initialStatus
        end (snd (mathRandom o w)).
Proof.
  intros Hip Hus Hpw. unfold handleSaveNvr.
  rewrite !bool_decide_eq_false_2 by done. cbn [orb].
  rewrite bind_run. cbn [mathRandom fst snd]. fold (isSuccessOf o nvrForm w).
  eexists. split; [|reflexivity].
  unfold isSuccessOf.
  destruct (_ && _ && _); [done|]. by destruct (negb _).
Qed.

Lemma handleSaveNvr_incomplete o now nvrForm isEditingNvr :
  form_ip nvrForm = "" ∨ form_username nvrForm = ""
  ∨ form_password nvrForm = "" →
  handleSaveNvr o now nvrForm isEditingNvr
  = addToast o ToastError "Form Error"
      "Please fill in IP, Username, and Password." 5000.
Proof.
  intros Hform. unfold handleSaveNvr.
  assert (E : bool_decide (form_ip nvrForm = "")
              || bool_decide (form_username nvrForm = "")
              || bool_decide (form_password nvrForm = "") = true).
  { destruct Hform as [H|[H|H]]; rewrite (bool_decide_eq_true_2 _ H);
      by rewrite ?orb_true_r. }
  by rewrite E.
Qed.

(** A form without IP address, user name or password is rejected: an error
    toast is shown and nothing else happens; the connection test is not
    run (no random number is drawn). *)
Theorem incomplete_nvr_form_is_rejected (o : Oracle) (now : Z)
    (nvrForm : NvrForm) (isEditingNvr : option string) (w : World) :
  form_ip nvrForm = "" ∨ form_username nvrForm = ""
  ∨ form_password nvrForm = "" →
  let w' := exec (handleSaveNvr o now nvrForm isEditingNvr) w in
  cameras w' = cameras w ∧ nvrs w' = nvrs w ∧ faults w' = faults w
  ∧ alerts w' = alerts w ∧ liveCameraIds w' = liveCameraIds w
  ∧ rpos w' = rpos w
  ∧ ∃ t, toasts w' = toasts w ++ [t] ∧ t_type t = ToastError.
Proof.
  intros Hform. cbv zeta. unfold exec.
  rewrite (handleSaveNvr_incomplete o now nvrForm isEditingNvr Hform).
  repeat split. eexists. split; reflexivity.
Qed.

Lemma incomplete_nvr_form_is_rejected_witness :
  let w' := exec (handleSaveNvr quiet 100
                    (mkNvrForm "" "192.168.1.50" "8000" "admin" "" "ONVIF")
                    None) site in
  cameras w' = cameras site ∧ nvrs w' = nvrs site ∧ faults w' = faults site
  ∧ alerts w' = alerts site ∧ liveCameraIds w' = liveCameraIds site
  ∧ rpos w' = rpos site
  ∧ ∃ t, toasts w' = toasts site ++ [t] ∧ t_type t = ToastError.
Proof.
  exact (incomplete_nvr_form_is_rejected quiet 100
           (mkNvrForm "" "192.168.1.50" "8000" "admin" "" "ONVIF")
           None site (or_intror (or_intror eq_refl))).
Defined.

(** The add path of [handleSaveNvr]. *)
Lemma adding_an_nvr_spec o now nvrForm isEditingNvr w :
  form_ip nvrForm ≠ "" → form_username nvrForm ≠ "" →
  form_password nvrForm ≠ "" →
  isEditingNvr = None ∨ isEditingNvr = Some "" →
  let w' := exec (handleSaveNvr o now nvrForm isEditingNvr) w in
  let isSuccess := isSuccessOf o nvrForm w in
  ∃ n cams newFaults,
    nvrs w' = nvrs w ++ [n]
    ∧ (last_segment "." "" (form_ip nvrForm) ≠ "" →
       nvr_id n = "NVR-" +:+ padStart 3 "0"
                              (last_segment "." "" (form_ip nvrForm)))
    ∧ cameras w' = cameras w ++ cams
    ∧ length cams = 8%nat
    ∧ Forall (λ c, cam_nvrId c = nvr_id n ∧ isOnline c = isSuccess
                   ∧ isRecording c = isSuccess ∧ statusChangedAt c = now) cams
    ∧ faults w' = faults w ++ newFaults
    ∧ (if isSuccess then newFaults = []
       else Forall2 (λ c f, f_cameraId f = cam_id c
                            ∧ f_cameraName f = cam_name c
                            ∧ f_location f = cam_location c
                            ∧ f_nvrId f = cam_nvrId c
                            ∧ timeOff f = now ∧ timeOn f = None
                            ∧ acknowledged f = false) cams newFaults).
Proof.
  intros Hip Hus Hpw Hadd. cbv zeta. unfold exec.
  destruct (handleSaveNvr_valid o now nvrForm isEditingNvr w Hip Hus Hpw)
    as (st & Hst & ->).
  assert (E : match isEditingNvr with
              | Some editing =>
                  if bool_decide (editing = "")
                  then addNewNvr o now nvrForm (isSuccessOf o nvrForm w) st
                  else updateExistingNvr o now nvrForm editing
                         (isSuccessOf o nvrForm w) st
              | None => addNewNvr o now nvrForm (isSuccessOf o nvrForm w) st
              end = addNewNvr o now nvrForm (isSuccessOf o nvrForm w) st).
  { by destruct Hadd as [-> | ->]. }
  rewrite E.
  destruct (addNewNvr_spec o now nvrForm (isSuccessOf o nvrForm w) st
              (snd (mathRandom o w)))
    as (n & cams & newFaults & a & Hn & _ & _ & _ & Hid & Hc & Hlen & Hall
        & Hf & Hnf & _).
  exists n, cams, newFaults.
  split; [exact Hn|]. split; [exact Hid|]. split; [exact Hc|].
  split; [exact Hlen|]. split; [exact Hall|]. split; [exact Hf|exact Hnf].
Qed.

(** X12.  Adding an NVR (a complete form, no NVR being edited) appends one NVR,
    ONLINE exactly when the connection test succeeds, and eight cameras
    under it, which are online and recording exactly when the test succeeds.
    When the test fails, one open fault per new camera is appended, in the
    order of the cameras; when it succeeds, no fault is.  One alert of
    source [SYSTEM] is prepended (INFO on success, CRITICAL on failure) and
    the live view is not touched. *)
Theorem adding_an_nvr_registers_eight_cameras (o : Oracle) (now : Z)
    (nvrForm : NvrForm) (isEditingNvr : option string) (w : World) :
  form_ip nvrForm ≠ "" → form_username nvrForm ≠ "" →
  form_password nvrForm ≠ "" →
  isEditingNvr = None ∨ isEditingNvr = Some "" →
  let w' := exec (handleSaveNvr o now nvrForm isEditingNvr) w in
  let isSuccess := isSuccessOf o nvrForm w in
  ∃ n cams newFaults a,
    nvrs w' = nvrs w ++ [n]
    ∧ (nvr_status n = ONLINE ↔ isSuccess = true)
    ∧ cameras w' = cameras w ++ cams
    ∧ length cams = 8%nat
    ∧ Forall (λ c, cam_nvrId c = nvr_id n ∧ isOnline c = isSuccess
                   ∧ isRecording c = isSuccess ∧ statusChangedAt c = now) cams
    ∧ faults w' = faults w ++ newFaults
    ∧ (if isSuccess then newFaults = []
       else Forall2 (λ c f, f_cameraId f = cam_id c
                            ∧ f_cameraName f = cam_name c
                            ∧ f_location f = cam_location c
                            ∧ f_nvrId f = cam_nvrId c
                            ∧ timeOff f = now ∧ timeOn f = None
                            ∧ acknowledged f = false) cams newFaults)
    ∧ alerts w' = a :: alerts w
    ∧ a_cameraId a = "SYSTEM"
    ∧ a_severity a = (if isSuccess then SevINFO else SevCRITICAL)
    ∧ liveCameraIds w' = liveCameraIds w.
Proof.
  intros Hip Hus Hpw Hadd. cbv zeta. unfold exec.
  destruct (handleSaveNvr_valid o now nvrForm isEditingNvr w Hip Hus Hpw)
    as (st & Hst & ->).
  assert (E : match isEditingNvr with
              | Some editing =>
                  if bool_decide (editing = "")
                  then addNewNvr o now nvrForm (isSuccessOf o nvrForm w) st
                  else updateExistingNvr o now nvrForm editing
                         (isSuccessOf o nvrForm w) st
              | None => addNewNvr o now nvrForm (isSuccessOf o nvrForm w) st
              end = addNewNvr o now nvrForm (isSuccessOf o nvrForm w) st).
  { by destruct Hadd as [-> | ->]. }
  rewrite E.
  destruct (addNewNvr_spec o now nvrForm (isSuccessOf o nvrForm w) st
              (snd (mathRandom o w)))
    as (n & cams & newFaults & a & Hn & Hs & _ & _ & _ & Hc & Hlen & Hall
        & Hf & Hnf & Ha & Hsrc & Hsev & Hl).
  exists n, cams, newFaults, a.
  split; [exact Hn|]. split; [by rewrite Hs|].
  split; [exact Hc|]. split; [exact Hlen|]. split; [exact Hall|].
  split; [exact Hf|]. split; [exact Hnf|]. split; [exact Ha|].
  split; [exact Hsrc|]. split; [exact Hsev|exact Hl].
Qed.

Lemma adding_an_nvr_registers_eight_cameras_witness :
  ∃ n cams newFaults,
    nvrs (exec (handleSaveNvr quiet 100 bad_form None) site)
    = nvrs site ++ [n]
    ∧ cameras (exec (handleSaveNvr quiet 100 bad_form None) site)
      = cameras site ++ cams
    ∧ length cams = 8%nat
    ∧ faults (exec (handleSaveNvr quiet 100 bad_form None) site)
      = faults site ++ newFaults.
Proof.
  destruct (adding_an_nvr_registers_eight_cameras quiet 100 bad_form None site
              ltac:(discriminate) ltac:(discriminate) ltac:(discriminate)
              (or_introl eq_refl))
    as (n & cams & newFaults & a & Hn & _ & Hc & Hlen & _ & Hf & _).
  exists n, cams, newFaults.
  split; [exact Hn|]. split; [exact Hc|]. split; [exact Hlen|exact Hf].
Defined.

(** The edit path of [handleSaveNvr]. *)
Lemma editing_an_nvr_run o now nvrForm editing w :
  form_ip nvrForm ≠ "" → form_username nvrForm ≠ "" →
  form_password nvrForm ≠ "" → editing ≠ "" →
  let w' := exec (handleSaveNvr o now nvrForm (Some editing)) w in
  let isSuccess := isSuccessOf o nvrForm w in
  ∃ initialStatus,
    (initialStatus = ONLINE ↔ isSuccess = true)
    ∧ cameras w'
      = (λ c, if bool_decide (cam_nvrId c = editing)
              then withOnline c isSuccess else c) <$> cameras w
    ∧ nvrs w'
      = (λ n, if bool_decide (nvr_id n = editing) then
                mkNvr (nvr_id n)
                  (if bool_decide (form_name nvrForm = "")
                   then nvr_name n else form_name nvrForm)
                  (form_ip nvrForm) (form_port nvrForm)
                  (form_username nvrForm) (Some (form_password nvrForm))
                  (form_protocol nvrForm) initialStatus (nvr_addedAt n)
              else n) <$> nvrs w
    ∧ faults w' = faults w
    ∧ liveCameraIds w' = liveCameraIds w
    ∧ ∃ a, alerts w' = a :: alerts w ∧ a_cameraId a = "SYSTEM"
         ∧ a_severity a = (if isSuccess then SevINFO else SevWARNING).
Proof.
  intros Hip Hus Hpw Hed. cbv zeta. unfold exec.
  destruct (handleSaveNvr_valid o now nvrForm (Some editing) w Hip Hus Hpw)
    as (st & Hst & ->).
  rewrite bool_decide_eq_false_2 by done.
  exists st. split; [exact Hst|].
  destruct (isSuccessOf o nvrForm w);
    (split; [reflexivity|]; split; [reflexivity|]; split; [reflexivity|];
     split; [reflexivity|]; eexists; repeat split).
Qed.

(** X14.  Editing an NVR (a complete form, the id [editing] of the NVR being
    edited) changes, of a camera, only the online flag, and only for the
    cameras under that NVR: it becomes the outcome of the connection test,
    while recording and the time of the last status change stay as they
    are.  The NVRs keep their ids and their order, and only the edited one
    changes.  No fault is opened or closed, and the live view is not
    touched. *)
Theorem editing_an_nvr_only_sets_the_online_flag (o : Oracle) (now : Z)
    (nvrForm : NvrForm) (editing : string) (w : World) :
  form_ip nvrForm ≠ "" → form_username nvrForm ≠ "" →
  form_password nvrForm ≠ "" → editing ≠ "" →
  let w' := exec (handleSaveNvr o now nvrForm (Some editing)) w in
  let isSuccess := isSuccessOf o nvrForm w in
  Forall2 (λ c c',
      (cam_nvrId c = editing → c' = withOnline c isSuccess)
      ∧ (cam_nvrId c ≠ editing → c' = c)
      ∧ isRecording c' = isRecording c
      ∧ statusChangedAt c' = statusChangedAt c)
    (cameras w) (cameras w')
  ∧ Forall2 (λ n n',
        nvr_id n' = nvr_id n ∧ nvr_addedAt n' = nvr_addedAt n
        ∧ (nvr_id n ≠ editing → n' = n)
        ∧ (nvr_id n = editing →
           (nvr_status n' = ONLINE ↔ isSuccess = true)
           ∧ nvr_ip n' = form_ip nvrForm))
      (nvrs w) (nvrs w')
  ∧ faults w' = faults w
  ∧ liveCameraIds w' = liveCameraIds w
  ∧ ∃ a, alerts w' = a :: alerts w ∧ a_cameraId a = "SYSTEM"
       ∧ a_severity a = (if isSuccess then SevINFO else SevWARNING).
Proof.
  intros Hip Hus Hpw Hed. cbv zeta.
  destruct (editing_an_nvr_run o now nvrForm editing w Hip Hus Hpw Hed)
    as (st & Hst & Hcams & Hnvrs & Hf & Hl & Ha).
  rewrite Hcams, Hnvrs.
  split; [|split; [|split; [|split]]].
  - apply Forall2_fmap_r, Forall_Forall2_diag, Forall_forall. intros c _.
    unfold compose. cbv beta.
    destruct (decide (cam_nvrId c = editing)) as [Hc|Hc].
    + rewrite bool_decide_eq_true_2 by done.
      split; [done|]. split; [intros ?; contradiction|]. split; reflexivity.
    + rewrite bool_decide_eq_false_2 by done.
      split; [intros ?; contradiction|]. split; [done|]. split; reflexivity.
  - apply Forall2_fmap_r, Forall_Forall2_diag, Forall_forall. intros n _.
    unfold compose. cbv beta.
    destruct (decide (nvr_id n = editing)) as [Hn|Hn].
    + rewrite bool_decide_eq_true_2 by done.
      split; [done|]. split; [done|]. split; [intros ?; contradiction|].
      intros _. split; [exact Hst|done].
    + rewrite bool_decide_eq_false_2 by done.
      split; [done|]. split; [done|]. split; [done|].
      intros ?; contradiction.
  - exact Hf.
  - exact Hl.
  - exact Ha.
Qed.

Lemma editing_an_nvr_only_sets_the_online_flag_witness :
  faults (exec (handleSaveNvr quiet 100 bad_form (Some "NVR-01")) site)
  = faults site
  ∧ liveCameraIds (exec (handleSaveNvr quiet 100 bad_form (Some "NVR-01")) site)
    = liveCameraIds site.
Proof.
  destruct (editing_an_nvr_only_sets_the_online_flag quiet 100 bad_form
              "NVR-01" site ltac:(discriminate) ltac:(discriminate)
              ltac:(discriminate) ltac:(discriminate))
    as (_ & _ & Hf & Hl & _).
  split; [exact Hf|exact Hl].
Defined.

(** ** Network discovery *)

Lemma discoverCameras_spec o now newNvrId count : ∀ i w,
  length (eval (discoverCameras o now newNvrId count i) w) = count
  ∧ Forall (λ c, cam_nvrId c = newNvrId ∧ isOnline c = true
                 ∧ isRecording c = true ∧ statusChangedAt c = now)
      (eval (discoverCameras o now newNvrId count i) w).
Proof.
  induction count as [|count IH]; intros i w; cbn [discoverCameras];
    unfold eval.
  - split; [done|constructor].
  - rewrite !bind_run. cbn [fst mret M_ret].
    destruct (IH (i + 1)%Z (snd (generateId o w))) as [Hlen Hall].
    split; [cbn [length]; by f_equal|].
    constructor; [done|exact Hall].
Qed.

Lemma simulateNetworkDiscovery_spec o now w :
  let w' := exec (simulateNetworkDiscovery o now) w in
  ∃ n cams a,
    nvrs w' = nvrs w ++ [n]
    ∧ nvr_status n = ONLINE
    ∧ nvr_id n = "NVR-" +:+ padStart 2 "0" (pretty (length (nvrs w) + 1)%nat)
    ∧ cameras w' = cameras w ++ cams
    ∧ length cams = 16%nat
    ∧ Forall (λ c, cam_nvrId c = nvr_id n ∧ isOnline c = true
                   ∧ isRecording c = true ∧ statusChangedAt c = now) cams
    ∧ liveCameraIds w'
      = (let availableSlots :=
           (Z.of_nat MAX_LIVE_CAMERAS - Z.of_nat (length (liveCameraIds w)))%Z
         in
         if (0 <? availableSlots)%Z
         then liveCameraIds w ++ (cam_id <$> slice cams 0 availableSlots)
         else liveCameraIds w)
    ∧ faults w' = faults w
    ∧ alerts w' = a :: alerts w
    ∧ a_cameraId a = "SYSTEM" ∧ a_severity a = SevINFO.
Proof.
  cbv zeta. unfold exec, simulateNetworkDiscovery.
  rewrite bind_run. cbn [get fst snd].
  set (newNvrId := "NVR-" +:+ padStart 2 "0" (pretty (length (nvrs w) + 1)%nat)).
  pose proof (discoverCameras_spec o now newNvrId 16 1) as Hspec.
  pose proof (Touches_discoverCameras o fp_none now newNvrId 16 1) as Htouch.
  generalize dependent (discoverCameras o now newNvrId 16 1).
  intros discover Hspec Htouch.
  rewrite bind_run. cbn [updateNvrs fst snd].
  rewrite bind_run.
  set (w1 := mkWorld _ _ _ _ _ _ _ _).
  destruct (Hspec w1) as [Hlen Hall].
  pose proof (within_none _ _ (Htouch w1)) as (C2&N2&F2&A2&T2&L2).
  unfold eval in Hlen, Hall.
  destruct (discover w1) as [cams w2].
  cbn [fst snd w1 cameras nvrs faults alerts toasts liveCameraIds] in *.
  clear w1 Hspec Htouch. run.
  eexists _, cams, _.
  split; [rewrite N2; reflexivity|]. split; [reflexivity|].
  split; [reflexivity|]. split; [rewrite C2; reflexivity|].
  split; [exact Hlen|]. split; [exact Hall|].
  split; [rewrite L2; reflexivity|].
  split; [exact F2|]. split; [rewrite A2; reflexivity|].
  split; reflexivity.
Qed.

Lemma live_after_discovery (live : list string) (cams : list Camera) :
  (let availableSlots :=
     (Z.of_nat MAX_LIVE_CAMERAS - Z.of_nat (length live))%Z in
   if (0 <? availableSlots)%Z
   then live ++ (cam_id <$> slice cams 0 availableSlots)
   else live)
  = live ++ take (MAX_LIVE_CAMERAS - length live) (cam_id <$> cams).
Proof.
  cbv zeta. destruct (0 <? _)%Z eqn:Eslots.
  - apply Z.ltb_lt in Eslots. f_equal.
    pose proof (slice_nonneg cams 0
                  (Z.of_nat MAX_LIVE_CAMERAS - Z.of_nat (length live))
                  ltac:(lia) ltac:(lia)) as E.
    rewrite Z.add_0_l in E. rewrite E.
    change (Z.to_nat 0) with 0%nat. rewrite drop_0.
    rewrite fmap_take. f_equal. lia.
  - apply Z.ltb_ge in Eslots.
    replace (MAX_LIVE_CAMERAS - length live)%nat with 0%nat by lia.
    by rewrite take_0, app_nil_r.
Qed.

(** X9.  A network discovery appends one NVR, ONLINE, whose id is [NVR-] and the
    number of NVRs plus one on two digits, and sixteen cameras under it, all
    online and recording.  The ids of the first new cameras fill the free
    places of the live view, in their order, and the others are not shown.
    No fault is opened, and one INFO alert of source [SYSTEM] is
    prepended. *)
Theorem discovery_adds_an_nvr_with_sixteen_cameras (o : Oracle) (now : Z)
    (w : World) :
  let w' := exec (simulateNetworkDiscovery o now) w in
  ∃ n cams a,
    nvrs w' = nvrs w ++ [n]
    ∧ nvr_status n = ONLINE
    ∧ nvr_id n = "NVR-" +:+ padStart 2 "0" (pretty (length (nvrs w) + 1)%nat)
    ∧ cameras w' = cameras w ++ cams
    ∧ length cams = 16%nat
    ∧ Forall (λ c, cam_nvrId c = nvr_id n ∧ isOnline c = true
                   ∧ isRecording c = true ∧ statusChangedAt c = now) cams
    ∧ liveCameraIds w'
      = liveCameraIds w
        ++ take (MAX_LIVE_CAMERAS - length (liveCameraIds w))
             (cam_id <$> cams)
    ∧ faults w' = faults w
    ∧ alerts w' = a :: alerts w
    ∧ a_cameraId a = "SYSTEM" ∧ a_severity a = SevINFO.
Proof.
  cbv zeta.
  destruct (simulateNetworkDiscovery_spec o now w)
    as (n & cams & a & Hn & Hs & Hid & Hc & Hlen & Hall & Hl & Hf & Ha
        & Hsrc & Hsev).
  exists n, cams, a.
  split; [exact Hn|]. split; [exact Hs|]. split; [exact Hid|].
  split; [exact Hc|]. split; [exact Hlen|]. split; [exact Hall|].
  split; [by rewrite Hl, live_after_discovery|].
  split; [exact Hf|]. split; [exact Ha|]. split; [exact Hsrc|exact Hsev].
Qed.

(** X10.  The id of a discovered NVR is made from the number of NVRs, so it is
    not always new: when an NVR with that id exists already (as after the
    deletion of an NVR with a smaller number), the discovery registers a
    second NVR with the same id, and its sixteen cameras count as cameras of
    both. *)
Theorem discovery_can_reuse_an_nvr_id (o : Oracle) (now : Z) (w : World)
    (n : NvrDevice) :
  n ∈ nvrs w →
  nvr_id n = "NVR-" +:+ padStart 2 "0" (pretty (length (nvrs w) + 1)%nat) →
  let w' := exec (simulateNetworkDiscovery o now) w in
  ∃ n' cams,
    nvrs w' = nvrs w ++ [n'] ∧ nvr_id n' = nvr_id n
    ∧ ¬ NoDup (nvr_id <$> nvrs w')
    ∧ cameras w' = cameras w ++ cams ∧ length cams = 16%nat
    ∧ Forall (λ c, cam_nvrId c = nvr_id n) cams.
Proof.
  intros Hin Hid. cbv zeta.
  destruct (simulateNetworkDiscovery_spec o now w)
    as (n' & cams & a & Hn & _ & Hid' & Hc & Hlen & Hall & _).
  exists n', cams. rewrite Hn, Hc.
  split; [done|]. split; [congruence|]. split.
  - rewrite fmap_app. cbn [fmap list_fmap]. intros Hnd.
    apply NoDup_app in Hnd as (_ & Hdis & _).
    apply (Hdis (nvr_id n)).
    + by apply list_elem_of_fmap_2.
    + rewrite Hid', <- Hid. apply list_elem_of_here.
  - split; [done|]. split; [done|].
    eapply Forall_impl; [exact Hall|]. cbn. intros c (Hc' & _). congruence.
Qed.

Lemma discovery_can_reuse_an_nvr_id_witness :
  let w := exec (executeDeleteNvr quiet 50 (Some "NVR-01")) site in
  let w' := exec (simulateNetworkDiscovery quiet 100) w in
  ∃ n' cams,
    nvrs w' = nvrs w ++ [n'] ∧ nvr_id n' = "NVR-02"
    ∧ ¬ NoDup (nvr_id <$> nvrs w')
    ∧ cameras w' = cameras w ++ cams ∧ length cams = 16%nat
    ∧ Forall (λ c, cam_nvrId c = "NVR-02") cams.
Proof.
  exact (discovery_can_reuse_an_nvr_id quiet 100
           (exec (executeDeleteNvr quiet 50 (Some "NVR-01")) site)
           (nvr_of "NVR-02" ONLINE)
           ltac:(vm_compute; apply list_elem_of_here) eq_refl).
Defined.

(** ** Recording implies online *)

(** X5.  Every operation but the NVR edit whose connection test fails keeps
    the invariant that a recording camera is online: the tick, the
    reconnect, the deletion, the addition of an NVR, the successful edit and
    the analysis result, and also the webcam, pin, unpin and discovery
    operations (the cameras that these add are online). *)
Theorem recording_cameras_stay_online (o : Oracle) (a : Action)
    (la : LiveAction) (w : World) :
  recording_implies_online w →
  (¬ isFailedEdit o a w → recording_implies_online (exec (perform o a) w))
  ∧ recording_implies_online (exec (performLive o la) w).
Proof.
  intros Hw. split; [by apply recording_implies_online_kept|].
  unfold recording_implies_online, recordingOnline in *.
  destruct la as [now|cameraId|cameraId|now]; cbn [performLive].
  - unfold exec, addWebcam. rewrite bind_run. cbn [get fst snd].
    case_bool_decide; [done|]. run. by constructor.
  - destruct (Touches_handlePinCamera o cameraId w) as (E & _).
    unfold exec. by rewrite (E eq_refl).
  - exact Hw.
  - destruct (simulateNetworkDiscovery_spec o now w)
      as (n & cams & a' & _ & _ & _ & Hc & _ & Hall & _).
    rewrite Hc. apply Forall_app. split; [done|].
    eapply Forall_impl; [exact Hall|]. cbn. by intros c (_ & -> & _).
Qed.

Lemma recording_cameras_stay_online_witness :
  recording_implies_online site
  ∧ recording_implies_online (exec (perform quiet (Tick 100)) site)
  ∧ recording_implies_online (exec (performLive quiet (AddWebcam 100)) site).
Proof.
  assert (H : recording_implies_online site)
    by (apply (bool_decide_unpack _); vm_compute; exact I).
  split; [exact H|].
  destruct (recording_cameras_stay_online quiet (Tick 100) (AddWebcam 100)
              site H) as [H1 H2].
  split; [exact (H1 (λ F, F))|exact H2].
Defined.

(** ** The capacity of the live view *)

(** X6.  Every operation keeps the live view within its
    capacity of 32: the tick, the reconnect, the deletion and the save of an
    NVR and the analysis result (the operations of [Action]), and the webcam,
    pin, unpin and discovery operations. *)
Theorem live_view_stays_within_capacity (o : Oracle) (a : Action)
    (la : LiveAction) (w : World) :
  liveWithinCap w →
  liveWithinCap (exec (perform o a) w)
  ∧ liveWithinCap (exec (performLive o la) w).
Proof.
  intros Hw. split.
  - destruct a as [now|now cameraId|now deleteNvrId|now nvrForm isEditingNvr
                  |now cameraId result frame]; cbn [perform].
    + apply (liveWithinCap_frame fp_tick); [done| |done].
      apply Touches_bind; [apply Touches_tick|intros chs; apply Touches_ret].
    + exact (liveWithinCap_frame fp_reconnect _ w eq_refl
               (Touches_handleReconnect o now cameraId) Hw).
    + destruct deleteNvrId as [N|]; [|done].
      destruct (decide (N = "")) as [->|HN]; [done|].
      rewrite executeDeleteNvr_unfold by done.
      unfold liveWithinCap in *. cbn [liveCameraIds].
      etrans; [apply length_filter|done].
    + exact (liveWithinCap_frame fp_save _ w eq_refl
               (Touches_handleSaveNvr o now nvrForm isEditingNvr) Hw).
    + exact (liveWithinCap_frame fp_analysis _ w eq_refl
               (Touches_handleAnalysisResult o now cameraId result frame) Hw).
  - unfold liveWithinCap in *.
    destruct la as [now|cameraId|cameraId|now]; cbn [performLive].
    + destruct (addWebcam_live o now w) as [(_ & ->)|(Hroom & id & ->)];
        [done|cbn; lia].
    + destruct (handlePinCamera_live o cameraId w) as [(_ & ->)|(Hroom & ->)];
        [done|cbn; lia].
    + cbn. etrans; [apply length_filter|done].
    + destruct (simulateNetworkDiscovery_spec o now w)
        as (n & cams & a' & _ & _ & _ & _ & Hlen & _ & Hl & _).
      rewrite Hl, live_after_discovery, length_app, length_take, length_fmap.
      unfold MAX_LIVE_CAMERAS in *. lia.
Qed.

Lemma live_view_stays_within_capacity_witness :
  liveWithinCap site
  ∧ liveWithinCap (exec (perform quiet (DeleteNvr 100 (Some "NVR-02"))) site)
  ∧ liveWithinCap (exec (performLive quiet (Discover 100)) site).
Proof.
  assert (H : liveWithinCap site) by (vm_compute; lia).
  split; [exact H|].
  exact (live_view_stays_within_capacity quiet
           (DeleteNvr 100 (Some "NVR-02")) (Discover 100) site H).
Defined.

(** ** The tick: faults and alerts *)

Lemma continues_refl f : continues f f.
Proof. by left. Qed.

Lemma continues_trans f1 f2 f3 :
  continues f1 f2 → continues f2 f3 → continues f1 f3.
Proof.
  intros [->|(Hopen & t & ->)] H23; [done|].
  destruct H23 as [->|(Hopen' & _)]; [|done].
  right. eauto.
Qed.

Lemma Forall2_continues_refl fs : Forall2 continues fs fs.
Proof. apply Forall_Forall2_diag, Forall_forall. intros. apply continues_refl. Qed.

Lemma Forall2_continues_trans fs1 fs2 fs3 :
  Forall2 continues fs1 fs2 → Forall2 continues fs2 fs3 →
  Forall2 continues fs1 fs3.
Proof.
  intros H12. revert fs3. induction H12 as [|f1 f2 fs1 fs2 Hf _ IH];
    intros fs3 H23.
  - by apply Forall2_nil_inv_l in H23 as ->.
  - apply Forall2_cons_inv_l in H23 as (f3 & fs3' & Hf' & H23 & ->).
    constructor; [by eapply continues_trans|by apply IH].
Qed.

Lemma continues_closeFault cameraId now f :
  continues f (closeFault cameraId now f)
  ∧ (closeFault cameraId now f = f
     ∨ (timeOn f = None ∧ closeFault cameraId now f = withTimeOn f now)).
Proof.
  unfold closeFault, isOpenFor.
  destruct (bool_decide (f_cameraId f = cameraId)); cbn [andb];
    [|split; [apply continues_refl|by left]].
  case_bool_decide as Hopen; [|split; [apply continues_refl|by left]].
  split; [right; eauto|by right].
Qed.

Lemma extendsLog_refl fs : extendsLog fs fs.
Proof.
  exists fs, []. rewrite app_nil_r. split; [done|apply Forall2_continues_refl].
Qed.

Lemma extendsLog_trans fs1 fs2 fs3 :
  extendsLog fs1 fs2 → extendsLog fs2 fs3 → extendsLog fs1 fs3.
Proof.
  intros (k1 & n1 & -> & H1) (k2 & n2 & -> & H2).
  apply Forall2_app_inv_l in H2 as (k2a & k2b & Ha & Hb & ->).
  exists k2a, (k2b ++ n2). rewrite app_assoc. split; [done|].
  by eapply Forall2_continues_trans.
Qed.

Lemma extendsLog_app fs new : extendsLog fs (fs ++ new).
Proof. exists fs, new. split; [done|apply Forall2_continues_refl]. Qed.

Lemma extendsLog_closeFault cameraId now fs :
  extendsLog fs (closeFault cameraId now <$> fs).
Proof.
  exists (closeFault cameraId now <$> fs), []. rewrite app_nil_r.
  split; [done|].
  apply Forall2_fmap_r, Forall_Forall2_diag, Forall_forall. intros f _.
  apply continues_closeFault.
Qed.

(** *** The events of the roll *)

Lemma rollCamera_changes o now nvrs0 cam loc w :
  Forall rollChange (changes loc) →
  Forall rollChange (changes (snd (fst (rollCamera o now nvrs0 cam loc w)))).
Proof.
  intros Hloc.
  assert (Hadd : ∀ t c, t ≠ NVR_FAILURE →
            Forall rollChange (changes loc ++ [mkChange t (Some c) None None])).
  { intros t c Ht. apply Forall_app. split; [done|].
    constructor; [|constructor]. split; [done|]. by eexists. }
  unfold rollCamera. rewrite bind_run. cbn [mathRandom fst snd].
  destruct (negb (isOnline cam) && lt _ _).
  - destruct (bool_decide _).
    + rewrite bind_run. cbn [mathRandom fst snd].
      destruct (lt _ _); [done|].
      unfold mbind, M_bind, updateNvrs. cbn [fst snd mret M_ret changes].
      by apply Hadd.
    + by apply Hadd.
  - destruct (isOnline cam && lt _ _); [by apply Hadd|done].
Qed.

Lemma rollCameras_changes o now nvrs0 cams : ∀ loc w,
  Forall rollChange (changes loc) →
  Forall rollChange
    (changes (snd (fst (rollCameras o now nvrs0 cams loc w)))).
Proof.
  induction cams as [|cam rest IH]; intros loc w Hloc; cbn [rollCameras].
  - done.
  - rewrite bind_run.
    pose proof (rollCamera_changes o now nvrs0 cam loc w Hloc) as H1.
    destruct (rollCamera o now nvrs0 cam loc w) as [[cam' loc1] w1].
    cbn [fst snd] in *. rewrite bind_run.
    pose proof (IH loc1 w1 H1) as H2.
    destruct (rollCameras o now nvrs0 rest loc1 w1) as [[rest' loc2] w2].
    done.
Qed.

Lemma rollChange_filters (chs : list Change) :
  Forall rollChange chs →
  filter (λ c, ch_type c = NVR_FAILURE) chs = []
  ∧ filter (λ c, ch_type c = FAILURE ∧ is_Some (ch_camera c)) chs
    = filter (λ c, ch_type c = FAILURE) chs.
Proof.
  induction 1 as [|ch chs [Ht Hc] _ [IH1 IH2]]; [done|].
  rewrite !filter_cons, IH1, IH2. rewrite decide_False by done.
  split; [done|]. repeat case_decide; try done; tauto.
Qed.

(** *** The two synchronisations *)

Lemma faultSteps_spec o now chs : ∀ nextFaults w,
  ∃ kept new,
    eval (faultSteps o now chs nextFaults) w = kept ++ new
    ∧ Forall2 (λ f f', f' = f ∨ (timeOn f = None ∧ f' = withTimeOn f now))
        nextFaults kept
    ∧ Forall2 (opensFault now)
        (filter (λ c, ch_type c = FAILURE ∧ is_Some (ch_camera c)) chs) new.
Proof.
  induction chs as [|ch rest IH]; intros nextFaults w; cbn [faultSteps];
    unfold eval.
  - exists nextFaults, []. rewrite app_nil_r. split; [done|].
    split; [|constructor].
    apply Forall_Forall2_diag, Forall_forall. by left.
  - rewrite bind_run, filter_cons. unfold faultStep.
    destruct (ch_type ch) eqn:Et, (ch_camera ch) as [cam|] eqn:Ec;
      cbn [fst snd mret M_ret];
      try (rewrite decide_False by (intros [? ?]; first [done|by eapply is_Some_None]);
           apply IH).
    + (* REPAIR *)
      rewrite decide_False by (by intros [? ?]).
      destruct (IH (closeFault (cam_id cam) now <$> nextFaults) w)
        as (kept & new & E & Hk & Hn).
      exists kept, new. split; [exact E|]. split; [|exact Hn].
      apply Forall2_fmap_l in Hk.
      eapply Forall2_impl; [exact Hk|]. cbn. intros f f' Hff'.
      destruct (continues_closeFault (cam_id cam) now f) as [_ [Ef|[Ho Ef]]];
        rewrite Ef in Hff'; [done|].
      destruct Hff' as [->|[Hopen _]]; [by right|done].
    + (* FAILURE *)
      rewrite decide_True by (split; [done|by eexists]).
      rewrite bind_run. cbn [fst snd mret M_ret].
      destruct (IH (nextFaults ++ [fst (openFault o cam now w)])
                  (snd (openFault o cam now w)))
        as (kept & new & E & Hk & Hn).
      apply Forall2_app_inv_l in Hk as (kept1 & kept2 & Hk1 & Hk2 & ->).
      apply Forall2_cons_inv_l in Hk2 as (f' & nil' & Hf' & Hnil & ->).
      apply Forall2_nil_inv_l in Hnil as ->.
      exists kept1, (f' :: new). rewrite <- app_assoc in E.
      split; [exact E|]. split; [exact Hk1|].
      constructor; [|exact Hn].
      exists cam. split; [by rewrite Ec|].
      destruct Hf' as [->|[_ ->]]; by repeat split.
Qed.

Lemma failureAlerts_spec o now chs : ∀ w,
  Forall (λ c, is_Some (ch_camera c)) chs →
  Forall2 (raisesAlert now) chs (eval (failureAlerts o now chs) w).
Proof.
  induction chs as [|ch rest IH]; intros w Hall; cbn [failureAlerts];
    unfold eval.
  - constructor.
  - apply Forall_cons in Hall as [[cam Hcam] Hrest]. rewrite Hcam.
    rewrite !bind_run. cbn [fst snd mret M_ret].
    constructor; [|by apply IH].
    exists cam. by repeat split.
Qed.

Lemma Touches_nvrFailure o now prevCameras :
  Touches fp_nvrs_toasts (nvrFailure o now prevCameras).
Proof. unfold nvrFailure. touches. Qed.

Lemma rollCameras_quiet o now nvrs0 cams w :
  updatesOccurred
    (snd (fst (rollCameras o now nvrs0 cams (mkLocals false []) w))) = false →
  changes (snd (fst (rollCameras o now nvrs0 cams (mkLocals false []) w))) = [].
Proof.
  pose proof (rollCameras_spec o now nvrs0 cams (mkLocals false []) w) as H.
  destruct (rollCameras o now nvrs0 cams (mkLocals false []) w)
    as [[cams' loc'] w'].
  cbn [fst snd]. destruct H as [_ [(_ & -> & _)|(Hu & _)]]; [done|].
  intros E. congruence.
Qed.

(** The faults and the alerts after the updater of a tick, in terms of its
    events: the faults are those before, run through the fault steps of the
    events; the alerts are those raised for the failures, before the alerts
    that were there. *)
Lemma tickUpdater_sync o now nvrs0 prevCameras w :
  let chs := snd (fst (tickUpdater o now nvrs0 prevCameras w)) in
  let w' := snd (tickUpdater o now nvrs0 prevCameras w) in
  (∃ w1, faults w' = eval (faultSteps o now chs (faults w)) w1)
  ∧ (∃ w2, alerts w'
           = eval (failureAlerts o now
                     (filter (λ c, ch_type c = FAILURE ∧ is_Some (ch_camera c))
                        chs)) w2
             ++ alerts w)
  ∧ filter (λ c, ch_type c = FAILURE ∧ is_Some (ch_camera c)) chs
    = filter (λ c, ch_type c = FAILURE) chs.
Proof.
  cbv zeta. unfold tickUpdater. rewrite bind_run.
  pose proof (nvrFailure_spec o now prevCameras w) as Hearly.
  destruct (Touches_nvrFailure o now prevCameras w)
    as (_ & _ & F1 & A1 & _ & _).
  specialize (F1 eq_refl). specialize (A1 eq_refl).
  destruct (nvrFailure o now prevCameras w) as [[[cs chs]|] w1].
  - destruct Hearly as (ch & -> & Ht). cbn [fst snd mret M_ret] in *.
    rewrite !filter_cons, !filter_nil.
    rewrite !decide_False by (rewrite Ht; first [done|by intros [? ?]]).
    split; [exists w; unfold eval; cbn [faultSteps]; rewrite bind_run;
            unfold faultStep; rewrite Ht; cbn; congruence|].
    split; [exists w; cbn; congruence|done].
  - clear Hearly. cbn [fst snd] in *. rewrite bind_run.
    pose proof (rollCameras_changes o now nvrs0 prevCameras (mkLocals false [])
                  w1 ltac:(constructor)) as Hchs.
    pose proof (rollCameras_quiet o now nvrs0 prevCameras w1) as Hquiet.
    destruct (Touches_rollCameras o fp_nvrs_toasts now nvrs0 prevCameras
                (mkLocals false []) eq_refl w1) as (_ & _ & F2 & A2 & _ & _).
    specialize (F2 eq_refl). specialize (A2 eq_refl).
    destruct (rollCameras o now nvrs0 prevCameras (mkLocals false []) w1)
      as [[nextCameras loc] w2].
    cbn [fst snd] in *.
    destruct (rollChange_filters _ Hchs) as [Hnone Hfail].
    destruct (updatesOccurred loc).
    + rewrite bind_run.
      set (toast := match filter _ (changes loc) with [] => _ | _ => _ end).
      assert (Htoast : Touches fp_nvrs_toasts toast) by (subst toast; touches).
      destruct (Htoast w2) as (_ & _ & F3 & A3 & _ & _).
      specialize (F3 eq_refl). specialize (A3 eq_refl).
      destruct (toast w2) as [[] w3]. cbn [fst snd] in *. clear toast Htoast.
      unfold syncFaults, syncAlerts. rewrite Hnone, Hfail.
      cbn [nvrFailureFaults nvrFailureAlerts].
      rewrite !bind_run. cbn [get fst snd mret M_ret].
      rewrite ?bind_run. cbn [get fst snd mret M_ret updateFaults updateAlerts
                                faults alerts app].
      pose proof (within_none _ _
                    (Touches_faultSteps o fp_none now (changes loc) (faults w3)
                       w3)) as (_ & _ & _ & A4 & _ & _).
      assert (E4 : fst (faultSteps o now (changes loc) (faults w3) w3)
                   = eval (faultSteps o now (changes loc) (faults w)) w3)
        by (by rewrite F3, F2, F1).
      destruct (faultSteps o now (changes loc) (faults w3) w3) as [nf w4].
      cbn [fst snd] in *.
      set (w5 := mkWorld _ _ _ _ _ _ _ _).
      pose proof (within_none _ _
                    (Touches_failureAlerts o fp_none now
                       (filter (λ c, ch_type c = FAILURE) (changes loc)) w5))
        as (_ & _ & F6 & A6 & _ & _).
      cbn [w5 faults alerts] in F6, A6.
      split; [|split; [|done]].
      * exists w3. rewrite F6. exact E4.
      * exists w5. rewrite Hfail, A6, A4, A3, A2, A1. reflexivity.
    + rewrite (Hquiet eq_refl). cbn [fst snd mret M_ret].
      split; [exists w; cbn; congruence|].
      split; [exists w; cbn; congruence|done].
Qed.

Lemma tick_run o now w :
  tick o now w
  = (snd (fst (tickUpdater o now (nvrs w) (cameras w) w)),
     snd (updateCameras
            (λ _, fst (fst (tickUpdater o now (nvrs w) (cameras w) w)))
            (snd (tickUpdater o now (nvrs w) (cameras w) w)))).
Proof.
  unfold tick. rewrite bind_run. cbn [get fst snd]. rewrite bind_run.
  by destruct (tickUpdater o now (nvrs w) (cameras w) w) as [[updated chs] w1].
Qed.

Lemma tick_sync o now w :
  let chs := eval (tick o now) w in
  let w' := exec (tick o now) w in
  (∃ w1, faults w' = eval (faultSteps o now chs (faults w)) w1)
  ∧ (∃ w2, alerts w'
           = eval (failureAlerts o now
                     (filter (λ c, ch_type c = FAILURE ∧ is_Some (ch_camera c))
                        chs)) w2
             ++ alerts w)
  ∧ filter (λ c, ch_type c = FAILURE ∧ is_Some (ch_camera c)) chs
    = filter (λ c, ch_type c = FAILURE) chs.
Proof.
  cbv zeta. unfold exec. unfold eval at 2 4 5 6. rewrite tick_run.
  cbn [fst snd updateCameras faults alerts].
  exact (tickUpdater_sync o now (nvrs w) (cameras w) w).
Qed.

(** X1.  One tick.  The faults that were there are still there, in their places,
    each unchanged or, if it was open, closed at the time of the tick; after
    them comes one new fault for every FAILURE event of the tick, in the
    order of the events, opened at the time of the tick for the camera of
    the event.  One WARNING alert per FAILURE event is put before the alerts
    that were there, and no other alert is added or removed (so a tick in
    which an NVR fails adds neither a fault nor an alert). *)
Theorem tick_opens_a_fault_and_an_alert_per_failure (o : Oracle) (now : Z)
    (w : World) :
  let chs := eval (tick o now) w in
  let w' := exec (tick o now) w in
  let failures := filter (λ c, ch_type c = FAILURE) chs in
  ∃ kept newFaults newAlerts,
    faults w' = kept ++ newFaults
    ∧ Forall2 (λ f f', f' = f ∨ (timeOn f = None ∧ f' = withTimeOn f now))
        (faults w) kept
    ∧ Forall2 (opensFault now) failures newFaults
    ∧ alerts w' = newAlerts ++ alerts w
    ∧ Forall2 (raisesAlert now) failures newAlerts.
Proof.
  cbv zeta. destruct (tick_sync o now w) as ((w1 & Hf) & (w2 & Ha) & E).
  destruct (faultSteps_spec o now (eval (tick o now) w) (faults w) w1)
    as (kept & new & Hfs & Hk & Hn).
  exists kept, new. eexists. rewrite Hf, Hfs, Ha, <- E.
  split; [done|]. split; [done|]. split; [done|]. split; [done|].
  apply failureAlerts_spec, Forall_forall.
  by intros ch [[_ Hc] _]%list_elem_of_filter.
Qed.

(** ** The fault log is append-only *)

Lemma extendsLog_touch {A} (fp : Footprint) (m : M A) w :
  fp_faults fp = false → Touches fp m →
  extendsLog (faults w) (faults (snd (m w))).
Proof.
  intros Hfp Hm. destruct (Hm w) as (_ & _ & Hf & _).
  rewrite (Hf Hfp). apply extendsLog_refl.
Qed.

(** X3.  No operation removes a fault record, reorders the records, reopens a
    closed one or edits one: after every operation each record that was in
    the log is still at its place, unchanged or (if it was open) closed, and
    new records are only appended. *)
Theorem fault_log_is_append_only (o : Oracle) (a : Action) (la : LiveAction)
    (w : World) :
  extendsLog (faults w) (faults (exec (perform o a) w))
  ∧ extendsLog (faults w) (faults (exec (performLive o la) w)).
Proof.
  split.
  - destruct a as [now|now cameraId|now deleteNvrId|now nvrForm isEditingNvr
                  |now cameraId result frame]; cbn [perform].
    + assert (E : faults (exec (tick o now ≫= λ _, mret tt) w)
                  = faults (exec (tick o now) w)).
      { unfold exec. rewrite bind_run. reflexivity. }
      rewrite E.
      destruct (tick_sync o now w) as ((w1 & Hf) & _ & _).
      destruct (faultSteps_spec o now (eval (tick o now) w) (faults w) w1)
        as (kept & new & Hfs & Hk & _).
      rewrite Hfs in Hf.
      exists kept, new. split; [done|].
      eapply Forall2_impl; [exact Hk|]. cbn.
      intros f f' [->|[Ho ->]]; [by left|right; eauto].
    + rewrite handleReconnect_faults. apply extendsLog_closeFault.
    + exact (extendsLog_touch fp_delete _ w eq_refl
               (Touches_executeDeleteNvr o now deleteNvrId)).
    + unfold exec, handleSaveNvr. destruct (_ || _) eqn:Evalid.
      { apply extendsLog_refl. }
      apply orb_false_iff in Evalid as [[Hip Hus]%orb_false_iff Hpw].
      apply bool_decide_eq_false in Hip, Hus, Hpw.
      rewrite bind_run.
      set (s := _ && _). set (st := if s then ONLINE else _).
      assert (Hadd : extendsLog (faults w)
                (faults (snd (addNewNvr o now nvrForm s st
                                (snd (mathRandom o w)))))).
      { destruct (addNewNvr_spec o now nvrForm s st (snd (mathRandom o w)))
          as (n & cams & newFaults & a & _ & _ & _ & _ & _ & _ & _ & _
              & Hf & _).
        unfold exec in Hf. rewrite Hf. apply extendsLog_app. }
      destruct isEditingNvr as [editing|]; [|exact Hadd].
      destruct (bool_decide (editing = "")); [exact Hadd|].
      exact (extendsLog_touch fp_edit _ (snd (mathRandom o w)) eq_refl
               (Touches_updateExistingNvr o now nvrForm editing s st)).
    + exact (extendsLog_touch fp_analysis _ w eq_refl
               (Touches_handleAnalysisResult o now cameraId result frame)).
  - destruct la as [now|cameraId|cameraId|now]; cbn [performLive].
    + exact (extendsLog_touch fp_webcam _ w eq_refl (Touches_addWebcam o now)).
    + exact (extendsLog_touch fp_pin _ w eq_refl
               (Touches_handlePinCamera o cameraId)).
    + apply extendsLog_refl.
    + exact (extendsLog_touch fp_discovery _ w eq_refl
               (Touches_simulateNetworkDiscovery o now)).
Qed.

(** ** The tick: cameras and NVRs *)

Lemma nvrStep_trans n1 n2 n3 : nvrStep n1 n2 → nvrStep n2 n3 → nvrStep n1 n3.
Proof.
  unfold nvrStep.
  intros [->|[->| ->]] [->|[->| ->]]; auto.
Qed.

Lemma Forall2_nvrStep_refl ns : Forall2 nvrStep ns ns.
Proof. apply Forall_Forall2_diag, Forall_forall. by left. Qed.

Lemma Forall2_nvrStep_trans ns1 ns2 ns3 :
  Forall2 nvrStep ns1 ns2 → Forall2 nvrStep ns2 ns3 → Forall2 nvrStep ns1 ns3.
Proof.
  intros H12. revert ns3. induction H12 as [|n1 n2 ns1 ns2 Hn _ IH];
    intros ns3 H23.
  - by apply Forall2_nil_inv_l in H23 as ->.
  - apply Forall2_cons_inv_l in H23 as (n3 & ns3' & Hn' & H23 & ->).
    constructor; [by eapply nvrStep_trans|by apply IH].
Qed.

Lemma Forall2_fmap_eq {A B} (f : A → B) (R : A → A → Prop) (l l' : list A) :
  Forall2 R l l' → (∀ a a', R a a' → f a' = f a) → f <$> l' = f <$> l.
Proof.
  induction 1 as [|a a' l l' Ha _ IH]; intros Hf; [done|].
  rewrite !fmap_cons, (Hf a a' Ha), IH; done.
Qed.

Lemma NvrSteps_bind {A B} (m : M A) (k : A → M B) :
  NvrSteps m → (∀ a, NvrSteps (k a)) → NvrSteps (m ≫= k).
Proof.
  intros Hm Hk w. rewrite bind_run.
  eapply Forall2_nvrStep_trans; [apply Hm|apply Hk].
Qed.

Lemma NvrSteps_touch {A} (m : M A) : Touches fp_no_nvrs m → NvrSteps m.
Proof.
  intros Hm w. destruct (Hm w) as (_ & Hn & _).
  rewrite (Hn eq_refl). apply Forall2_nvrStep_refl.
Qed.

Lemma NvrSteps_update (hit : NvrDevice → bool) (s : NvrStatus) :
  s = ONLINE ∨ s = OFFLINE →
  NvrSteps (updateNvrs (fmap (λ n, if hit n then withNvrStatus n s else n))).
Proof.
  intros Hs w. cbn [updateNvrs snd nvrs].
  apply Forall2_fmap_r, Forall_Forall2_diag, Forall_forall. intros n _.
  unfold nvrStep, compose. cbv beta.
  destruct (hit n); [|by left]. destruct Hs as [-> | ->]; auto.
Qed.

Lemma NvrSteps_rollCamera o now nvrs0 cam loc :
  NvrSteps (rollCamera o now nvrs0 cam loc).
Proof.
  unfold rollCamera.
  apply NvrSteps_bind; [apply NvrSteps_touch; touches|intros roll].
  destruct (negb (isOnline cam) && lt _ _).
  - destruct (bool_decide _); [|apply NvrSteps_touch; touches].
    apply NvrSteps_bind; [apply NvrSteps_touch; touches|intros r].
    destruct (lt _ _); [apply NvrSteps_touch; touches|].
    apply NvrSteps_bind; [|intros _; apply NvrSteps_touch; touches].
    apply (NvrSteps_update (λ n, bool_decide (nvr_id n = cam_nvrId cam))).
    by left.
  - destruct (isOnline cam && lt _ _); apply NvrSteps_touch; touches.
Qed.

Lemma NvrSteps_rollCameras o now nvrs0 cams : ∀ loc,
  NvrSteps (rollCameras o now nvrs0 cams loc).
Proof.
  induction cams as [|cam rest IH]; intros loc; cbn [rollCameras].
  - apply NvrSteps_touch. touches.
  - apply NvrSteps_bind; [apply NvrSteps_rollCamera|intros [cam' loc']].
    apply NvrSteps_bind; [apply IH|intros [rest' loc'']].
    apply NvrSteps_touch. touches.
Qed.

Lemma NvrSteps_tick o now : NvrSteps (tick o now).
Proof.
  unfold tick, tickUpdater.
  apply NvrSteps_bind; [apply NvrSteps_touch; touches|intros w0].
  apply NvrSteps_bind; [|intros [updated chs]; apply NvrSteps_touch; touches].
  apply NvrSteps_bind.
  { unfold nvrFailure.
    apply NvrSteps_bind; [apply NvrSteps_touch; touches|intros r].
    destruct (lt _ _); [|apply NvrSteps_touch; touches].
    apply NvrSteps_bind; [apply NvrSteps_touch; touches|intros r'].
    destruct (negb _); [|apply NvrSteps_touch; touches].
    apply NvrSteps_bind; [|intros _; apply NvrSteps_touch; touches].
    apply (NvrSteps_update (λ n, bool_decide (Some (nvr_id n) = _))).
    by right. }
  intros [result|]; [apply NvrSteps_touch; touches|].
  apply NvrSteps_bind; [apply NvrSteps_rollCameras|intros [nextCameras loc]].
  destruct (updatesOccurred loc); [|apply NvrSteps_touch; touches].
  apply NvrSteps_touch.
  apply Touches_bind; [touches|intros _].
  apply Touches_bind; [|intros _].
  { unfold syncFaults. apply Touches_bind; [touches|intros w1].
    apply Touches_bind; [apply Touches_nvrFailureFaults|intros nf].
    apply Touches_bind; [apply Touches_faultSteps|intros nf']. touches. }
  apply Touches_bind; [|intros _; touches].
  unfold syncAlerts.
  apply Touches_bind; [apply Touches_nvrFailureAlerts|intros a1].
  apply Touches_bind; [apply Touches_failureAlerts|intros a2]. touches.
Qed.

(** X2.  A tick never adds, removes or reorders a camera or an NVR.  Every
    camera after the tick is the camera that was at its place, left alone,
    repaired (online and recording) or failed (offline and not recording):
    its id, name, location and NVR are kept.  Every NVR is the NVR that was
    at its place with, at most, its status set to ONLINE or OFFLINE.  The
    live view is not touched. *)
Theorem tick_keeps_the_devices (o : Oracle) (now : Z) (w : World) :
  let w' := exec (tick o now) w in
  Forall2 (tickStep now) (cameras w) (cameras w')
  ∧ cam_id <$> cameras w' = cam_id <$> cameras w
  ∧ cam_nvrId <$> cameras w' = cam_nvrId <$> cameras w
  ∧ Forall2 nvrStep (nvrs w) (nvrs w')
  ∧ nvr_id <$> nvrs w' = nvr_id <$> nvrs w
  ∧ liveCameraIds w' = liveCameraIds w.
Proof.
  cbv zeta. pose proof (tick_cameras o now w) as Hc.
  pose proof (NvrSteps_tick o now w) as Hn.
  destruct (Touches_tick o now w) as (_ & _ & _ & _ & _ & Hl).
  split; [exact Hc|]. split; [|split; [|split; [exact Hn|split]]].
  - apply (Forall2_fmap_eq cam_id _ _ _ Hc).
    by intros c c' [->|[->| ->]].
  - apply (Forall2_fmap_eq cam_nvrId _ _ _ Hc).
    by intros c c' [->|[->| ->]].
  - apply (Forall2_fmap_eq nvr_id _ _ _ Hn).
    by intros n n' [->|[->| ->]].
  - exact (Hl eq_refl).
Qed.

(** ** The store *)

Section Store.

Context `{JsNumber} `{!JsonCodec}.

Implicit Type ls : gmap string string.

Lemma restoreBackup_cases jsonString ls :
  (fst (restoreBackup jsonString ls) = false
   ∧ snd (restoreBackup jsonString ls) = ls
   ∧ ¬ ∃ data cs ns,
         parse jsonString = Some data
         ∧ prop "cameras" data = Some (JArr cs)
         ∧ prop "nvrs" data = Some (JArr ns))
  ∨ (∃ data cs ns,
       parse jsonString = Some data
       ∧ prop "cameras" data = Some (JArr cs)
       ∧ prop "nvrs" data = Some (JArr ns)
       ∧ restoreBackup jsonString ls
         = (true,
            <[KEYS.INIT := "true"]>
              (<[KEYS.FAULTS := stringify (or_empty (prop "faults" data))]>
              (<[KEYS.ALERTS := stringify (or_empty (prop "alerts" data))]>
              (<[KEYS.USERS := stringify (or_empty (prop "users" data))]>
              (<[KEYS.NVRS := stringify (JArr ns)]>
              (<[KEYS.CAMERAS := stringify (JArr cs)]> ls))))))).
Proof.
  unfold restoreBackup.
  destruct (parse jsonString) as [data|];
    [|left; split; [done|split; [done|by intros (?&?&?&?&_)]]].
  destruct data as [|b|n|s|items|fields];
    try (left; split; [done|split; [done|
           by intros (?&?&?&[= <-]&?&_)]]).
  destruct (prop "cameras" (JObj fields)) as [[|b|n|s|cameras|fs]|] eqn:Ec;
    cbn [truthy isArray negb]; rewrite ?orb_true_r;
    try (left; split; [done|split; [done|
           intros (?&?&?&[= <-]&?&_); congruence]]).
  destruct (prop "nvrs" (JObj fields)) as [[|b|n|s|nvrs|fs]|] eqn:En;
    cbn [truthy isArray negb orb]; rewrite ?orb_true_r;
    try (left; split; [done|split; [done|
           intros (?&?&?&[= <-]&?&?); congruence]]).
  right. exists (JObj fields), cameras, nvrs. by rewrite Ec, En.
Qed.

Lemma initialize_marked seed ls text :
  ls !! KEYS.INIT = Some text → text ≠ "" → initialize seed ls = ls.
Proof.
  intros E Htext. unfold initialize. destruct seed as [[[[cs ns] us] fs] als].
  rewrite E. cbn [or_else].
  rewrite (bool_decide_eq_false_2 (text = "")) by done.
  by rewrite bool_decide_eq_false_2.
Qed.

(** X27.  [restoreBackup] writes everything or nothing.  It returns [true] exactly
    when the text parses to an object whose [cameras] and [nvrs] are arrays;
    when it returns [false] the storage is left as it was (also by a text
    that parses but lacks one of the two arrays).  After a restore the
    store is marked as initialised, so that the next [initialize] does not
    put the seed data over the restored collections. *)
Theorem restore_is_all_or_nothing (jsonString : string) (ls : gmap string string)
    (seed : list json * list json * list json * list json * list json) :
  let restored := restoreBackup jsonString ls in
  (fst restored = true ↔
   ∃ data cs ns,
     parse jsonString = Some data
     ∧ prop "cameras" data = Some (JArr cs)
     ∧ prop "nvrs" data = Some (JArr ns))
  ∧ (fst restored = false → snd restored = ls)
  ∧ (fst restored = true →
     snd restored !! KEYS.INIT = Some "true"
     ∧ initialize seed (snd restored) = snd restored).
Proof.
  cbv zeta.
  destruct (restoreBackup_cases jsonString ls)
    as [(E1 & E2 & Hno)|(data & cs & ns & Hp & Hc & Hn & E)].
  - rewrite E1, E2.
    split. { split; [discriminate|by intros ?]. }
    split; [done|discriminate].
  - rewrite E. cbn [fst snd].
    split. { split; [intros _; by exists data, cs, ns|done]. }
    split; [discriminate|]. intros _.
    assert (Hinit : (<[KEYS.INIT := "true"]>
              (<[KEYS.FAULTS := stringify (or_empty (prop "faults" data))]>
              (<[KEYS.ALERTS := stringify (or_empty (prop "alerts" data))]>
              (<[KEYS.USERS := stringify (or_empty (prop "users" data))]>
              (<[KEYS.NVRS := stringify (JArr ns)]>
              (<[KEYS.CAMERAS := stringify (JArr cs)]> ls))))))
              !! KEYS.INIT = Some "true") by apply lookup_insert_eq.
    split; [exact Hinit|]. by apply (initialize_marked seed _ "true").
Qed.

(** X28.  What a successful restore stores: the two arrays of the file and, for
    users, alerts and faults, the value of the file or the empty array when
    the file has none (or a falsy one).  Reading the store gives these five
    values as [JSON.stringify] writes them, that is, with [null] in the
    place of every number that is not finite (which is what a numeral that
    overflows, such as [1e999], is read as) and [0] in the place of [-0];
    a file that printing and reading leaves unchanged is read as it is. *)
Theorem restore_fills_missing_collections (jsonString : string)
    (ls : gmap string string) (data : json) (cs ns : list json) :
  parse jsonString = Some data →
  prop "cameras" data = Some (JArr cs) →
  prop "nvrs" data = Some (JArr ns) →
  getData (snd (restoreBackup jsonString ls))
  = Some (mkData (written (JArr cs)) (written (JArr ns))
            (written (or_empty (prop "users" data)))
            (written (or_empty (prop "alerts" data)))
            (written (or_empty (prop "faults" data))))
  ∧ (prop "users" data = None → or_empty (prop "users" data) = JArr [])
  ∧ (prop "alerts" data = None → or_empty (prop "alerts" data) = JArr [])
  ∧ (prop "faults" data = None → or_empty (prop "faults" data) = JArr [])
  ∧ (written data = data →
     getData (snd (restoreBackup jsonString ls))
     = Some (mkData (JArr cs) (JArr ns) (or_empty (prop "users" data))
               (or_empty (prop "alerts" data))
               (or_empty (prop "faults" data)))).
Proof.
  intros Hp Hc Hn.
  destruct (restoreBackup_cases jsonString ls)
    as [(_ & _ & Hno)|(data' & cs' & ns' & Hp' & Hc' & Hn' & E)].
  { exfalso. apply Hno. by exists data, cs, ns. }
  rewrite Hp in Hp'. injection Hp' as <-.
  rewrite Hc in Hc'. injection Hc' as <-.
  rewrite Hn in Hn'. injection Hn' as <-.
  rewrite E. cbn [snd].
  assert (Hread :
    getData
      (<[KEYS.INIT := "true"]>
        (<[KEYS.FAULTS := stringify (or_empty (prop "faults" data))]>
        (<[KEYS.ALERTS := stringify (or_empty (prop "alerts" data))]>
        (<[KEYS.USERS := stringify (or_empty (prop "users" data))]>
        (<[KEYS.NVRS := stringify (JArr ns)]>
        (<[KEYS.CAMERAS := stringify (JArr cs)]> ls))))))
    = Some (mkData (written (JArr cs)) (written (JArr ns))
              (written (or_empty (prop "users" data)))
              (written (or_empty (prop "alerts" data)))
              (written (or_empty (prop "faults" data))))).
  { unfold getData.
    rewrite (readCollection_stored KEYS.CAMERAS (JArr cs)),
            (readCollection_stored KEYS.NVRS (JArr ns)),
            (readCollection_stored KEYS.USERS (or_empty (prop "users" data))),
            (readCollection_stored KEYS.ALERTS (or_empty (prop "alerts" data))),
            (readCollection_stored KEYS.FAULTS (or_empty (prop "faults" data)));
      [done|by simplify_map_eq..]. }
  split; [exact Hread|].
  split; [by intros ->|]. split; [by intros ->|]. split; [by intros ->|].
  intros Hdata. rewrite Hread.
  assert (Hprop : ∀ k v, prop k data = Some v → written v = v).
  { intros k v Hk. destruct data as [| | | |items|fields]; try done.
    cbn [prop] in Hk. cbn [written] in Hdata. injection Hdata as Hdata.
    clear -Hk Hdata. induction fields as [|[k' x] fs IH]; [done|].
    cbn [map fst snd] in Hdata. injection Hdata as Hx Hfs.
    cbn [lookup_field] in Hk.
    destruct (lookup_field k fs) as [v'|] eqn:El.
    - injection Hk as <-. by apply IH.
    - case_bool_decide; [|done]. by injection Hk as <-. }
  assert (Hor : ∀ k, written (or_empty (prop k data)) = or_empty (prop k data)).
  { intros k. unfold or_empty. destruct (prop k data) as [v|] eqn:Ek; [|done].
    destruct (truthy (Some v)); [|done]. cbn [default]. by apply (Hprop k). }
  by rewrite (Hprop _ _ Hc), (Hprop _ _ Hn), !Hor.
Qed.

Lemma readCollection_insert_ne k k' text ls :
  k ≠ k' → readCollection k (<[k' := text]> ls) = readCollection k ls.
Proof. intros Hk. unfold readCollection. by rewrite lookup_insert_ne. Qed.

Lemma readCollection_insert_eq k v ls :
  readCollection k (<[k := stringify v]> ls) = Some (written v).
Proof. apply readCollection_stored, lookup_insert_eq. Qed.

(** X29.  Saving a collection and reading the store gives the saved array for
    that collection, as [JSON.stringify] writes it (with [null] in the
    place of every number that is not finite; so the array itself when its
    items hold no such number), and, for the four others, what was read
    before. *)
Theorem saved_collection_is_read_back (items : list json)
    (ls : gmap string string) (d : Data) :
  getData ls = Some d →
  getData (saveCameras items ls)
  = Some (mkData (JArr (map written items)) (data_nvrs d) (data_users d)
            (data_alerts d) (data_faults d))
  ∧ getData (saveNvrs items ls)
    = Some (mkData (data_cameras d) (JArr (map written items)) (data_users d)
              (data_alerts d) (data_faults d))
  ∧ getData (saveUsers items ls)
    = Some (mkData (data_cameras d) (data_nvrs d) (JArr (map written items))
              (data_alerts d) (data_faults d))
  ∧ getData (saveAlerts items ls)
    = Some (mkData (data_cameras d) (data_nvrs d) (data_users d)
              (JArr (map written items)) (data_faults d))
  ∧ getData (saveFaults items ls)
    = Some (mkData (data_cameras d) (data_nvrs d) (data_users d)
              (data_alerts d) (JArr (map written items)))
  ∧ (Forall (λ x, written x = x) items → map written items = items).
Proof.
  unfold getData. intros Hd.
  destruct (readCollection KEYS.CAMERAS ls) as [c|] eqn:Ec; [|done].
  destruct (readCollection KEYS.NVRS ls) as [n|] eqn:En; [|done].
  destruct (readCollection KEYS.USERS ls) as [u|] eqn:Eu; [|done].
  destruct (readCollection KEYS.ALERTS ls) as [a|] eqn:Ea; [|done].
  destruct (readCollection KEYS.FAULTS ls) as [f|] eqn:Ef; [|done].
  cbn in Hd. injection Hd as <-. cbn [data_cameras data_nvrs data_users
                                        data_alerts data_faults].
  unfold saveCameras, saveNvrs, saveUsers, saveAlerts, saveFaults.
  split; [|split; [|split; [|split; [|split]]]].
  1-5: rewrite ?readCollection_insert_eq, ?readCollection_insert_ne by done;
       rewrite ?Ec, ?En, ?Eu, ?Ea, ?Ef; reflexivity.
  intros Hitems. induction Hitems as [|x xs Hx _ IH]; [done|].
  cbn [map]. by rewrite Hx, IH.
Qed.

(** X30.  [initialize] seeds a store once.  On the empty store it writes the seed,
    which is what is then read (as [JSON.stringify] writes it: with [null]
    in the place of every number that is not finite); on a store that is
    marked as initialised it does nothing, so a second [initialize] (with
    whatever seed) changes nothing.  An empty store reads as five empty
    arrays. *)
Theorem initialize_seeds_once
    (seed seed' : list json * list json * list json * list json * list json)
    (ls : gmap string string) :
  initialize seed' (initialize seed ls) = initialize seed ls
  ∧ getData (initialize seed reset)
    = (let '(cameras, nvrs, users, faults, alerts) := seed in
       Some (mkData (JArr (map written cameras)) (JArr (map written nvrs))
               (JArr (map written users)) (JArr (map written alerts))
               (JArr (map written faults))))
  ∧ getData reset
    = Some (mkData (JArr []) (JArr []) (JArr []) (JArr []) (JArr [])).
Proof.
  split; [|split].
  - destruct seed as [[[[cs ns] us] fs] als].
    unfold initialize at 2 3. case_bool_decide as Hinit.
    + by apply (initialize_marked seed' _ "true"); [apply lookup_insert_eq|].
    + destruct (ls !! KEYS.INIT) as [text|] eqn:E; [|done].
      apply (initialize_marked seed' _ text E).
      cbn [or_else] in Hinit. by case_bool_decide.
  - destruct seed as [[[[cs ns] us] fs] als]. unfold initialize, reset.
    rewrite lookup_empty. cbn [or_else].
    rewrite bool_decide_eq_true_2 by done.
    unfold getData.
    rewrite (readCollection_stored KEYS.CAMERAS (JArr cs)),
            (readCollection_stored KEYS.NVRS (JArr ns)),
            (readCollection_stored KEYS.USERS (JArr us)),
            (readCollection_stored KEYS.ALERTS (JArr als)),
            (readCollection_stored KEYS.FAULTS (JArr fs));
      [done|by simplify_map_eq..].
  - unfold getData, reset.
    rewrite !readCollection_missing by apply lookup_empty. done.
Qed.

End Store.

Lemma restore_fills_missing_collections_witness :
  let _ := reference_codec in
  getData (snd (restoreBackup overflow_camera_file reset))
  = Some (mkData (JArr [JNull]) (JArr []) (JArr []) (JArr []) (JArr [])).
Proof.
  exact (proj1 (@restore_fills_missing_collections _ reference_codec
                  overflow_camera_file reset
                  (JObj [("cameras", JArr [JNum (Infinity false)]);
                         ("nvrs", JArr [])])
                  [JNum (Infinity false)] []
                  ltac:(vm_compute; reflexivity) eq_refl eq_refl)).
Defined.

Lemma saved_collection_is_read_back_witness :
  let _ := reference_codec in
  getData (saveCameras [JObj [("id", JStr "c9"); ("zoom", JNum NaN)]]
             saved_store)
  = Some (mkData (JArr [JObj [("id", JStr "c9"); ("zoom", JNull)]])
            (JArr [JObj [("id", JStr "NVR-02"); ("status", JStr "ONLINE")]])
            (JArr []) (JArr [])
            (JArr [JObj [("id", JStr "f4"); ("cameraId", JStr "c4");
                         ("timeOff", JNum (Int 10));
                         ("acknowledged", JBool false)]])).
Proof.
  exact (proj1 (@saved_collection_is_read_back _ reference_codec
                  [JObj [("id", JStr "c9"); ("zoom", JNum NaN)]] saved_store
                  (mkData
                     (JArr [JObj [("id", JStr "c4"); ("nvrId", JStr "NVR-02");
                                  ("isOnline", JBool false);
                                  ("isRecording", JBool false);
                                  ("statusChangedAt", JNum (Int 10))]])
                     (JArr [JObj [("id", JStr "NVR-02");
                                  ("status", JStr "ONLINE")]])
                     (JArr []) (JArr [])
                     (JArr [JObj [("id", JStr "f4"); ("cameraId", JStr "c4");
                                  ("timeOff", JNum (Int 10));
                                  ("acknowledged", JBool false)]]))
                  ltac:(vm_compute; reflexivity))).
Defined.

(** ** Faults in step with the cameras *)

Lemma rollCamera_rolled o now nvrs0 cam loc w :
  ∃ ev, rolled now cam (fst (fst (rollCamera o now nvrs0 cam loc w))) ev
    ∧ changes (snd (fst (rollCamera o now nvrs0 cam loc w)))
      = changes loc ++ ev.
Proof.
  unfold rollCamera. rewrite bind_run. cbn [mathRandom fst snd].
  destruct (isOnline cam) eqn:Eon; cbn [negb andb].
  - destruct (lt _ _).
    + eexists. split; [by apply rolled_failure|done].
    + exists []. rewrite app_nil_r. split; [apply rolled_same|done].
  - destruct (lt _ _).
    + destruct (bool_decide _).
      * rewrite bind_run. cbn [mathRandom fst snd].
        destruct (lt _ _).
        -- exists []. rewrite app_nil_r. split; [apply rolled_same|done].
        -- unfold mbind, M_bind, updateNvrs. cbn [fst snd mret M_ret].
           eexists. split; [by apply rolled_repair|done].
      * eexists. split; [by apply rolled_repair|done].
    + exists []. rewrite app_nil_r. split; [apply rolled_same|done].
Qed.

Lemma rollCameras_rolled o now nvrs0 cams : ∀ loc w,
  ∃ evs,
    Forall3 (rolled now) cams
      (fst (fst (rollCameras o now nvrs0 cams loc w))) evs
    ∧ changes (snd (fst (rollCameras o now nvrs0 cams loc w)))
      = changes loc ++ concat evs.
Proof.
  induction cams as [|cam rest IH]; intros loc w; cbn [rollCameras].
  - exists []. cbn. rewrite app_nil_r. split; [constructor|done].
  - rewrite bind_run.
    destruct (rollCamera_rolled o now nvrs0 cam loc w) as (ev & Hev & Hch).
    destruct (rollCamera o now nvrs0 cam loc w) as [[cam' loc1] w1].
    cbn [fst snd] in *. rewrite bind_run.
    destruct (IH loc1 w1) as (evs & Hevs & Hchs).
    destruct (rollCameras o now nvrs0 rest loc1 w1) as [[rest' loc2] w2].
    cbn [fst snd mret M_ret] in *.
    exists (ev :: evs). split; [by constructor|].
    rewrite Hchs, Hch. cbn [concat]. by rewrite app_assoc.
Qed.

Lemma Forall3_rolled_same now cams :
  Forall3 (rolled now) cams cams (replicate (length cams) []).
Proof.
  induction cams as [|c cams IH]; cbn; constructor; [apply rolled_same|done].
Qed.

Lemma concat_replicate_nil {A} n : concat (replicate n (@nil A)) = [].
Proof. induction n as [|n IH]; [done|]. exact IH. Qed.

(** The cameras and the events that the updater of a tick returns: the
    outcome of the rolls, or the failure of an NVR. *)
Lemma tickUpdater_rolled o now nvrs0 prevCameras w :
  let updated := fst (fst (tickUpdater o now nvrs0 prevCameras w)) in
  let chs := snd (fst (tickUpdater o now nvrs0 prevCameras w)) in
  (∃ evs, Forall3 (rolled now) prevCameras updated evs ∧ chs = concat evs)
  ∨ (Forall2 (λ c c', c' = c ∨ c' = withStatus c false false now)
       prevCameras updated
     ∧ ∃ ch, chs = [ch] ∧ ch_type ch = NVR_FAILURE).
Proof.
  cbv zeta. unfold tickUpdater. rewrite bind_run.
  destruct (nvrFailure o now prevCameras w) as [[[cs chs]|] w1] eqn:Eearly.
  - right. cbn [fst snd mret M_ret].
    unfold nvrFailure in Eearly. rewrite bind_run in Eearly.
    cbn [mathRandom fst snd] in Eearly.
    destruct (lt _ _); [|done].
    rewrite bind_run in Eearly. cbn [mathRandom fst snd] in Eearly.
    destruct (negb _); [|done].
    unfold addToast in Eearly. rewrite !bind_run in Eearly.
    cbn [fst snd mret M_ret] in Eearly. injection Eearly as <- <- _.
    split; [|by eexists].
    apply Forall2_fmap_r, Forall_Forall2_diag, Forall_forall. intros c _.
    unfold compose. cbv beta. destruct (bool_decide _); auto.
  - left. cbn [fst snd]. rewrite bind_run.
    destruct (rollCameras_rolled o now nvrs0 prevCameras (mkLocals false [])
                w1) as (evs & Hevs & Hchs).
    pose proof (rollCameras_quiet o now nvrs0 prevCameras w1) as Hquiet.
    destruct (rollCameras o now nvrs0 prevCameras (mkLocals false []) w1)
      as [[nextCameras loc] w2].
    cbn [fst snd changes app] in *.
    destruct (updatesOccurred loc).
    + rewrite !bind_run. cbn [fst snd mret M_ret]. by exists evs.
    + cbn [fst snd mret M_ret]. rewrite (Hquiet eq_refl).
      exists (replicate (length prevCameras) []).
      split; [apply Forall3_rolled_same|by rewrite concat_replicate_nil].
Qed.

Lemma faultSteps_app o now chs1 : ∀ chs2 nextFaults w,
  faultSteps o now (chs1 ++ chs2) nextFaults w
  = faultSteps o now chs2 (fst (faultSteps o now chs1 nextFaults w))
      (snd (faultSteps o now chs1 nextFaults w)).
Proof.
  induction chs1 as [|ch chs1 IH]; intros chs2 nextFaults w; [done|].
  cbn [app faultSteps]. rewrite !bind_run. apply IH.
Qed.

Lemma openCount_closeFault_same C now fs :
  openCount C (closeFault C now <$> fs) = 0%nat.
Proof.
  unfold openCount. induction fs as [|f fs IH]; [done|].
  rewrite fmap_cons, filter_cons, decide_False; [exact IH|].
  by rewrite closeFault_not_open.
Qed.

Lemma openCount_closeFault_other C D now fs :
  D ≠ C → openCount D (closeFault C now <$> fs) = openCount D fs.
Proof.
  intros HD. unfold openCount. induction fs as [|f fs IH]; [done|].
  rewrite fmap_cons, !filter_cons.
  destruct (closeFault_other_camera C D now f HD) as [E _]. rewrite E.
  case_decide; cbn [length]; by rewrite IH.
Qed.

Lemma openCount_app C fs1 fs2 :
  openCount C (fs1 ++ fs2) = (openCount C fs1 + openCount C fs2)%nat.
Proof. unfold openCount. by rewrite filter_app, length_app. Qed.

Lemma openCount_openFault o C cam now w :
  openCount C [fst (openFault o cam now w)]
  = if bool_decide (cam_id cam = C) then 1%nat else 0%nat.
Proof.
  unfold openCount, openFault. rewrite bind_run. cbn [fst mret M_ret].
  rewrite filter_cons, filter_nil. unfold isOpenFor. cbn [f_cameraId timeOn].
  case_bool_decide; cbn [andb]; by case_decide.
Qed.

(** The open faults after the fault steps of the events of a roll. *)
Lemma faultSteps_rolled o now cams cams' evs :
  Forall3 (rolled now) cams cams' evs →
  NoDup (cam_id <$> cams) →
  ∀ (before : string → nat) nextFaults w,
    (∀ C, C ∈ cam_id <$> cams → openCount C nextFaults = before C) →
    (∀ C, C ∉ cam_id <$> cams →
       openCount C (eval (faultSteps o now (concat evs) nextFaults) w)
       = openCount C nextFaults)
    ∧ Forall2
        (inStep before (eval (faultSteps o now (concat evs) nextFaults) w))
        cams cams'.
Proof.
  induction 1 as [|c c' ev cams cams' evs Hc _ IH];
    intros Hnd before nextFaults w Hbefore.
  - split; [done|constructor].
  - rewrite fmap_cons in Hnd. apply NoDup_cons in Hnd as [Hfresh Hnd].
    cbn [concat]. unfold eval. rewrite faultSteps_app.
    set (fs1 := fst (faultSteps o now ev nextFaults w)).
    set (w1 := snd (faultSteps o now ev nextFaults w)).
    assert (Hid : cam_id c' = cam_id c) by (by destruct Hc).
    assert (Hother : ∀ C, C ≠ cam_id c →
              openCount C fs1 = openCount C nextFaults).
    { intros C HC. subst fs1. destruct Hc; cbn [faultSteps].
      - done.
      - rewrite !bind_run. cbn [faultStep ch_type ch_camera fst mret M_ret].
        by apply openCount_closeFault_other.
      - rewrite !bind_run. cbn [faultStep ch_type ch_camera].
        rewrite bind_run. cbn [fst mret M_ret].
        rewrite openCount_app, openCount_openFault.
        rewrite bool_decide_eq_false_2 by (cbn; congruence). lia. }
    destruct (IH Hnd before fs1 w1) as [Hout Hin].
    { intros C HC. rewrite Hother; [|by intros ->].
      apply Hbefore. rewrite fmap_cons. by apply list_elem_of_further. }
    unfold eval in Hout, Hin.
    split.
    + intros C HC. rewrite fmap_cons in HC.
      apply not_elem_of_cons in HC as [HC1 HC2].
      rewrite (Hout C HC2). by apply Hother.
    + constructor; [|exact Hin].
      split; [exact Hid|]. rewrite (Hout _ Hfresh).
      assert (Hb : openCount (cam_id c) nextFaults = before (cam_id c)).
      { apply Hbefore. rewrite fmap_cons. apply list_elem_of_here. }
      subst fs1. destruct Hc as [c|c Hoff|c Hon]; cbn [faultSteps].
      * left. by split.
      * right. left. split; [done|].
        rewrite !bind_run. cbn [faultStep ch_type ch_camera fst mret M_ret].
        apply openCount_closeFault_same.
      * right. right. left. split; [done|]. split; [done|].
        rewrite !bind_run. cbn [faultStep ch_type ch_camera].
        rewrite bind_run. cbn [fst mret M_ret].
        rewrite openCount_app, openCount_openFault, Hb.
        rewrite bool_decide_eq_true_2 by done. lia.
Qed.

(** What a tick does to the cameras and to their open faults. *)
Lemma tick_inStep o now w :
  NoDup (cam_id <$> cameras w) →
  (∀ C, C ∉ cam_id <$> cameras w →
     openCount C (faults (exec (tick o now) w)) = openCount C (faults w))
  ∧ Forall2 (inStep (λ C, openCount C (faults w))
               (faults (exec (tick o now) w)))
      (cameras w) (cameras (exec (tick o now) w)).
Proof.
  intros Hnd. unfold exec. rewrite tick_run.
  cbn [snd updateCameras cameras faults].
  destruct (tickUpdater_sync o now (nvrs w) (cameras w) w)
    as ((w1 & Hf) & _ & _).
  rewrite Hf.
  destruct (tickUpdater_rolled o now (nvrs w) (cameras w) w)
    as [(evs & Hevs & ->)|(Hcams & ch & -> & Ht)].
  - by apply (faultSteps_rolled o now _ _ evs Hevs Hnd).
  - assert (E : eval (faultSteps o now [ch] (faults w)) w1 = faults w).
    { unfold eval. cbn [faultSteps]. rewrite !bind_run.
      unfold faultStep. rewrite Ht. reflexivity. }
    rewrite E. split; [done|].
    eapply Forall2_impl; [exact Hcams|]. cbv beta.
    intros c c' [->| ->]; (split; [done|]); [left|right; right; right]; done.
Qed.

Lemma openFaultsOf_count C w :
  openFaultsOf C w = [] ↔ openCount C (faults w) = 0%nat.
Proof.
  unfold openFaultsOf, openCount. split; [by intros ->|].
  by intros ?%nil_length_inv.
Qed.

Lemma Forall2_elem_l {A B} (R : A → B → Prop) l k x :
  Forall2 R l k → x ∈ l → ∃ y, y ∈ k ∧ R x y.
Proof.
  induction 1 as [|a b l k Hab _ IH]; [by intros ?%elem_of_nil|].
  intros [->|Hx]%elem_of_cons.
  - exists b. split; [apply list_elem_of_here|done].
  - destruct (IH Hx) as (y & Hy & HR). exists y.
    split; [by apply list_elem_of_further|done].
Qed.

Lemma Forall2_elem_r {A B} (R : A → B → Prop) l k y :
  Forall2 R l k → y ∈ k → ∃ x, x ∈ l ∧ R x y.
Proof.
  induction 1 as [|a b l k Hab _ IH]; [by intros ?%elem_of_nil|].
  intros [->|Hy]%elem_of_cons.
  - exists a. split; [apply list_elem_of_here|done].
  - destruct (IH Hy) as (x & Hx & HR). exists x.
    split; [by apply list_elem_of_further|done].
Qed.

Lemma faultsInStep_tick o now w :
  faultsInStep w → faultsInStep (exec (tick o now) w).
Proof.
  intros (Hnd & Hsingle & Honline).
  destruct (tick_inStep o now w Hnd) as [Hout Hin].
  set (w' := exec (tick o now) w) in *.
  assert (Hzero : ∀ c, c ∈ cameras w → isOnline c = true →
            openCount (cam_id c) (faults w) = 0%nat).
  { intros c Hc Hon. apply openFaultsOf_count.
    rewrite Forall_forall in Honline. by apply Honline. }
  split; [|split].
  - rewrite (Forall2_fmap_eq cam_id _ _ _ Hin); [done|]. by intros c c' [? _].
  - intros C. change (openCount C (faults w') ≤ 1)%nat.
    specialize (Hsingle C). change (openCount C (faults w) ≤ 1)%nat in Hsingle.
    destruct (decide (C ∈ cam_id <$> cameras w)) as [HC|HC];
      [|by rewrite (Hout C HC)].
    apply list_elem_of_fmap in HC as (c & -> & Hc).
    destruct (Forall2_elem_l _ _ _ c Hin Hc) as (c' & _ & _ & Hstep).
    destruct Hstep as [[_ ->]|[[_ ->]|[(Hon & _ & ->)|[_ ->]]]];
      [done|lia| |done].
    rewrite (Hzero c Hc Hon). lia.
  - apply Forall_forall. intros c' Hc' Hon'.
    destruct (Forall2_elem_r _ _ _ c' Hin Hc') as (c & Hc & Hid & Hstep).
    apply openFaultsOf_count. rewrite Hid.
    destruct Hstep as [[-> ->]|[[_ ->]|[(_ & Hoff & _)|[Hoff _]]]];
      [by apply Hzero|done|congruence|congruence].
Qed.

Lemma handleAnalysisResult_cameras o now cameraId result frame w :
  cameras (exec (handleAnalysisResult o now cameraId result frame) w)
  = (λ cam, if bool_decide (cam_id cam = cameraId)
            then withAnalysis cam result now else cam) <$> cameras w.
Proof.
  unfold exec, handleAnalysisResult.
  destruct (ar_threatLevel result), (ar_anomalies result); reflexivity.
Qed.

Lemma faultsInStep_same_faults (w w' : World) (g : Camera → Camera) :
  (∀ c, cam_id (g c) = cam_id c ∧ isOnline (g c) = isOnline c) →
  cameras w' = g <$> cameras w → faults w' = faults w →
  faultsInStep w → faultsInStep w'.
Proof.
  intros Hg Hc Hf (Hnd & Hsingle & Honline).
  unfold faultsInStep, single_open_fault, openFaultsOf. rewrite Hc, Hf.
  split; [|split; [exact Hsingle|]].
  - rewrite <- list_fmap_compose.
    erewrite list_fmap_ext; [exact Hnd|]. intros i c _. apply Hg.
  - apply Forall_fmap. eapply Forall_impl; [exact Honline|].
    intros c Hc'. unfold compose. destruct (Hg c) as [-> ->]. exact Hc'.
Qed.

(** X4.  The tick, the manual reconnect, the deletion of an NVR and the
    analysis result keep the faults in step with the cameras: if the cameras
    have different ids, no camera has more than one open fault and no online
    camera has an open fault, then the same holds afterwards.  In a tick, a
    camera that fails was online, so the fault opened for it is its only
    open one, and a repaired camera has all its open faults closed.  (The
    save of the NVR form is left out: an edit sets the online flag without
    touching the faults, and an addition makes cameras with new ids.) *)
Theorem faults_stay_in_step_with_the_cameras (o : Oracle) (a : Action)
    (w : World) :
  faultsInStep w → ¬ isSaveNvr a → faultsInStep (exec (perform o a) w).
Proof.
  intros Hw Ha.
  destruct a as [now|now cameraId|now deleteNvrId|now nvrForm isEditingNvr
                |now cameraId result frame]; cbn [perform].
  - assert (E : exec (tick o now ≫= λ _, mret tt) w = exec (tick o now) w).
    { unfold exec. rewrite bind_run. reflexivity. }
    rewrite E. by apply faultsInStep_tick.
  - destruct Hw as (Hnd & Hsingle & Honline).
    unfold faultsInStep, single_open_fault, openFaultsOf.
    rewrite handleReconnect_cameras, handleReconnect_faults.
    split; [|split].
    + rewrite <- list_fmap_compose.
      erewrite list_fmap_ext; [exact Hnd|]. intros i c _. unfold compose.
      by destruct (bool_decide _).
    + intros C. change (openCount C (closeFault cameraId now <$> faults w) ≤ 1)%nat.
      destruct (decide (C = cameraId)) as [->|HC].
      * rewrite openCount_closeFault_same. lia.
      * rewrite openCount_closeFault_other by done. apply Hsingle.
    + apply Forall_fmap, Forall_forall. intros c Hc. unfold compose.
      rewrite Forall_forall in Honline.
      destruct (decide (cam_id c = cameraId)) as [Hid|Hid].
      * rewrite bool_decide_eq_true_2 by done. intros _.
        apply nil_length_inv. cbn [withStatus cam_id]. rewrite Hid.
        apply openCount_closeFault_same.
      * rewrite bool_decide_eq_false_2 by done. intros Hon.
        apply nil_length_inv.
        change (openCount (cam_id c) (closeFault cameraId now <$> faults w)
                = 0%nat).
        rewrite openCount_closeFault_other by done.
        apply (f_equal length (Honline c Hc Hon)).
  - destruct deleteNvrId as [N|]; [|done].
    destruct (decide (N = "")) as [->|HN]; [done|].
    rewrite executeDeleteNvr_unfold by done.
    destruct Hw as (Hnd & Hsingle & Honline).
    split; [|split; [exact Hsingle|]]; cbn [cameras].
    + eapply sublist_NoDup; [exact Hnd|apply fmap_sublist, sublist_filter].
    + unfold openFaultsOf. cbn [faults].
      apply Forall_forall. intros c [_ Hc]%list_elem_of_filter.
      rewrite Forall_forall in Honline. by apply Honline.
  - by destruct Ha.
  - destruct (Touches_handleAnalysisResult o now cameraId result frame w)
      as (_ & _ & Hf & _).
    eapply (faultsInStep_same_faults w _
              (λ cam, if bool_decide (cam_id cam = cameraId)
                      then withAnalysis cam result now else cam));
      [|apply handleAnalysisResult_cameras|exact (Hf eq_refl)|exact Hw].
    intros c. by destruct (bool_decide _).
Qed.

Lemma faults_stay_in_step_with_the_cameras_witness :
  faultsInStep site
  ∧ faultsInStep (exec (perform fails_twice (Tick 100)) site)
  ∧ isOnline <$> cameras (exec (perform fails_twice (Tick 100)) site)
    = [false; true; true; false]
  ∧ length (faults (exec (perform fails_twice (Tick 100)) site)) = 2%nat.
Proof.
  assert (H : faultsInStep site).
  { split; [apply (bool_decide_unpack _); vm_compute; exact I|].
    split; [exact site_single_open_fault|].
    apply (bool_decide_unpack _). vm_compute. exact I. }
  split; [exact H|].
  split; [exact (faults_stay_in_step_with_the_cameras fails_twice (Tick 100)
                   site H (λ F, F))|].
  split; vm_compute; reflexivity.
Defined.

(** ** Adding an NVR and deleting it again *)

Lemma filter_app_none {A} (P : A → Prop) `{∀ x, Decision (P x)} (l k : list A) :
  Forall P l → Forall (λ x, ¬ P x) k → filter P (l ++ k) = l.
Proof.
  intros Hl Hk. rewrite filter_app.
  assert (E1 : filter P l = l).
  { clear Hk. induction Hl as [|x l Hx _ IH]; [done|].
    rewrite filter_cons, decide_True by done. by rewrite IH. }
  assert (E2 : filter P k = []).
  { clear Hl E1. induction Hk as [|x k Hx _ IH]; [done|].
    rewrite filter_cons, decide_False by done. exact IH. }
  by rewrite E1, E2, app_nil_r.
Qed.

(** X13.  Deleting an NVR that was just added (under an id that no NVR and no
    camera used before) gives the NVRs and the cameras back.  The fault log
    is not restored: the eight faults that a failed addition opens for the
    new cameras stay in it after the cameras are gone. *)
Theorem deleting_an_added_nvr_keeps_its_faults (o : Oracle) (now now' : Z)
    (nvrForm : NvrForm) (w : World) :
  form_ip nvrForm ≠ "" → form_username nvrForm ≠ "" →
  form_password nvrForm ≠ "" →
  last_segment "." "" (form_ip nvrForm) ≠ "" →
  let newNvrId :=
    "NVR-" +:+ padStart 3 "0" (last_segment "." "" (form_ip nvrForm)) in
  Forall (λ n, nvr_id n ≠ newNvrId) (nvrs w) →
  Forall (λ c, cam_nvrId c ≠ newNvrId) (cameras w) →
  let added := exec (handleSaveNvr o now nvrForm None) w in
  let deleted := exec (executeDeleteNvr o now' (Some newNvrId)) added in
  nvrs deleted = nvrs w
  ∧ cameras deleted = cameras w
  ∧ faults deleted = faults added
  ∧ length (faults deleted)
    = (length (faults w) + (if isSuccessOf o nvrForm w then 0 else 8))%nat.
Proof.
  intros Hip Hus Hpw Hseg newNvrId Hnvrs Hcams. cbv zeta.
  destruct (adding_an_nvr_spec o now nvrForm None w Hip Hus Hpw
              (or_introl eq_refl))
    as (n & cams & newFaults & Hn & Hid & Hc & Hlen & Hall & Hf & Hnf).
  specialize (Hid Hseg). fold newNvrId in Hid.
  rewrite executeDeleteNvr_unfold by discriminate.
  cbn [nvrs cameras faults]. rewrite Hn, Hc, Hf.
  split; [|split; [|split; [done|]]].
  - apply filter_app_none; [exact Hnvrs|].
    constructor; [|constructor]. intros Hne. by apply Hne.
  - apply filter_app_none; [exact Hcams|].
    eapply Forall_impl; [exact Hall|]. cbn. intros c (Hc' & _) Hne.
    apply Hne. by rewrite Hc'.
  - rewrite length_app. f_equal.
    destruct (isSuccessOf o nvrForm w); [by rewrite Hnf|].
    apply Forall2_length in Hnf. by rewrite <- Hnf.
Qed.

Lemma deleting_an_added_nvr_keeps_its_faults_witness :
  let added := exec (handleSaveNvr quiet 100 bad_form None) site in
  let deleted := exec (executeDeleteNvr quiet 200 (Some "NVR-050")) added in
  nvrs deleted = nvrs site
  ∧ cameras deleted = cameras site
  ∧ faults deleted = faults added
  ∧ length (faults deleted) = 9%nat.
Proof.
  exact (deleting_an_added_nvr_keeps_its_faults quiet 100 200 bad_form site
           ltac:(discriminate) ltac:(discriminate) ltac:(discriminate)
           ltac:(discriminate)
           ltac:(apply (bool_decide_unpack _); vm_compute; exact I)
           ltac:(apply (bool_decide_unpack _); vm_compute; exact I)).
Defined.

(** ** Saving the edit dialog as it was opened *)

(** X15.  The connection test accepts one pair of credentials, [admin] and
    [12345].  So when the edit dialog of an NVR with other credentials (as
    the seeded and the discovered NVRs have) is opened and saved without a
    change, the test fails whatever the network does: the NVR loses the
    status ONLINE and every camera under it is put offline, while the
    recording flags stay as they were and no fault is opened.  The dialog
    for a new NVR opens with an empty address, so saving it at once changes
    no collection. *)
Theorem saving_the_unchanged_edit_dialog_takes_cameras_offline (o : Oracle)
    (now : Z) (nvr : NvrDevice) (w : World) :
  nvr_id nvr ≠ "" → nvr_ip nvr ≠ "" → nvr_username nvr ≠ "" →
  or_else (nvr_password nvr) "" ≠ "" →
  nvr_username nvr ≠ "admin" ∨ nvr_password nvr ≠ Some "12345" →
  let w' := exec (handleSaveNvr o now (fst (openEditNvrModal nvr))
                    (snd (openEditNvrModal nvr))) w in
  let w0 := exec (handleSaveNvr o now (fst openAddNvrModal)
                    (snd openAddNvrModal)) w in
  Forall (λ c, cam_nvrId c = nvr_id nvr → isOnline c = false) (cameras w')
  ∧ Forall (λ n, nvr_id n = nvr_id nvr → nvr_status n ≠ ONLINE) (nvrs w')
  ∧ isRecording <$> cameras w' = isRecording <$> cameras w
  ∧ faults w' = faults w
  ∧ (cameras w0 = cameras w ∧ nvrs w0 = nvrs w ∧ faults w0 = faults w
     ∧ alerts w0 = alerts w).
Proof.
  intros Hid Hip Hus Hpw Hcred. cbv zeta. cbn [openEditNvrModal fst snd].
  set (nvrForm := mkNvrForm _ _ _ _ _ _).
  assert (Hfail : isSuccessOf o nvrForm w = false).
  { unfold isSuccessOf. cbn [nvrForm form_username form_password].
    destruct Hcred as [Hu|Hp].
    - by rewrite (bool_decide_eq_false_2 _ Hu).
    - rewrite (bool_decide_eq_false_2 (or_else (nvr_password nvr) "" = "12345"));
        [by rewrite andb_false_r|].
      intros E. apply Hp. destruct (nvr_password nvr) as [p|]; [|done].
      cbn [or_else] in E. destruct (bool_decide (p = "")); [done|].
      by rewrite E. }
  destruct (editing_an_nvr_run o now nvrForm (nvr_id nvr) w Hip Hus Hpw Hid)
    as (st & Hst & Hcams & Hnvrs & Hf & _).
  rewrite Hfail in Hst, Hcams. rewrite Hcams, Hnvrs.
  split; [|split; [|split; [|split; [exact Hf|]]]].
  - apply Forall_fmap, Forall_forall. intros c _ Hc. unfold compose in *.
    destruct (bool_decide (cam_nvrId c = nvr_id nvr)) eqn:E; [done|].
    apply bool_decide_eq_false in E. by destruct E.
  - apply Forall_fmap, Forall_forall. intros n _ Hn. unfold compose in *.
    destruct (bool_decide (nvr_id n = nvr_id nvr)) eqn:E.
    + cbn [nvr_status]. intros Hon. apply Hst in Hon. discriminate.
    + apply bool_decide_eq_false in E. by destruct E.
  - rewrite <- list_fmap_compose. apply list_fmap_ext. intros i c _.
    unfold compose. cbv beta.
    by destruct (bool_decide (cam_nvrId c = nvr_id nvr)).
  - unfold exec.
    rewrite (handleSaveNvr_incomplete o now (fst openAddNvrModal)
               (snd openAddNvrModal) (or_introl eq_refl)).
    split; [reflexivity|]. split; [reflexivity|]. split; reflexivity.
Qed.

Lemma saving_the_unchanged_edit_dialog_takes_cameras_offline_witness :
  let nvr := nvr_of "NVR-01" ONLINE in
  let w' := exec (handleSaveNvr quiet 100 (fst (openEditNvrModal nvr))
                    (snd (openEditNvrModal nvr))) site in
  Forall (λ c, cam_nvrId c = "NVR-01" → isOnline c = false) (cameras w')
  ∧ Forall (λ n, nvr_id n = "NVR-01" → nvr_status n ≠ ONLINE) (nvrs w')
  ∧ isRecording <$> cameras w' = isRecording <$> cameras site
  ∧ faults w' = faults site.
Proof.
  assert (Hid : nvr_id (nvr_of "NVR-01" ONLINE) ≠ "") by discriminate.
  assert (Hip : nvr_ip (nvr_of "NVR-01" ONLINE) ≠ "") by discriminate.
  assert (Hus : nvr_username (nvr_of "NVR-01" ONLINE) ≠ "") by discriminate.
  assert (Hpw : or_else (nvr_password (nvr_of "NVR-01" ONLINE)) "" ≠ "")
    by discriminate.
  assert (Hcred : nvr_password (nvr_of "NVR-01" ONLINE) ≠ Some "12345")
    by discriminate.
  destruct (saving_the_unchanged_edit_dialog_takes_cameras_offline quiet 100
              (nvr_of "NVR-01" ONLINE) site Hid Hip Hus Hpw (or_intror Hcred))
    as (H1 & H2 & H3 & H4 & _).
  split; [exact H1|]. split; [exact H2|]. split; [exact H3|exact H4].
Defined.
